(** * nomad-pack [render]: the render-output dispatcher and the filesystem helpers

    A shallow embedding of [internal/cli/render.go] (the [render] command:
    [Run], [Render.Output], [toTerminal], [toFile], [maybeConfirmOverwrite],
    [formatRenderName]) and of [internal/pkg/helper/filesystem/filesystem.go]
    ([CopyFile], [CopyDir], [IsDir], [Exists], [WriteFile], [CreatePath]).

    Go strings are byte strings ([string]); Go's [int] exit code is a [Z];
    permission bits are an [N].  Code that touches the terminal or the
    filesystem runs in a state monad over a [World] that holds a small POSIX
    filesystem, the user interface's input script and a trace of every
    user-interface and operating-system call, in order. *)

From Stdlib Require Import String Ascii List Bool Arith NArith ZArith Lia.
Import ListNotations.
Open Scope string_scope.

(* ================================================================= *)
(** ** Go's [strings] package, as far as the command uses it *)

Module GoStrings.

(** [strings.HasPrefix(s, prefix)]. *)
Fixpoint HasPrefix (s prefix : string) {struct prefix} : bool :=
  match prefix with
  | EmptyString => true
  | String p prefix' =>
      match s with
      | EmptyString => false
      | String c s' => Ascii.eqb c p && HasPrefix s' prefix'
      end
  end.

(** [s[n:]] (clamped at the end of the string). *)
Fixpoint drop (n : nat) (s : string) : string :=
  match n, s with
  | O, _ => s
  | S _, EmptyString => EmptyString
  | S n', String _ s' => drop n' s'
  end.

(** [strings.Replace(s, old, new, 1)]: the leftmost occurrence of [old]
    is replaced by [new]; a string without an occurrence is returned as
    it is.  (The command only ever passes the count 1.) *)
Fixpoint Replace1 (s old new : string) : string :=
  if HasPrefix s old then new ++ drop (String.length old) s
  else match s with
       | EmptyString => EmptyString
       | String c s' => String c (Replace1 s' old new)
       end.

(** Membership of a byte in a cutset. *)
Fixpoint inCutset (c : ascii) (cutset : string) : bool :=
  match cutset with
  | EmptyString => false
  | String d cutset' => Ascii.eqb c d || inCutset c cutset'
  end.

(** [strings.TrimRight(s, cutset)]: every trailing byte that occurs in
    [cutset] is removed.  Go trims code points; for a cutset of ASCII
    characters that is the same as trimming bytes, because no byte of a
    multi-byte UTF-8 sequence is an ASCII byte. *)
Fixpoint TrimRight (s cutset : string) : string :=
  match s with
  | EmptyString => EmptyString
  | String c s' =>
      match TrimRight s' cutset with
      | EmptyString => if inCutset c cutset then EmptyString else String c EmptyString
      | String d r => String c (String d r)
      end
  end.

(** ASCII lower-casing of one byte. *)
Definition lowerByte (c : ascii) : ascii :=
  let n := nat_of_ascii c in
  if ((65 <=? n) && (n <=? 90))%nat then ascii_of_nat (n + 32) else c.

(** [strings.ToLower(s)] on the ASCII letters.  Go also maps upper-case
    letters outside ASCII; none of them maps to an ASCII letter that the
    confirmation prompt compares with ([y], [n], [a]), and their UTF-8
    encodings have no ASCII byte, so the three comparisons of
    [maybeConfirmOverwrite] come out the same. *)
Fixpoint ToLower (s : string) : string :=
  match s with
  | EmptyString => EmptyString
  | String c s' => String (lowerByte c) (ToLower s')
  end.

(** [old] occurs in [s] at offset [length pre]. *)
Definition OccursAt (old s pre post : string) : Prop := s = pre ++ old ++ post.

(** The occurrence after [pre] is the leftmost one. *)
Definition FirstOcc (old s pre post : string) : Prop :=
  OccursAt old s pre post /\
  forall pre' post', OccursAt old s pre' post' -> (String.length pre <= String.length pre')%nat.

Definition NoOcc (old s : string) : Prop :=
  forall pre post, ~ OccursAt old s pre post.

(** All bytes of a string satisfy a test. *)
Fixpoint allBytes (f : ascii -> bool) (s : string) : bool :=
  match s with
  | EmptyString => true
  | String c s' => f c && allBytes f s'
  end.

(** The last byte of a string, if it has one. *)
Fixpoint lastByte (s : string) : option ascii :=
  match s with
  | EmptyString => None
  | String c EmptyString => Some c
  | String _ s' => lastByte s'
  end.

End GoStrings.

(* ================================================================= *)
(** ** Go errors *)

(** The error numbers the modelled system calls fail with. *)
Inductive errno : Type :=
| ENOENT | ENOTDIR | EISDIR | EEXIST | EACCES | ELOOP | EINVAL.

(** Go [error] values.  A nil [error] is [None : option error]. *)
Inductive error : Type :=
| Errno (e : errno)                              (* syscall.Errno *)
| ErrorString (text : string)                    (* errors.New, fmt.Errorf without verbs *)
| PathError (op path : string) (err : error)     (* *fs.PathError{Op, Path, Err} *)
| ErrDirExists (op path : string) (err : error)  (* *filesystem.ErrDirExists{Op, Path, Err} *)
| ErrExist                                       (* fs.ErrExist, which is os.ErrExist *)
| ErrNotExist                                    (* fs.ErrNotExist, which is os.ErrNotExist *)
| ErrPermission                                  (* fs.ErrPermission *)
| Canceled                                       (* context.Canceled *)
| EOF                                            (* io.EOF *)
| ErrNoTemplatesRendered.                        (* errors.ErrNoTemplatesRendered *)

Module GoErrors.

Definition errno_eqb (a b : errno) : bool :=
  match a, b with
  | ENOENT, ENOENT | ENOTDIR, ENOTDIR | EISDIR, EISDIR | EEXIST, EEXIST
  | EACCES, EACCES | ELOOP, ELOOP | EINVAL, EINVAL => true
  | _, _ => false
  end.

(** [err == target] for the sentinel values a target can be.  Pointer
    errors ([*fs.PathError], [*ErrDirExists], the result of a fresh
    [errors.New]) are equal only to themselves and are never a target
    here. *)
Definition sameValue (err target : error) : bool :=
  match err, target with
  | Errno a, Errno b => errno_eqb a b
  | ErrExist, ErrExist | ErrNotExist, ErrNotExist | ErrPermission, ErrPermission
  | Canceled, Canceled | EOF, EOF
  | ErrNoTemplatesRendered, ErrNoTemplatesRendered => true
  | _, _ => false
  end.

(** [func (e Errno) Is(target error) bool] of package [syscall]. *)
Definition Errno_Is (e : errno) (target : error) : bool :=
  match target with
  | ErrPermission => errno_eqb e EACCES
  | ErrExist => errno_eqb e EEXIST
  | ErrNotExist => errno_eqb e ENOENT
  | _ => false
  end.

(** The loop of [errors.Is] on a non-nil error: equal to the target, or its
    [Is] method says so, or the error it unwraps to is.  [*fs.PathError]
    unwraps to its [Err]; [ErrDirExists] has the [Is] method of
    [filesystem.go] ([target == fs.ErrExist]) and no [Unwrap]. *)
Fixpoint is_ (err target : error) : bool :=
  match err with
  | PathError _ _ inner => is_ inner target
  | Errno e => sameValue err target || Errno_Is e target
  | ErrDirExists _ _ _ => sameValue target ErrExist
  | _ => sameValue err target
  end.

(** [errors.Is(err, target)] for a non-nil target. *)
Definition Is (err : option error) (target : error) : bool :=
  match err with
  | None => false
  | Some e => is_ e target
  end.

(** [os.IsNotExist(err)]: one [*PathError] layer is removed, then the
    error is compared with [ErrNotExist]. *)
Definition IsNotExist (err : option error) : bool :=
  match err with
  | None => false
  | Some (PathError _ _ inner) => sameValue inner ErrNotExist || match inner with Errno e => Errno_Is e ErrNotExist | _ => false end
  | Some (Errno e) => Errno_Is e ErrNotExist
  | Some e => sameValue e ErrNotExist
  end.

End GoErrors.

(* ================================================================= *)
(** ** Go's [path] and [path/filepath] packages (Unix) *)

Module GoPath.

Definition isSlash (c : ascii) : bool := Ascii.eqb c "/".

(** [path.IsAbs]. *)
Definition IsAbs (p : string) : bool :=
  match p with
  | String c _ => isSlash c
  | EmptyString => false
  end.

(** The elements between the slashes of a path: ["/a//b"] gives
    [[""; "a"; ""; "b"]]. *)
Fixpoint elements (p : string) : list string :=
  match p with
  | EmptyString => [EmptyString]
  | String c p' =>
      match elements p' with
      | [] => [EmptyString]
      | e :: es => if isSlash c then EmptyString :: e :: es else String c e :: es
      end
  end.

Definition isDot (e : string) : bool := (e =? "") || (e =? ".").

(** One element of [Clean]'s scan; [stack] is the cleaned path so far,
    last element first. *)
Definition cleanStep (rooted : bool) (stack : list string) (e : string) : list string :=
  if isDot e then stack
  else if e =? ".." then
    match stack with
    | [] => if rooted then [] else [".."]
    | top :: below => if top =? ".." then e :: stack else below
    end
  else e :: stack.

(** [path.Clean]: slashes are collapsed, [.] elements dropped, each inner
    [..] removed with the element before it, [..] at the root dropped;
    the empty path cleans to [.]. *)
Definition Clean (p : string) : string :=
  if p =? "" then "."
  else
    let rooted := IsAbs p in
    let body := String.concat "/" (rev (fold_left (cleanStep rooted) (elements p) [])) in
    if rooted then "/" ++ body
    else if body =? "" then "." else body.

(** [path.Join(a, b)]: empty elements are ignored, the rest joined with a
    slash and cleaned; two empty elements give the empty string. *)
Definition Join (a b : string) : string :=
  if (a =? "") && (b =? "") then ""
  else Clean (if a =? "" then b else a ++ "/" ++ b).

Fixpoint hasSlash (p : string) : bool :=
  match p with
  | EmptyString => false
  | String c p' => isSlash c || hasSlash p'
  end.

(** [path.Split]: the path is cut right after its last slash. *)
Fixpoint Split (p : string) : string * string :=
  match p with
  | EmptyString => (EmptyString, EmptyString)
  | String c p' =>
      if hasSlash p' then let (dir, file) := Split p' in (String c dir, file)
      else if isSlash c then ("/", p')
      else (EmptyString, String c p')
  end.

End GoPath.

(* ================================================================= *)
(** ** The filesystem *)

(** A filesystem object: a regular file with its permission bits and
    content, a directory with its permission bits and entries, or a
    symbolic link with its target. *)
#[warnings="-register-all"]
Inductive node : Type :=
| File (perm : N) (data : string)
| Dir (perm : N) (entries : list (string * node))
| Symlink (target : string).

Module Fs.

(** Permission bits: [0755], [0644], [0666], [0777]. *)
Definition p0755 : N := 493.
Definition p0644 : N := 420.
Definition p0666 : N := 438.
Definition p0777 : N := 511.

Fixpoint child (name : string) (es : list (string * node)) : option node :=
  match es with
  | [] => None
  | (n, x) :: es' => if n =? name then Some x else child name es'
  end.

Fixpoint setChild (name : string) (x : node) (es : list (string * node)) : list (string * node) :=
  match es with
  | [] => [(name, x)]
  | (n, y) :: es' => if n =? name then (n, x) :: es' else (n, y) :: setChild name x es'
  end.

(** The object at a canonical path: the names from the root down, with
    no [.], [..] or symbolic link on the way. *)
Fixpoint lookup (root : node) (p : list string) : option node :=
  match p with
  | [] => Some root
  | c :: p' =>
      match root with
      | Dir _ es => match child c es with
                    | Some x => lookup x p'
                    | None => None
                    end
      | _ => None
      end
  end.

(** The tree with the object at canonical path [p] set to [x]; the
    parent of [p] has to be a directory of the tree. *)
Fixpoint put (root : node) (p : list string) (x : node) : node :=
  match p with
  | [] => x
  | c :: p' =>
      match root with
      | Dir perm es =>
          match child c es, p' with
          | Some y, _ => Dir perm (setChild c (put y p' x) es)
          | None, [] => Dir perm (setChild c x es)
          | None, _ :: _ => root
          end
      | _ => root
      end
  end.

(** The filesystem as one process sees it: the tree, the working
    directory (a canonical path), the file-creation mask, and whether the
    process is privileged (permission checks always pass for it).  The
    process owns every object, so the owner bits decide. *)
Record t : Type := mk {
  root : node;
  cwd : list string;
  umask : N;
  privileged : bool
}.

Definition canRead (fs : t) (perm : N) : bool := privileged fs || N.testbit perm 8.
Definition canWrite (fs : t) (perm : N) : bool := privileged fs || N.testbit perm 7.
Definition canSearch (fs : t) (perm : N) : bool := privileged fs || N.testbit perm 6.

(** The bits a new object gets: the requested permission bits without
    those of the mask. *)
Definition created (fs : t) (perm : N) : N := N.ldiff (N.land perm p0777) (umask fs).

(** Result of resolving a path: the object and its canonical path; or
    only the last element is missing, under an existing directory; or an
    error. *)
Inductive resolved : Type :=
| Found (p : list string) (n : node)
| Missing (parent : list string) (name : string)
| Failed (e : errno).

Definition isNil {A : Type} (l : list A) : bool :=
  match l with [] => true | _ => false end.

(** Path resolution from directory [cur] over the elements [elems].
    Every directory on the way needs search permission; an empty or [.]
    element stays in the directory; a symbolic link is replaced by its
    target when it is not the last element or when [follow] is set, at
    most [hops] times ([ELOOP] after that). *)
Fixpoint walk (fs : t) (follow : bool) (hops : nat) (cur elems : list string)
  {struct hops} : resolved :=
  (fix go (cur elems : list string) {struct elems} : resolved :=
     match elems with
     | [] => match lookup (root fs) cur with
             | Some n => Found cur n
             | None => Failed ENOENT
             end
     | e :: rest =>
         match lookup (root fs) cur with
         | Some (Dir perm es) =>
             if negb (canSearch fs perm) then Failed EACCES
             else if GoPath.isDot e then go cur rest
             else if e =? ".." then go (removelast cur) rest
             else match child e es with
                  | None => if isNil rest then Missing cur e else Failed ENOENT
                  | Some (Symlink target) =>
                      if follow || negb (isNil rest) then
                        match hops with
                        | O => Failed ELOOP
                        | S hops' =>
                            if target =? "" then Failed ENOENT
                            else walk fs follow hops'
                                   (if GoPath.IsAbs target then [] else cur)
                                   (GoPath.elements target ++ rest)%list
                        end
                      else Found (cur ++ [e])%list (Symlink target)
                  | Some _ => go (cur ++ [e])%list rest
                  end
         | Some _ => Failed ENOTDIR
         | None => Failed ENOENT
         end
     end) cur elems.

(** The limit on the symbolic links followed in one resolution. *)
Definition maxSymlinks : nat := 40.

(** Resolution of a path string; the empty path names nothing. *)
Definition resolve (fs : t) (follow : bool) (path : string) : resolved :=
  if path =? "" then Failed ENOENT
  else walk fs follow maxSymlinks
         (if GoPath.IsAbs path then [] else cwd fs) (GoPath.elements path).

Definition setRoot (r : node) (fs : t) : t :=
  mk r (cwd fs) (umask fs) (privileged fs).

(** The working directory as a path string ([os.Getwd]). *)
Definition getwd (fs : t) : string := "/" ++ String.concat "/" (cwd fs).

End Fs.

(* ================================================================= *)
(** ** The world: filesystem, session state, user interface, trace *)

Inductive style : Type := BoldStyle | WarningBoldStyle.

(** An open file: the name it was opened under and the canonical path of
    the regular file or directory it was opened on (nothing in this program removes or renames an object, so
    the path identifies it). *)
Record file : Type := mkFile { fileName : string; filePath : list string }.

(** The operating-system calls of the program, with their arguments. *)
Inductive syscall : Type :=
| SysStat (path : string)
| SysLstat (path : string)
| SysMkdir (path : string) (perm : N)
| SysReadDir (path : string)
| SysOpen (path : string)
| SysCreate (path : string)
| SysWriteFile (path data : string) (perm : N)
| SysCopy (dst src : file)
| SysSync (f : file)
| SysClose (f : file)
| SysChmod (path : string) (perm : N).

(** What the program does to the outside, in order: output on the user
    interface ([ui.Output], [ui.Info], [ui.ErrorWithContext]), a prompt
    ([ui.Input]), a debug line of the logger (its format string and the
    error formatted into it), an operating-system call. *)
Inductive event : Type :=
| UiOutput (msg : string) (st : option style)
| UiInfo (msg : string)
| UiErrorWithContext (err : error) (sub : string) (ctx : list (string * string))
| UiInput (prompt : string) (st : style)
| LogDebug (format : string) (err : error)
| Sys (call : syscall).

(** The state the command runs in.  [autoApproved] is the field
    [c.autoApproved] of the command (shared by every render through the
    pointer [c]); [interactive] is what [ui.Interactive()] answers;
    [inputs] is what the user will type, one entry per [ui.Input] call: a
    line, or the error of a failed read; [errorContext] is the
    [*errors.UIErrorContext] that every render of a run points to. *)
Record World : Type := mkWorld {
  fs : Fs.t;
  autoApproved : bool;
  interactive : bool;
  inputs : list (string + error);
  errorContext : list (string * string);
  trace : list event
}.

Definition setFs (f : Fs.t) (w : World) : World :=
  mkWorld f (autoApproved w) (interactive w) (inputs w) (errorContext w) (trace w).
Definition setAutoApproved (b : bool) (w : World) : World :=
  mkWorld (fs w) b (interactive w) (inputs w) (errorContext w) (trace w).
Definition setInputs (i : list (string + error)) (w : World) : World :=
  mkWorld (fs w) (autoApproved w) (interactive w) i (errorContext w) (trace w).
Definition setErrorContext (c : list (string * string)) (w : World) : World :=
  mkWorld (fs w) (autoApproved w) (interactive w) (inputs w) c (trace w).
Definition addTrace (e : event) (w : World) : World :=
  mkWorld (fs w) (autoApproved w) (interactive w) (inputs w) (errorContext w)
          (trace w ++ [e])%list.

(** How a call ends: with a result, with a Go panic, or (for the models of
    loops and recursion that take fuel) with the fuel used up. *)
Inductive outcome (A : Type) : Type :=
| Ok (a : A)
| Panic (msg : string)
| OutOfFuel.
Arguments Ok {A} a.
Arguments Panic {A} msg.
Arguments OutOfFuel {A}.

Definition M (A : Type) : Type := World -> outcome A * World.

Definition ret {A : Type} (a : A) : M A := fun w => (Ok a, w).

Definition bind {A B : Type} (m : M A) (k : A -> M B) : M B :=
  fun w =>
    match m w with
    | (Ok a, w') => k a w'
    | (Panic msg, w') => (Panic msg, w')
    | (OutOfFuel, w') => (OutOfFuel, w')
    end.

Definition panic {A : Type} (msg : string) : M A := fun w => (Panic msg, w).
Definition outOfFuel {A : Type} : M A := fun w => (OutOfFuel, w).

Declare Scope go_scope.
Delimit Scope go_scope with go.
Notation "x <- m ;; k" := (bind m (fun x => k))
  (at level 61, m at next level, right associativity) : go_scope.
Notation "' pat <- m ;; k" := (bind m (fun x => match x with pat => k end))
  (at level 61, pat pattern, m at next level, right associativity) : go_scope.
Notation "m ;; k" := (bind m (fun _ => k))
  (at level 61, right associativity) : go_scope.
Open Scope go_scope.

Definition log (e : event) : M unit := fun w => (Ok tt, addTrace e w).
Definition getFs : M Fs.t := fun w => (Ok (fs w), w).
Definition putRoot (r : node) : M unit := fun w => (Ok tt, setFs (Fs.setRoot r (fs w)) w).

(** Reading and writing the field [c.autoApproved]. *)
Definition getAutoApproved : M bool := fun w => (Ok (autoApproved w), w).
Definition putAutoApproved (b : bool) : M unit := fun w => (Ok tt, setAutoApproved b w).

(** How many entries of the input script are left. *)
Definition pendingInputs : M nat := fun w => (Ok (length (inputs w)), w).

(* ================================================================= *)
(** ** The user interface ([terminal.UI]) and the logger *)

Module UI.

Definition Output (msg : string) (st : option style) : M unit := log (UiOutput msg st).

Definition Info (msg : string) : M unit := log (UiInfo msg).

Definition ErrorWithContext (err : error) (sub : string) (ctx : list (string * string)) : M unit :=
  log (UiErrorWithContext err sub ctx).

Definition Interactive : M bool := fun w => (Ok (interactive w), w).

(** [ui.Input]: the prompt is shown and one entry of the input script is
    consumed; at the end of the input the read fails with [io.EOF]. *)
Definition Input (prompt : string) (st : style) : M (string * option error) :=
  fun w =>
    let w := addTrace (UiInput prompt st) w in
    match inputs w with
    | [] => (Ok ("", Some EOF), w)
    | inl line :: rest => (Ok (line, None), setInputs rest w)
    | inr err :: rest => (Ok ("", Some err), setInputs rest w)
    end.

End UI.

Module Logger.
(** [logger.Debug(fmt.Sprintf(format, err))]. *)
Definition Debug (format : string) (err : error) : M unit := log (LogDebug format err).
End Logger.

(** Modelled from the spec: the [errors.UIErrorContext] type is not part
    of the sources; the spec describes it as an ordered mapping of label to
    value that is purely additive.  [Add] appends a pair, [GetAll] returns
    the pairs in order. *)
Module UIErrorContext.
Definition Add (label value : string) : M unit :=
  fun w => (Ok tt, setErrorContext (errorContext w ++ [(label, value)])%list w).
Definition GetAll : M (list (string * string)) := fun w => (Ok (errorContext w), w).
End UIErrorContext.

(* ================================================================= *)
(** ** The operating-system calls ([os], [io], [path/filepath.Abs]) *)

Module OS.

(** [fs.FileInfo], as far as the program reads it: [IsDir()] and the
    permission bits of [Mode()]. *)
Record FileInfo : Type := mkInfo { IsDir : bool; Mode : N }.

Definition infoOf (n : node) : FileInfo :=
  match n with
  | File perm _ => mkInfo false perm
  | Dir perm _ => mkInfo true perm
  | Symlink _ => mkInfo false Fs.p0777
  end.

(** What a [stat] of [path] answers on the filesystem [f]. *)
Definition statOf (op : string) (follow : bool) (path : string) (f : Fs.t)
  : option FileInfo * option error :=
  match Fs.resolve f follow path with
  | Fs.Found _ n => (Some (infoOf n), None)
  | Fs.Missing _ _ => (None, Some (PathError op path (Errno ENOENT)))
  | Fs.Failed e => (None, Some (PathError op path (Errno e)))
  end.

Definition statWith (op : string) (follow : bool) (path : string)
  : M (option FileInfo * option error) :=
  f <- getFs ;; ret (statOf op follow path f).

(** [os.Stat]: symbolic links are followed. *)
Definition Stat (path : string) : M (option FileInfo * option error) :=
  log (Sys (SysStat path)) ;; statWith "stat" true path.

(** [os.Lstat]: a symbolic link in the last element is not followed. *)
Definition Lstat (path : string) : M (option FileInfo * option error) :=
  log (Sys (SysLstat path)) ;; statWith "lstat" false path.

(** [os.Mkdir]: the parent has to exist and be writable, the name must
    not be taken (not even by a dangling symbolic link). *)
Definition Mkdir (path : string) (perm : N) : M (option error) :=
  log (Sys (SysMkdir path perm)) ;;
  f <- getFs ;;
  match Fs.resolve f false path with
  | Fs.Found _ _ => ret (Some (PathError "mkdir" path (Errno EEXIST)))
  | Fs.Missing parent name =>
      match Fs.lookup (Fs.root f) parent with
      | Some (Dir pperm _) =>
          if Fs.canWrite f pperm then
            putRoot (Fs.put (Fs.root f) (parent ++ [name])%list (Dir (Fs.created f perm) [])) ;;
            ret None
          else ret (Some (PathError "mkdir" path (Errno EACCES)))
      | _ => ret (Some (PathError "mkdir" path (Errno ENOENT)))
      end
  | Fs.Failed e => ret (Some (PathError "mkdir" path (Errno e)))
  end.

Fixpoint dropWhile (f : ascii -> bool) (l : list ascii) : list ascii :=
  match l with
  | [] => []
  | c :: l' => if f c then dropWhile f l' else l
  end.

(** The parent that [os.MkdirAll] creates first: trailing slashes and
    the last element are cut off ([path[:j]]); when more than the leading
    slash is left ([j > 1]) the parent is [path[:j-1]]. *)
Definition parentOf (path : string) : option string :=
  let upToJ := dropWhile (fun c => negb (GoPath.isSlash c))
                 (dropWhile GoPath.isSlash (rev (list_ascii_of_string path))) in
  match upToJ with
  | _ :: (_ :: _) as upToJ1 => Some (string_of_list_ascii (rev upToJ1))
  | _ => None
  end.

(** [os.MkdirAll], following its source: nothing to do for an existing
    directory; else the parent is made first, then the directory; a
    failed [Mkdir] is forgiven when the directory is there after all. *)
Fixpoint MkdirAllRec (fuel : nat) (path : string) (perm : N) : M (option error) :=
  match fuel with
  | O => outOfFuel
  | S fuel' =>
      '(dir, err) <- Stat path ;;
      match err, dir with
      | None, Some dir =>
          if IsDir dir then ret None
          else ret (Some (PathError "mkdir" path (Errno ENOTDIR)))
      | None, None => panic "nil FileInfo"
      | Some _, _ =>
          err <- match parentOf path with
                 | Some parent => MkdirAllRec fuel' parent perm
                 | None => ret None
                 end ;;
          match err with
          | Some e => ret (Some e)
          | None =>
              err <- Mkdir path perm ;;
              match err with
              | None => ret None
              | Some e =>
                  '(dir, err1) <- Lstat path ;;
                  match err1, dir with
                  | None, Some dir => if IsDir dir then ret None else ret (Some e)
                  | _, _ => ret (Some e)
                  end
              end
          end
      end
  end.

(** Each recursive call is on a strictly shorter path, so the length of
    the path is fuel enough. *)
Definition MkdirAll (path : string) (perm : N) : M (option error) :=
  MkdirAllRec (S (String.length path)) path perm.

(** [fs.DirEntry]: the name and the type of the entry itself (a symbolic
    link is a link, whatever it points to). *)
Inductive kind : Type := KFile | KDir | KSymlink.
Record DirEntry : Type := mkEntry { entryName : string; entryKind : kind }.

(** [entry.IsDir()]. *)
Definition entryIsDir (e : DirEntry) : bool :=
  match entryKind e with KDir => true | _ => false end.

(** [entry.Type()&os.ModeSymlink != 0]. *)
Definition entryIsSymlink (e : DirEntry) : bool :=
  match entryKind e with KSymlink => true | _ => false end.

Definition entryOf (x : string * node) : DirEntry :=
  mkEntry (fst x) match snd x with
                  | File _ _ => KFile
                  | Dir _ _ => KDir
                  | Symlink _ => KSymlink
                  end.

Fixpoint insertByName (e : DirEntry) (l : list DirEntry) : list DirEntry :=
  match l with
  | [] => [e]
  | x :: l' => if (entryName e <=? entryName x)%string then e :: l else x :: insertByName e l'
  end.

Definition sortByName (l : list DirEntry) : list DirEntry :=
  fold_right insertByName [] l.

(** [os.ReadDir]: the entries of a readable directory, sorted by name. *)
Definition ReadDir (path : string) : M (list DirEntry * option error) :=
  log (Sys (SysReadDir path)) ;;
  f <- getFs ;;
  match Fs.resolve f true path with
  | Fs.Found _ (Dir perm es) =>
      if Fs.canRead f perm then ret (sortByName (map entryOf es), None)
      else ret ([], Some (PathError "open" path (Errno EACCES)))
  | Fs.Found _ _ => ret ([], Some (PathError "readdirent" path (Errno ENOTDIR)))
  | Fs.Missing _ _ => ret ([], Some (PathError "open" path (Errno ENOENT)))
  | Fs.Failed e => ret ([], Some (PathError "open" path (Errno e)))
  end.

(** [os.Open]: a readable file or directory is opened for reading. *)
Definition Open (path : string) : M (option file * option error) :=
  log (Sys (SysOpen path)) ;;
  f <- getFs ;;
  match Fs.resolve f true path with
  | Fs.Found p (File perm _) | Fs.Found p (Dir perm _) =>
      if Fs.canRead f perm then ret (Some (mkFile path p), None)
      else ret (None, Some (PathError "open" path (Errno EACCES)))
  | Fs.Found _ (Symlink _) => ret (None, Some (PathError "open" path (Errno ELOOP)))
  | Fs.Missing _ _ => ret (None, Some (PathError "open" path (Errno ENOENT)))
  | Fs.Failed e => ret (None, Some (PathError "open" path (Errno e)))
  end.

(** [os.OpenFile(path, O_CREATE|O_TRUNC|..., perm)]: an existing file
    has to be writable and is emptied; a missing one is created in a
    writable directory, also through a dangling symbolic link; a
    directory cannot be opened for writing. *)
Definition creat (path : string) (perm : N) : M (option file * option error) :=
  f <- getFs ;;
  match Fs.resolve f true path with
  | Fs.Found p (File fperm _) =>
      if Fs.canWrite f fperm then
        putRoot (Fs.put (Fs.root f) p (File fperm "")) ;; ret (Some (mkFile path p), None)
      else ret (None, Some (PathError "open" path (Errno EACCES)))
  | Fs.Found _ (Dir _ _) => ret (None, Some (PathError "open" path (Errno EISDIR)))
  | Fs.Found _ (Symlink _) => ret (None, Some (PathError "open" path (Errno ELOOP)))
  | Fs.Missing parent name =>
      match Fs.lookup (Fs.root f) parent with
      | Some (Dir pperm _) =>
          if Fs.canWrite f pperm then
            putRoot (Fs.put (Fs.root f) (parent ++ [name])%list (File (Fs.created f perm) "")) ;;
            ret (Some (mkFile path (parent ++ [name])%list), None)
          else ret (None, Some (PathError "open" path (Errno EACCES)))
      | _ => ret (None, Some (PathError "open" path (Errno ENOENT)))
      end
  | Fs.Failed e => ret (None, Some (PathError "open" path (Errno e)))
  end.

(** [os.Create(path)]: created with [0666] before the mask, or emptied. *)
Definition Create (path : string) : M (option file * option error) :=
  log (Sys (SysCreate path)) ;; creat path Fs.p0666.

(** The content of an open file is replaced (a write at offset 0 of a file
    that was just emptied). *)
Definition writeData (f : file) (data : string) : M unit :=
  s <- getFs ;;
  match Fs.lookup (Fs.root s) (filePath f) with
  | Some (File perm _) => putRoot (Fs.put (Fs.root s) (filePath f) (File perm data))
  | _ => ret tt
  end.

(** [os.WriteFile(path, data, perm)]: open with create and truncate, write. *)
Definition WriteFile (path data : string) (perm : N) : M (option error) :=
  log (Sys (SysWriteFile path data perm)) ;;
  '(f, err) <- creat path perm ;;
  match err, f with
  | Some e, _ => ret (Some e)
  | None, Some f => writeData f data ;; ret None
  | None, None => panic "nil File"
  end.

(** [io.Copy(dst, src)]: everything [src] holds now goes to [dst]; reading
    a directory fails. *)
Definition Copy (dst src : file) : M (option error) :=
  log (Sys (SysCopy dst src)) ;;
  s <- getFs ;;
  match Fs.lookup (Fs.root s) (filePath src) with
  | Some (File _ data) => writeData dst data ;; ret None
  | Some (Dir _ _) => ret (Some (PathError "read" (fileName src) (Errno EISDIR)))
  | _ => ret (Some (PathError "read" (fileName src) (Errno EINVAL)))
  end.

(** [f.Sync()] and [f.Close()] succeed. *)
Definition Sync (f : file) : M (option error) := log (Sys (SysSync f)) ;; ret None.
Definition Close (f : file) : M (option error) := log (Sys (SysClose f)) ;; ret None.

(** [os.Chmod]: the owner sets the permission bits of the object the path
    leads to. *)
Definition Chmod (path : string) (perm : N) : M (option error) :=
  log (Sys (SysChmod path perm)) ;;
  f <- getFs ;;
  match Fs.resolve f true path with
  | Fs.Found p (File _ data) =>
      putRoot (Fs.put (Fs.root f) p (File (N.land perm Fs.p0777) data)) ;; ret None
  | Fs.Found p (Dir _ es) =>
      putRoot (Fs.put (Fs.root f) p (Dir (N.land perm Fs.p0777) es)) ;; ret None
  | Fs.Found _ (Symlink _) => ret (Some (PathError "chmod" path (Errno ELOOP)))
  | Fs.Missing _ _ => ret (Some (PathError "chmod" path (Errno ENOENT)))
  | Fs.Failed e => ret (Some (PathError "chmod" path (Errno e)))
  end.

(** [filepath.Abs]: an absolute path is cleaned, a relative one joined
    to the working directory.  (Reading the working directory succeeds.) *)
Definition Abs (path : string) : M (string * option error) :=
  if GoPath.IsAbs path then ret (GoPath.Clean path, None)
  else f <- getFs ;; ret (GoPath.Join (Fs.getwd f) path, None).

End OS.

(* ================================================================= *)
(** ** [internal/pkg/helper/filesystem/filesystem.go] *)

Module filesystem.

Definition nilDereference : string := "invalid memory address or nil pointer dereference".

(** [CopyFile] copies a file from one path to another.

    [err] is the named result.  Each of the two deferred close handlers
    assigns it ([err = f.Close()]), and they run after the [return]
    statement, last registered first: what the function returns is what
    the handler that runs last assigned.  The model writes the handlers
    where they run, and binds the value of [err] at the [return] statement
    to [_], since the handlers overwrite it. *)
Definition CopyFile (sourcePath destinationPath : string) : M (option error) :=
  (* Open the source file *)
  '(sourceFile, err) <- OS.Open sourcePath ;;
  match err, sourceFile with
  | Some e, _ => Logger.Debug "error opening source file: %s" e ;; ret (Some e)
  | None, None => panic nilDereference
  | None, Some sourceFile =>
      _ <- ((* Open the destination file *)
            '(destinationFile, err) <- OS.Create destinationPath ;;
            match err, destinationFile with
            | Some e, _ => Logger.Debug "error opening source file: %s" e ;; ret (Some e)
            | None, None => panic nilDereference
            | None, Some destinationFile =>
                _ <- ((* Copy the file *)
                      err <- OS.Copy destinationFile sourceFile ;;
                      match err with
                      | Some e => Logger.Debug "error copying file: %s" e ;; ret (Some e)
                      | None =>
                      (* Sync the file contents *)
                      err <- OS.Sync destinationFile ;;
                      match err with
                      | Some e => Logger.Debug "error syncing destination file: %s" e ;; ret (Some e)
                      | None =>
                      (* Get the source file info so we can copy the permissions *)
                      '(sourceFileInfo, err) <- OS.Stat sourcePath ;;
                      match err, sourceFileInfo with
                      | Some e, _ => Logger.Debug "error getting source file info: %s" e ;; ret (Some e)
                      | None, None => panic nilDereference
                      | None, Some sourceFileInfo =>
                      (* Set the destination file permissions from the source file mode *)
                      err <- OS.Chmod destinationPath (OS.Mode sourceFileInfo) ;;
                      match err with
                      | Some e =>
                          Logger.Debug "error getting setting destination file permissions: %s" e ;;
                          ret (Some e)
                      | None => ret None
                      end end end end) ;;
                (* deferred close handler of the destination file *)
                err <- OS.Close destinationFile ;;
                match err with
                | Some e => Logger.Debug "error opening source file: %s" e ;; ret (Some e)
                | None => ret None
                end
            end) ;;
      (* deferred close handler of the source file *)
      err <- OS.Close sourceFile ;;
      match err with
      | Some e => Logger.Debug "error opening source file: %s" e ;; ret (Some e)
      | None => ret None
      end
  end.

(** [CopyDir] recursively copies a directory.  The recursion follows the
    directory tree as it is found while copying, so the model takes fuel:
    the depth of recursion it may use. *)
Fixpoint CopyDir (fuel : nat) (sourceDir destinationDir : string) : M (option error) :=
  match fuel with
  | O => outOfFuel
  | S fuel' =>
      (* Clean the directory paths *)
      let sourceDir := GoPath.Clean sourceDir in
      let destinationDir := GoPath.Clean destinationDir in
      (* Get the source directory info to validate that it is a directory *)
      '(sourceDirInfo, err) <- OS.Stat sourceDir ;;
      match err, sourceDirInfo with
      | Some e, _ => Logger.Debug "error getting source directory info: %s" e ;; ret (Some e)
      | None, None => panic nilDereference
      | None, Some sourceDirInfo =>
      (* Throw error if not a directory *)
      if negb (OS.IsDir sourceDirInfo) then
        let err := ErrorString "source is not a directory" in
        Logger.Debug "%s" err ;; ret (Some err)
      else
      (* Make sure the destination directory doesn't already exist *)
      '(_, err) <- OS.Stat destinationDir ;;
      match err with
      | None =>
          (* throw error if it does exist *)
          let err := ErrorString "destination already exists" in
          Logger.Debug "%s" err ;; ret (Some err)
      | Some e =>
      if negb (GoErrors.IsNotExist (Some e)) then
        Logger.Debug "error getting destination file info: %s" e ;; ret (Some e)
      else
      (* Make the destination direction and copy the file permissions *)
      err <- OS.MkdirAll destinationDir (OS.Mode sourceDirInfo) ;;
      match err with
      | Some e => Logger.Debug "error creating destination directory: %s" e ;; ret (Some e)
      | None =>
      (* Read the contents of the source directory *)
      '(sourceEntries, err) <- OS.ReadDir sourceDir ;;
      match err with
      | Some e => Logger.Debug "error reading source directory entries: %s" e ;; ret (Some e)
      | None =>
      (* Iterate over all the directory entries and copy them *)
      (fix copyEntries (entries : list OS.DirEntry) : M (option error) :=
         match entries with
         | [] => ret None
         | sourceEntry :: entries' =>
             (* Build the source and destination paths *)
             let sourcePath := GoPath.Join sourceDir (OS.entryName sourceEntry) in
             let destinationPath := GoPath.Join destinationDir (OS.entryName sourceEntry) in
             (* If a directory, then recurse, else copy all files *)
             if OS.entryIsDir sourceEntry then
               err <- CopyDir fuel' sourcePath destinationPath ;;
               match err with
               | Some e => ret (Some e)
               | None => copyEntries entries'
               end
             else
               (* Skip symlinks. *)
               if OS.entryIsSymlink sourceEntry then copyEntries entries'
               else
                 (* Copy file from source directory to destination directory *)
                 err <- CopyFile sourcePath destinationPath ;;
                 match err with
                 | Some e => ret (Some e)
                 | None => copyEntries entries'
                 end
         end) sourceEntries
      end end end end
  end.

(** [IsDir] returns true if the given path is an existing directory.
    When [os.Stat] fails with an error other than "does not exist", the
    [FileInfo] is nil and [fileInfo.IsDir()] panics. *)
Definition IsDir (path : string) (emptyPathIsValid : bool) : M bool :=
  if path =? "" then ret emptyPathIsValid
  else
    '(pathAbs, err) <- OS.Abs path ;;
    match err with
    | Some _ => ret false
    | None =>
        '(fileInfo, err) <- OS.Stat pathAbs ;;
        if negb (GoErrors.Is err ErrNotExist) then
          match fileInfo with
          | None => panic nilDereference
          | Some fileInfo => if OS.IsDir fileInfo then ret true else ret false
          end
        else ret false
    end.

(** [Exists] returns true if the given path has an [os.Stat]-able
    object: it is false only when [os.Stat] reports "does not exist". *)
Definition Exists (path : string) (emptyPathIsValid : bool) : M bool :=
  if path =? "" then ret emptyPathIsValid
  else
    '(pathAbs, err) <- OS.Abs path ;;
    match err with
    | Some _ => ret true
    | None =>
        '(_, err) <- OS.Stat pathAbs ;;
        if GoErrors.Is err ErrNotExist then ret false else ret true
    end.

(** This [WriteFile] implementation will check to see if the file exists
    before trying to overwrite it. *)
Definition WriteFile (destination content : string) (overwrite : bool) : M (option error) :=
  '(info, err) <- OS.Stat destination ;;
  let pathErr := PathError "writefile" destination in
  match err, overwrite with
  | None, false => ret (Some (pathErr ErrExist))
  | _, _ =>
      if match info with Some info => OS.IsDir info | None => false end then
        ret (Some (pathErr (ErrorString "destination is a directory")))
      else
        err <- OS.WriteFile destination content Fs.p0644 ;;
        match err with
        | Some e => ret (Some e)
        | None => ret None
        end
  end.

(** [CreatePath] creates a nested directory if it does not exist.  The
    behavior can be toggled to emit an error when the directory already
    exists. *)
Definition CreatePath (path : string) (errIfExists : bool) : M (option error) :=
  '(info, err) <- OS.Stat path ;;
  match err, info with
  | None, None => panic nilDereference
  | None, Some info =>
      if OS.IsDir info && errIfExists then
        ret (Some (ErrDirExists "mkdir" path (ErrorString "directory already exists")))
      else OS.MkdirAll path Fs.p0755
  | Some _, _ => OS.MkdirAll path Fs.p0755
  end.

End filesystem.

(* ================================================================= *)
(** ** [internal/cli/render.go] *)

(** [RenderCommand]: the fields the command reads after its flags are
    parsed.  [packConfigPath] is [c.packConfig.Path]; the mutable field
    [c.autoApproved] lives in the [World]. *)
Record RenderCommand : Type := mkCommand {
  packConfigPath : string;
  renderOutputTemplate : bool;
  renderToDir : string
}.

(** [Render]: a rendered template.  The Go struct also holds the pointers
    [c] and [ec]; here the command is an argument and the error context is
    in the [World]. *)
Record Render : Type := mkRender {
  Name : string;
  Content : string
}.

(** What the collaborators outside this file answer during one [Run]:
    [c.Init], [cache.VerifyPackExists], [v1.NewClient], [renderPack] (nil
    or an error each), the two messages [Run] prints when [Init] fails, the
    dependent and the parent renders as name/content pairs in the order in
    which this run's [range] over the map yields them (Go leaves that order
    open), and the result of [packManager.ProcessOutputTemplate]. *)
Record Collaborators : Type := mkCollaborators {
  initResult : option error;
  ErrParsingArgsOrFlags : string;
  helpUsageMessage : string;
  verifyPackExists : option error;
  newClient : option error;
  renderPack : option error;
  DependentRenders : list (string * string);
  ParentRenders : list (string * string);
  ProcessOutputTemplate : string * option error
}.

Definition RenderContextDestFile : string := "Destination File: ".

(** [formatRenderName] trims the low-value elements from the rendered
    template name. *)
Definition formatRenderName (name : string) : string :=
  let outName := GoStrings.Replace1 name "/templates/" "/" in
  let outName := GoStrings.TrimRight outName ".tpl" in
  outName.

Definition confirmPrompt : string := "Output file exists, overwrite? [y/n/a] ".

(** The [for] loop of [maybeConfirmOverwrite].  Every turn consumes one
    entry of the input script and a failed read ends the loop, so one more
    turn than there are entries is fuel enough. *)
Fixpoint confirmLoop (fuel : nat) : M (bool * option error) :=
  match fuel with
  | O => outOfFuel
  | S fuel' =>
      '(overwrite, err) <- UI.Input confirmPrompt WarningBoldStyle ;;
      match err with
      | Some e => ret (false, Some e)
      | None =>
          let overwrite := GoStrings.ToLower overwrite in
          if (overwrite =? "y") || (overwrite =? "n") || (overwrite =? "a") then
            (if overwrite =? "a" then putAutoApproved true else ret tt) ;;
            ret (overwrite =? "y", None)
          else confirmLoop fuel'
      end
  end.

(** [maybeConfirmOverwrite] prompts the user to confirm that they want to
    overwrite.  If the auto-approved flag is set, the function always
    returns true.  If the command is running non-interactively, it will
    return false.  Otherwise, it will loop on invalid input until the user
    chooses [y] or [n]. *)
Definition maybeConfirmOverwrite (path : string) : M (bool * option error) :=
  (* if the flag is set, we don't need to prompt the user *)
  autoApproved_ <- getAutoApproved ;;
  if autoApproved_ then ret (true, None)
  else
    (* there's nothing to ask about if a file doesn't exist at the destination *)
    exists_ <- filesystem.Exists path false ;;
    if negb exists_ then ret (true, None)
    else
      (* if the ui is not interactive, we should return false. *)
      interactive_ <- UI.Interactive ;;
      if negb interactive_ then ret (false, None)
      else
        (* loop until we get a valid response *)
        pending <- pendingInputs ;;
        confirmLoop (S pending).

(** [Render.toTerminal]. *)
Definition toTerminal (r : Render) : M unit :=
  UI.Output (Name r ++ ":") (Some BoldStyle) ;;
  UI.Output "" None ;;
  UI.Output (Content r) None.

(** [Render.toFile]. *)
Definition toFile (c : RenderCommand) (r : Render) : M (option error) :=
  let (filePath, fileName) := GoPath.Split (Name r) in
  let outDir := GoPath.Join (renderToDir c) filePath in
  _ <- filesystem.CreatePath outDir false ;;
  let outFile := GoPath.Join outDir fileName in
  '(overwrite, err) <- maybeConfirmOverwrite outFile ;;
  match err with
  | Some e =>
      (* the caller should check to see if the error is a context.Canceled error
         which signals a keyboard interrupt in the confirmation loop. *)
      ret (Some e)
  | None =>
      if negb overwrite then ret (Some ErrExist)
      else
        autoApproved_ <- getAutoApproved ;;
        err <- filesystem.WriteFile outFile (Content r) (autoApproved_ || overwrite) ;;
        match err with
        | Some e => UIErrorContext.Add RenderContextDestFile outFile ;; ret (Some e)
        | None => ret None
        end
  end.

(** [Render.Output] is the primary method for emitting the rendered
    templates to their destinations.  The second result of the Go method is
    the render's error context, which is the one of the [World]. *)
Definition Output (c : RenderCommand) (r : Render) : M (option error) :=
  returned <- (if negb (renderToDir c =? "") then
                 err <- toFile c r ;;
                 match err with
                 | Some e => if GoErrors.Is (Some e) ErrExist then ret (Some e) else ret None
                 | None => ret None
                 end
               else ret None) ;;
  match returned with
  | Some e => ret (Some e)
  | None => toTerminal r ;; ret None
  end.

(** [Run], lines 81 to 106: the list of renders to output. *)
Definition assembleRenders (c : RenderCommand) (x : Collaborators) : M (list Render) :=
  let renders := [] in
  let renders :=
    (renders ++ map (fun '(name, renderedFile) => mkRender (formatRenderName name) renderedFile)
                    (DependentRenders x))%list in
  let renders :=
    (renders ++ map (fun '(name, renderedFile) => mkRender (formatRenderName name) renderedFile)
                    (ParentRenders x))%list in
  (* If the user wants to render and display the outputs template file then
     render this. In the event the render returns an error, print this but do
     not exit. *)
  if renderOutputTemplate c then
    match ProcessOutputTemplate x with
    | (_, Some err) =>
        ctx <- UIErrorContext.GetAll ;;
        UI.ErrorWithContext err "failed to render output template" ctx ;;
        ret renders
    | (outputRender, None) => ret (renders ++ [mkRender "outputs.tpl" outputRender])%list
    end
  else ret renders.

(** [Run], lines 108 to 114: output the renders.  Output the files first
    if enabled so that any renders that display will also have been written
    to disk. *)
Fixpoint outputRenders (c : RenderCommand) (renders : list Render) : M unit :=
  match renders with
  | [] => ret tt
  | render :: renders' =>
      err <- Output c render ;;
      match err with
      | Some e =>
          ctx <- UIErrorContext.GetAll ;;
          UI.ErrorWithContext e "error rendering to file" ctx
      | None => ret tt
      end ;;
      outputRenders c renders'
  end.

(** [Run] satisfies the Run function of the cli.Command interface; the
    result is the exit code. *)
Definition Run (c : RenderCommand) (x : Collaborators) : M Z :=
  match initResult x with
  | Some err =>
      UI.ErrorWithContext err (ErrParsingArgsOrFlags x) [] ;;
      UI.Info (helpUsageMessage x) ;;
      ret 1%Z
  | None =>
  match verifyPackExists x with
  | Some _ => ret 1%Z
  | None =>
  match newClient x with
  | Some err =>
      ctx <- UIErrorContext.GetAll ;;
      UI.ErrorWithContext err "failed to initialize client" ctx ;;
      ret 1%Z
  | None =>
  (* fast failure start around aiming to-dir at a file rather than a directory *)
  exists_ <- filesystem.Exists (packConfigPath c) true ;;
  notDir <- (if exists_ then
               isDir <- filesystem.IsDir (packConfigPath c) true ;; ret (negb isDir)
             else ret false) ;;
  if notDir then
    let err := ErrorString "output path exists and is not a directory" in
    ctx <- UIErrorContext.GetAll ;;
    UI.ErrorWithContext err "failed to create output directory" ctx ;;
    ret 1%Z
  else
  match renderPack x with
  | Some _ => ret 1%Z
  | None =>
  (* The render command should at least render one parent, or one dependant
     pack template. *)
  if ((Z.of_nat (length (ParentRenders x)) <? 1) && (Z.of_nat (length (DependentRenders x)) <? 1))%Z then
    ctx <- UIErrorContext.GetAll ;;
    UI.ErrorWithContext ErrNoTemplatesRendered "no templates rendered" ctx ;;
    ret 1%Z
  else
    renders <- assembleRenders c x ;;
    outputRenders c renders ;;
    ret 0%Z
  end end end end.

(* ================================================================= *)
(** ** Vocabulary of the statements *)

(** What [toTerminal] puts on the display for a render. *)
Definition terminalEvents (r : Render) : list event :=
  [UiOutput (Name r ++ ":") (Some BoldStyle); UiOutput "" None; UiOutput (Content r) None].

Definition appendTrace (evs : list event) (w : World) : World :=
  mkWorld (fs w) (autoApproved w) (interactive w) (inputs w) (errorContext w)
          (trace w ++ evs)%list.

Definition isUiOutput (e : event) : bool :=
  match e with UiOutput _ _ => true | _ => false end.

Definition isUiInput (e : event) : bool :=
  match e with UiInput _ _ => true | _ => false end.

Definition isSys (e : event) : bool :=
  match e with Sys _ => true | _ => false end.

(** A call of [os.WriteFile]. *)
Definition isFileWrite (e : event) : bool :=
  match e with Sys (SysWriteFile _ _ _) => true | _ => false end.

(** The error is a [*fs.PathError]: what a failed stat, open or write of
    the file step returns. *)
Definition isPathError (e : error) : bool :=
  match e with PathError _ _ _ => true | _ => false end.

(** The names of a list of renders are in lexicographic order. *)
Fixpoint sortedByName (l : list Render) : bool :=
  match l with
  | [] => true
  | r :: l' =>
      match l' with
      | [] => true
      | r' :: _ => (Name r <=? Name r')%string && sortedByName l'
      end
  end.

(** Modelled from the spec: the declaration of the session flag
    ([baseCommand.autoApproved]) and the code that starts an invocation are
    not part of the sources.  The spec has the flag "initialized false at
    invocation start"; this is the world an invocation starts in, with
    nothing on the trace yet. *)
Definition invocationStart (f : Fs.t) (interactive_ : bool) (inputs_ : list (string + error)) : World :=
  mkWorld f false interactive_ inputs_ [] [].

(** [m] ends with a result in every world: no panic, and the fuel of the
    loops inside suffices. *)
Definition total {A : Type} (m : M A) : Prop :=
  forall w, exists a w', m w = (Ok a, w').

(** [m] ends with a result in every world, and the result satisfies [Q]. *)
Definition returns {A : Type} (Q : A -> Prop) (m : M A) : Prop :=
  forall w, exists a w', m w = (Ok a, w') /\ Q a.

(** A successful [stat] comes with a [FileInfo]. *)
Definition infoWhenNil (r : option OS.FileInfo * option error) : Prop :=
  snd r = None -> fst r <> None.

(** Opening for writing gives a file or an error. *)
Definition fileWhenNil (r : option file * option error) : Prop :=
  snd r = None -> fst r <> None.

(** Every run of [m] relates the world before to the world after by [R]. *)
Definition preserves {A : Type} (R : World -> World -> Prop) (m : M A) : Prop :=
  forall w r w', m w = (r, w') -> R w w'.

(** [w'] is [w] after operating-system calls and debug lines only: the
    session flag, the user interface and the error context are as before,
    and nothing else was added to the trace.  (The filesystem may differ.) *)
Definition systemOnly (w w' : World) : Prop :=
  autoApproved w' = autoApproved w /\
  interactive w' = interactive w /\
  inputs w' = inputs w /\
  errorContext w' = errorContext w /\
  exists evs, trace w' = (trace w ++ evs)%list /\
              forallb (fun e => match e with Sys _ | LogDebug _ _ => true | _ => false end) evs = true.

(** [w'] is [w] after steps that showed nothing on the display: the trace
    grew by events none of which is a [ui.Output]. *)
Definition nothingShown (w w' : World) : Prop :=
  exists evs, trace w' = (trace w ++ evs)%list /\ forallb (fun e => negb (isUiOutput e)) evs = true.

(** With the session flag set in [w], it is still set in [w'], no input
    was consumed and no prompt was shown in between. *)
Definition noPrompt (w w' : World) : Prop :=
  autoApproved w = true ->
  autoApproved w' = true /\
  inputs w' = inputs w /\
  exists evs, trace w' = (trace w ++ evs)%list /\ forallb (fun e => negb (isUiInput e)) evs = true.

(* ================================================================= *)
(** ** Vocabulary of the further statements *)

(** The absolute path [filepath.Abs] computes on the filesystem [f]. *)
Definition absOf (f : Fs.t) (path : string) : string :=
  if GoPath.IsAbs path then GoPath.Clean path else GoPath.Join (Fs.getwd f) path.

(** What [os.Stat] of the absolute path makes [Exists] answer: false only
    when the object or a directory on the way is missing. *)
Definition existsAnswer (r : Fs.resolved) : bool :=
  match r with
  | Fs.Found _ _ => true
  | Fs.Missing _ _ => false
  | Fs.Failed ENOENT => false
  | Fs.Failed _ => true
  end.

(** What [os.Stat] of the absolute path makes [IsDir] do: answer, or panic
    on the nil [FileInfo] of a stat that failed for another reason than a
    missing object. *)
Definition isDirAnswer (r : Fs.resolved) : outcome bool :=
  match r with
  | Fs.Found _ (Dir _ _) => Ok true
  | Fs.Found _ _ => Ok false
  | Fs.Missing _ _ => Ok false
  | Fs.Failed ENOENT => Ok false
  | Fs.Failed _ => Panic filesystem.nilDereference
  end.

(** An input line the confirmation prompt accepts. *)
Definition validAnswer (line : string) : bool :=
  let l := GoStrings.ToLower line in (l =? "y") || (l =? "n") || (l =? "a").

(** [n] confirmation prompts in a row. *)
Definition prompts (n : nat) : list event :=
  repeat (UiInput confirmPrompt WarningBoldStyle) n.

(** In a session that is not interactive: it stays so, the session flag
    and the input are as before, and no prompt was shown in between. *)
Definition unattended (w w' : World) : Prop :=
  interactive w = false ->
  interactive w' = false /\
  autoApproved w' = autoApproved w /\
  inputs w' = inputs w /\
  exists evs, trace w' = (trace w ++ evs)%list /\ forallb (fun e => negb (isUiInput e)) evs = true.

(** [w'] is [w] after a run without effect: the filesystem, the session
    flag and the input are as before, nothing was displayed as a render,
    no prompt was shown, no file was written. *)
Definition withoutEffect (w w' : World) : Prop :=
  fs w' = fs w /\
  autoApproved w' = autoApproved w /\
  inputs w' = inputs w /\
  exists evs, trace w' = (trace w ++ evs)%list /\
              forallb (fun e => negb (isUiOutput e) && negb (isUiInput e) && negb (isFileWrite e)) evs = true.

(** The pack path passes the check at the start of [Run]: it is empty, or
    [os.Stat] of its absolute path finds a directory, or finds nothing. *)
Definition packPathPasses (c : RenderCommand) (f : Fs.t) : bool :=
  (packConfigPath c =? "") ||
  match Fs.resolve f true (absOf f (packConfigPath c)) with
  | Fs.Found _ (Dir _ _) => true
  | Fs.Found _ _ => false
  | Fs.Missing _ _ => true
  | Fs.Failed ENOENT => true
  | Fs.Failed _ => false
  end.

(** The collaborators of [Run] all succeed: [c.Init],
    [cache.VerifyPackExists], [v1.NewClient] and [renderPack] return nil. *)
Definition collaboratorsSucceed (x : Collaborators) : Prop :=
  initResult x = None /\ verifyPackExists x = None /\ newClient x = None /\ renderPack x = None.

(** The object, if any, is a directory. *)
Definition isDirNode (n : option node) : Prop := exists perm es, n = Some (Dir perm es).

(** Every file and link of the tree [r] is in the tree [r'], unchanged. *)
Definition keepsLeaves (r r' : node) : Prop :=
  forall (q : list string) (n : node),
    Fs.lookup r q = Some n -> ~ isDirNode (Some n) -> Fs.lookup r' q = Some n.

(** Every file and link of the tree [r] other than the one at [p] is in the
    tree [r'], unchanged. *)
Definition keepsLeavesBut (p : list string) (r r' : node) : Prop :=
  forall (q : list string) (n : node),
    q <> p -> Fs.lookup r q = Some n -> ~ isDirNode (Some n) -> Fs.lookup r' q = Some n.

(** The tree [r'] extends the tree [r]: every object of [r] is still there
    in [r'], a directory as a directory with the same permission bits, a
    file as a file, a link as the same link.  (Entries may have been added
    and files rewritten.) *)
Definition extends (r r' : node) : Prop :=
  forall (q : list string) (n : node),
    Fs.lookup r q = Some n ->
    match n with
    | Dir perm _ => exists es', Fs.lookup r' q = Some (Dir perm es')
    | File _ _ => exists perm' d', Fs.lookup r' q = Some (File perm' d')
    | Symlink target => Fs.lookup r' q = Some (Symlink target)
    end.

(** What resolution gives in a tree [r'] that extends the tree it gave
    [before] in: the same place for an object found, and the new object
    for one that was missing and is there now. *)
Definition stableResult (r' : node) (before after : Fs.resolved) : Prop :=
  match before with
  | Fs.Found p n => exists n', after = Fs.Found p n' /\ Fs.lookup r' p = Some n'
  | Fs.Missing parent name =>
      match Fs.lookup r' (parent ++ [name])%list with
      | None => after = Fs.Missing parent name
      | Some (Symlink _) => True
      | Some x => after = Fs.Found (parent ++ [name])%list x
      end
  | Fs.Failed _ => True
  end.

(** Following a last link or not makes no difference unless the path
    ends in a link. *)
Definition followResult (nofollow withfollow : Fs.resolved) : Prop :=
  match nofollow with
  | Fs.Found _ (Symlink _) => True
  | _ => withfollow = nofollow
  end.

(** The filesystem of [w'] is the one of [w] grown: its tree extends the
    tree of [w], and the working directory, the mask and the privilege of
    the process are the same. *)
Definition grows (w w' : World) : Prop :=
  extends (Fs.root (fs w)) (Fs.root (fs w')) /\
  fs w' = Fs.setRoot (Fs.root (fs w')) (fs w).

(** The filesystem of [w'] is the one of [w] with entries added only: it
    has grown, and every file and link is unchanged. *)
Definition onlyAdds (w w' : World) : Prop :=
  grows w w' /\ keepsLeaves (Fs.root (fs w)) (Fs.root (fs w')).

(** [os.Stat(path)] finds a regular file with the given content in [w]. *)
Definition holdsFile (w : World) (path content : string) : Prop :=
  exists (p : list string) (perm : N),
    Fs.resolve (fs w) true path = Fs.Found p (File perm content).

(** The path [toFile] writes the render to. *)
Definition outFileOf (c : RenderCommand) (r : Render) : string :=
  GoPath.Join (GoPath.Join (renderToDir c) (fst (GoPath.Split (Name r))))
              (snd (GoPath.Split (Name r))).

(** [R] relates the world [w] to the one the program [m] leaves when it
    is started in [w]. *)
Definition preservesAt {A : Type} (R : World -> World -> Prop) (m : M A) (w : World) : Prop :=
  forall r w', m w = (r, w') -> R w w'.

(** [os.Stat(path)] finds a regular file in [w]. *)
Definition fileAt (w : World) (path : string) : Prop :=
  exists (p : list string) (perm : N) (d : string),
    Fs.resolve (fs w) true path = Fs.Found p (File perm d).

(** [os.Stat(path)] finds a directory in [w]. *)
Definition dirAt (w : World) (path : string) : Prop :=
  exists (p : list string) (perm : N) (es : list (string * node)),
    Fs.resolve (fs w) true path = Fs.Found p (Dir perm es).

(* ================================================================= *)
(** ** Example worlds

    A small tree: [/out/job.nomad] is an existing rendered file, [/f] is a
    regular file, [/packs/example] is a pack directory, [/ro] is a
    directory without write permission ([0555]) that holds one regular
    file and one symbolic link. *)

Module Examples.

Definition tree : node :=
  Dir Fs.p0755
    [("out", Dir Fs.p0755 [("job.nomad", File Fs.p0644 "old")]);
     ("f", File Fs.p0644 "x");
     ("packs", Dir Fs.p0755 [("example", Dir Fs.p0755 [])]);
     ("ro", Dir 365 [("a", File Fs.p0644 "A"); ("l", Symlink "/f")])].

(** An unprivileged process in [/], mask [022]. *)
Definition disk : Fs.t := Fs.mk tree [] 18 false.

Definition world (interactive_ : bool) (inputs_ : list (string + error)) : World :=
  mkWorld disk false interactive_ inputs_ [] [].

Definition job : Render := mkRender "job.nomad" "new".
Definition other : Render := mkRender "sub/other.nomad" "more".

(** [render example --to-dir /out]. *)
Definition toOut : RenderCommand := mkCommand "/packs/example" false "/out".
(** [render example], terminal only. *)
Definition terminalOnly : RenderCommand := mkCommand "/packs/example" false "".
(** [render example --to-dir /f]: the destination is a regular file. *)
Definition toFileF : RenderCommand := mkCommand "/packs/example" false "/f".

(** Collaborators that succeed and render the given templates. *)
Definition rendering (dependent parent : list (string * string)) : Collaborators :=
  mkCollaborators None "error parsing args or flags" "usage" None None None
                  dependent parent ("", None).

(** The pack renders [job.nomad] and [sub/other.nomad]. *)
Definition two : Collaborators :=
  rendering [] [("job.nomad.tpl", "new"); ("sub/other.nomad.tpl", "more")].

(** The [range] over the dependent renders yields [b] before [a]. *)
Definition unsorted : Collaborators :=
  rendering [("dep/templates/b.nomad.tpl", "B"); ("dep/templates/a.nomad.tpl", "A")]
            [("example/templates/job.nomad.tpl", "J")].

End Examples.

(* END OF DEFINITIONS *)

(* ================================================================= *)
(** * Theorems *)

(** ** Byte strings *)

Lemma append_nil_r (s : string) : s ++ "" = s.
Proof. induction s as [|c s IH]; simpl; [reflexivity | now rewrite IH]. Qed.

Lemma append_assoc (a b c : string) : (a ++ b) ++ c = a ++ (b ++ c).
Proof. induction a as [|x a IH]; simpl; [reflexivity | now rewrite IH]. Qed.

Lemma length_append (a b : string) :
  String.length (a ++ b) = String.length a + String.length b.
Proof. induction a as [|x a IH]; simpl; [reflexivity | now rewrite IH]. Qed.

Module GoStringsFacts.
Import GoStrings.

Lemma HasPrefix_iff (s p : string) :
  HasPrefix s p = true <-> exists post, s = p ++ post.
Proof.
  revert s; induction p as [|c p IH]; intros s; simpl.
  - split; [intros _; now exists s | reflexivity].
  - destruct s as [|d s].
    + split; [discriminate | intros [post H]; discriminate].
    + rewrite andb_true_iff, Ascii.eqb_eq, IH. split.
      * intros [-> [post ->]]. now exists post.
      * intros [post H]. injection H as -> ->. split; [reflexivity | now exists post].
Qed.

Lemma drop_append (p s : string) : drop (String.length p) (p ++ s) = s.
Proof. induction p as [|c p IH]; simpl; [now destruct s | exact IH]. Qed.

(** What [strings.Replace(s, old, new, 1)] returns. *)
Lemma Replace1_spec (old new s : string) :
  (NoOcc old s /\ Replace1 s old new = s) \/
  (exists pre post, FirstOcc old s pre post /\ Replace1 s old new = pre ++ new ++ post).
Proof.
  induction s as [|c s IH].
  - simpl. destruct (HasPrefix "" old) eqn:E.
    + right. apply HasPrefix_iff in E. destruct E as [post E].
      exists "", post. split.
      * split; [exact E | intros; simpl; lia].
      * simpl. destruct old; [simpl in E; subst; reflexivity | discriminate].
    + left. split; [|reflexivity]. intros pre post H. unfold OccursAt in H.
      destruct pre; [|discriminate]. simpl in H.
      assert (HasPrefix "" old = true) by (apply HasPrefix_iff; now exists post).
      congruence.
  - cbn [Replace1]. destruct (HasPrefix (String c s) old) eqn:E.
    + right. apply HasPrefix_iff in E. destruct E as [post E].
      exists "", post. split.
      * split; [exact E | intros; simpl; lia].
      * rewrite E, drop_append. reflexivity.
    + destruct IH as [[Hno Heq] | (pre & post & [Hocc Hfirst] & Heq)].
      * left. split; [|now rewrite Heq]. intros pre post H. unfold OccursAt in H.
        destruct pre as [|d pre].
        -- simpl in H. assert (HasPrefix (String c s) old = true)
             by (apply HasPrefix_iff; now exists post). congruence.
        -- simpl in H. injection H as _ H. exact (Hno pre post H).
      * right. exists (String c pre), post. split.
        -- split.
           ++ unfold OccursAt in *. simpl. now rewrite Hocc.
           ++ intros pre' post' H. unfold OccursAt in H. destruct pre' as [|d pre'].
              ** simpl in H. assert (HasPrefix (String c s) old = true)
                   by (apply HasPrefix_iff; now exists post'). congruence.
              ** simpl in H. injection H as _ H. specialize (Hfirst pre' post' H).
                 simpl. lia.
        -- simpl. now rewrite Heq.
Qed.

Lemma TrimRight_split (cutset s : string) :
  exists suffix,
    s = TrimRight s cutset ++ suffix /\
    allBytes (fun c => inCutset c cutset) suffix = true.
Proof.
  induction s as [|c s (suffix & Hs & Hall)].
  - now exists "".
  - simpl. destruct (TrimRight s cutset) as [|d r] eqn:E.
    + simpl in Hs. subst suffix. destruct (inCutset c cutset) eqn:Ec.
      * exists (String c s). simpl. now rewrite Ec, Hall.
      * exists s. now split.
    + exists suffix. split; [|exact Hall]. simpl in *. now rewrite <- Hs.
Qed.

Lemma TrimRight_last (cutset s : string) (c : ascii) :
  lastByte (TrimRight s cutset) = Some c -> inCutset c cutset = false.
Proof.
  induction s as [|x s IH]; simpl; [discriminate|].
  destruct (TrimRight s cutset) as [|d r] eqn:E.
  - destruct (inCutset x cutset) eqn:Ex; simpl; [discriminate|].
    intros H; injection H as <-; exact Ex.
  - intros H. apply IH. exact H.
Qed.

End GoStringsFacts.

(* ================================================================= *)
(** ** The monad: results and frames *)

Lemma bind_Ok {A B : Type} (m : M A) (k : A -> M B) (w w1 : World) (a : A) :
  m w = (Ok a, w1) -> bind m k w = k a w1.
Proof. intros H. unfold bind. now rewrite H. Qed.

Lemma total_ret {A : Type} (a : A) : total (ret a).
Proof. intros w. now exists a, w. Qed.

Lemma total_bind {A B : Type} (m : M A) (k : A -> M B) :
  total m -> (forall a, total (k a)) -> total (bind m k).
Proof.
  intros Hm Hk w. destruct (Hm w) as (a & w1 & E).
  rewrite (bind_Ok _ _ _ _ _ E). apply Hk.
Qed.

Section Preservation.

Variable R : World -> World -> Prop.
Hypothesis R_refl : forall w, R w w.
Hypothesis R_trans : forall a b c, R a b -> R b c -> R a c.

Lemma preserves_ret {A : Type} (a : A) : preserves R (ret a).
Proof using R_refl. intros w r w' H. injection H as _ <-. apply R_refl. Qed.

Lemma preserves_panic {A : Type} (msg : string) : preserves R (@panic A msg).
Proof using R_refl. intros w r w' H. injection H as _ <-. apply R_refl. Qed.

Lemma preserves_outOfFuel {A : Type} : preserves R (@outOfFuel A).
Proof using R_refl. intros w r w' H. injection H as _ <-. apply R_refl. Qed.

Lemma preserves_getFs : preserves R getFs.
Proof using R_refl. intros w r w' H. injection H as _ <-. apply R_refl. Qed.

Lemma preserves_Interactive : preserves R UI.Interactive.
Proof using R_refl. intros w r w' H. injection H as _ <-. apply R_refl. Qed.

Lemma preserves_GetAll : preserves R UIErrorContext.GetAll.
Proof using R_refl. intros w r w' H. injection H as _ <-. apply R_refl. Qed.

Lemma preserves_bind {A B : Type} (m : M A) (k : A -> M B) :
  preserves R m -> (forall a, preserves R (k a)) -> preserves R (bind m k).
Proof using R_refl R_trans.
  intros Hm Hk w r w' H. unfold bind in H.
  destruct (m w) as [[a | msg |] w1] eqn:E.
  - eapply R_trans; [eapply Hm; exact E | eapply Hk; exact H].
  - injection H as _ <-. eapply Hm; exact E.
  - injection H as _ <-. eapply Hm; exact E.
Qed.

End Preservation.

(** One step of a frame proof: the shape of the program decides. *)
Ltac frame_step refl trans base :=
  lazymatch goal with
  | |- preserves _ (bind _ _) => apply (preserves_bind _ refl trans); [ | intros ? ]
  | |- preserves _ (ret _) => apply (preserves_ret _ refl)
  | |- preserves _ (panic _) => apply (preserves_panic _ refl)
  | |- preserves _ outOfFuel => apply (preserves_outOfFuel _ refl)
  | |- preserves _ getFs => apply (preserves_getFs _ refl)
  | |- preserves _ UI.Interactive => apply (preserves_Interactive _ refl)
  | |- preserves _ UIErrorContext.GetAll => apply (preserves_GetAll _ refl)
  | |- preserves _ (match ?x with _ => _ end) => destruct x
  | |- preserves _ (let _ := _ in _) => cbv zeta
  | |- _ => solve [ base ]
  end.

Ltac frame refl trans base := repeat frame_step refl trans base.

(** *** Operating-system calls leave the session alone *)

Lemma systemOnly_refl (w : World) : systemOnly w w.
Proof.
  repeat split. exists []. split; [now rewrite app_nil_r | reflexivity].
Qed.

Lemma systemOnly_trans (a b c : World) : systemOnly a b -> systemOnly b c -> systemOnly a c.
Proof.
  intros (Ha & Hi & Hin & He & evs1 & Ht1 & Hf1) (Ha' & Hi' & Hin' & He' & evs2 & Ht2 & Hf2).
  repeat split; try congruence.
  exists (evs1 ++ evs2)%list. split.
  - now rewrite Ht2, Ht1, app_assoc.
  - now rewrite forallb_app, Hf1, Hf2.
Qed.

Lemma systemOnly_log_Sys (c : syscall) : preserves systemOnly (log (Sys c)).
Proof.
  intros w r w' H. injection H as _ <-. repeat split. now exists [Sys c].
Qed.

Lemma systemOnly_Debug (format : string) (e : error) : preserves systemOnly (Logger.Debug format e).
Proof.
  intros w r w' H. injection H as _ <-. repeat split. now exists [LogDebug format e].
Qed.

Lemma systemOnly_putRoot (r : node) : preserves systemOnly (putRoot r).
Proof.
  intros w x w' H. injection H as _ <-. repeat split. exists []. cbn. now rewrite app_nil_r.
Qed.

Create HintDb sysframe.
#[local] Hint Resolve systemOnly_log_Sys systemOnly_Debug systemOnly_putRoot : sysframe.

Ltac sysframe := frame systemOnly_refl systemOnly_trans ltac:(eauto with sysframe).

Lemma systemOnly_statWith (op : string) (follow : bool) (path : string) :
  preserves systemOnly (OS.statWith op follow path).
Proof. unfold OS.statWith. sysframe. Qed.

Lemma systemOnly_Stat (path : string) : preserves systemOnly (OS.Stat path).
Proof. unfold OS.Stat. pose proof systemOnly_statWith. sysframe. Qed.

Lemma systemOnly_Lstat (path : string) : preserves systemOnly (OS.Lstat path).
Proof. unfold OS.Lstat. pose proof systemOnly_statWith. sysframe. Qed.

Lemma systemOnly_Mkdir (path : string) (perm : N) : preserves systemOnly (OS.Mkdir path perm).
Proof. unfold OS.Mkdir. sysframe. Qed.

#[local] Hint Resolve systemOnly_Stat systemOnly_Lstat systemOnly_Mkdir : sysframe.

Lemma systemOnly_MkdirAllRec (fuel : nat) (path : string) (perm : N) :
  preserves systemOnly (OS.MkdirAllRec fuel path perm).
Proof.
  revert path; induction fuel as [|fuel IH]; intros path; cbn [OS.MkdirAllRec]; sysframe.
Qed.

Lemma systemOnly_MkdirAll (path : string) (perm : N) : preserves systemOnly (OS.MkdirAll path perm).
Proof. apply systemOnly_MkdirAllRec. Qed.

Lemma systemOnly_creat (path : string) (perm : N) : preserves systemOnly (OS.creat path perm).
Proof. unfold OS.creat. sysframe. Qed.

Lemma systemOnly_writeData (f : file) (data : string) : preserves systemOnly (OS.writeData f data).
Proof. unfold OS.writeData. sysframe. Qed.

#[local] Hint Resolve systemOnly_MkdirAll systemOnly_creat systemOnly_writeData : sysframe.

Lemma systemOnly_os_WriteFile (path data : string) (perm : N) :
  preserves systemOnly (OS.WriteFile path data perm).
Proof. unfold OS.WriteFile. sysframe. Qed.

Lemma systemOnly_Abs (path : string) : preserves systemOnly (OS.Abs path).
Proof. unfold OS.Abs. sysframe. Qed.

#[local] Hint Resolve systemOnly_os_WriteFile systemOnly_Abs : sysframe.

Lemma systemOnly_Exists (path : string) (emptyPathIsValid : bool) :
  preserves systemOnly (filesystem.Exists path emptyPathIsValid).
Proof. unfold filesystem.Exists. sysframe. Qed.

Lemma systemOnly_IsDir (path : string) (emptyPathIsValid : bool) :
  preserves systemOnly (filesystem.IsDir path emptyPathIsValid).
Proof. unfold filesystem.IsDir. sysframe. Qed.

Lemma systemOnly_WriteFile (destination content : string) (overwrite : bool) :
  preserves systemOnly (filesystem.WriteFile destination content overwrite).
Proof. unfold filesystem.WriteFile. sysframe. Qed.

Lemma systemOnly_CreatePath (path : string) (errIfExists : bool) :
  preserves systemOnly (filesystem.CreatePath path errIfExists).
Proof. unfold filesystem.CreatePath. sysframe. Qed.

#[local] Hint Resolve systemOnly_Exists systemOnly_IsDir systemOnly_WriteFile systemOnly_CreatePath : sysframe.

(** *** Calls that always return *)

Lemma returns_total {A : Type} (Q : A -> Prop) (m : M A) : returns Q m -> total m.
Proof. intros H w. destruct (H w) as (a & w' & E & _). now exists a, w'. Qed.

Lemma total_returns {A : Type} (m : M A) : total m -> returns (fun _ => True) m.
Proof. intros H w. destruct (H w) as (a & w' & E). now exists a, w'. Qed.

Lemma returns_ret {A : Type} (Q : A -> Prop) (a : A) : Q a -> returns Q (ret a).
Proof. intros H w. now exists a, w. Qed.

Lemma returns_bind {A B : Type} (P : A -> Prop) (Q : B -> Prop) (m : M A) (k : A -> M B) :
  returns P m -> (forall a, P a -> returns Q (k a)) -> returns Q (bind m k).
Proof.
  intros Hm Hk w. destruct (Hm w) as (a & w1 & E & Ha).
  rewrite (bind_Ok _ _ _ _ _ E). now apply Hk.
Qed.

Lemma total_bind_returns {A B : Type} (P : A -> Prop) (m : M A) (k : A -> M B) :
  returns P m -> (forall a, P a -> total (k a)) -> total (bind m k).
Proof.
  intros Hm Hk w. destruct (Hm w) as (a & w1 & E & Ha).
  rewrite (bind_Ok _ _ _ _ _ E). now apply Hk.
Qed.

Lemma total_log (e : event) : total (log e).
Proof. intros w. now eexists _, _. Qed.

Lemma total_getFs : total getFs.
Proof. intros w. now eexists _, _. Qed.

Lemma total_putRoot (r : node) : total (putRoot r).
Proof. intros w. now eexists _, _. Qed.

Create HintDb totality.
#[local] Hint Resolve total_log total_getFs total_putRoot : totality.

Ltac total_step :=
  lazymatch goal with
  | |- total (bind _ _) => apply total_bind; [ | intros ? ]
  | |- total (ret _) => apply total_ret
  | |- total (match ?x with _ => _ end) => destruct x
  | |- total (let _ := _ in _) => cbv zeta
  | |- _ => solve [ eauto with totality ]
  end.

Ltac totality := repeat total_step.

Lemma statOf_info (op : string) (follow : bool) (path : string) (f : Fs.t) :
  infoWhenNil (OS.statOf op follow path f).
Proof. unfold OS.statOf, infoWhenNil. destruct (Fs.resolve f follow path); cbn; congruence. Qed.

Lemma Stat_eq (path : string) (w : World) :
  OS.Stat path w = (Ok (OS.statOf "stat" true path (fs w)), addTrace (Sys (SysStat path)) w).
Proof. reflexivity. Qed.

Lemma Lstat_eq (path : string) (w : World) :
  OS.Lstat path w = (Ok (OS.statOf "lstat" false path (fs w)), addTrace (Sys (SysLstat path)) w).
Proof. reflexivity. Qed.

Lemma returns_Stat (path : string) : returns infoWhenNil (OS.Stat path).
Proof. intros w. rewrite Stat_eq. eexists _, _. split; [reflexivity | apply statOf_info]. Qed.

Lemma total_Stat (path : string) : total (OS.Stat path).
Proof. exact (returns_total _ _ (returns_Stat path)). Qed.

Lemma total_Lstat (path : string) : total (OS.Lstat path).
Proof. intros w. rewrite Lstat_eq. now eexists _, _. Qed.

Lemma total_Mkdir (path : string) (perm : N) : total (OS.Mkdir path perm).
Proof. unfold OS.Mkdir. totality. Qed.

#[local] Hint Resolve total_Stat total_Lstat total_Mkdir : totality.

Lemma length_dropWhile (f : ascii -> bool) (l : list ascii) :
  length (OS.dropWhile f l) <= length l.
Proof. induction l as [|c l IH]; cbn; [lia | destruct (f c); cbn; lia]. Qed.

Lemma length_string_of_list_ascii (l : list ascii) :
  String.length (string_of_list_ascii l) = length l.
Proof. induction l as [|c l IH]; cbn; [reflexivity | now rewrite IH]. Qed.

Lemma length_list_ascii_of_string (s : string) :
  length (list_ascii_of_string s) = String.length s.
Proof. induction s as [|c s IH]; cbn; [reflexivity | now rewrite IH]. Qed.

(** The parent [os.MkdirAll] recurses on is strictly shorter than the path. *)
Lemma parentOf_shorter (path parent : string) :
  OS.parentOf path = Some parent -> String.length parent < String.length path.
Proof.
  unfold OS.parentOf.
  pose proof (length_dropWhile GoPath.isSlash (rev (list_ascii_of_string path))) as H1.
  pose proof (length_dropWhile (fun c => negb (GoPath.isSlash c))
                (OS.dropWhile GoPath.isSlash (rev (list_ascii_of_string path)))) as H2.
  destruct (OS.dropWhile _ (OS.dropWhile _ _)) as [|c [|d l]]; try discriminate.
  intros H. injection H as <-.
  rewrite length_string_of_list_ascii, length_app, length_rev.
  rewrite length_rev, length_list_ascii_of_string in H1. cbn [length] in *. lia.
Qed.

(** [os.MkdirAll] returns: the length of the path is fuel enough. *)
Lemma total_MkdirAllRec (fuel : nat) (path : string) (perm : N) :
  String.length path < fuel -> total (OS.MkdirAllRec fuel path perm).
Proof.
  revert path; induction fuel as [|fuel IH]; intros path Hlen; [lia|].
  cbn [OS.MkdirAllRec].
  apply (total_bind_returns _ _ _ (returns_Stat path)).
  intros [dir err] Hinfo. unfold infoWhenNil in Hinfo; cbn in Hinfo.
  destruct err as [e|].
  - apply total_bind.
    + destruct (OS.parentOf path) as [parent|] eqn:Ep; [|apply total_ret].
      apply IH. apply parentOf_shorter in Ep. lia.
    + intros ?. totality.
  - destruct dir as [dir|]; [totality | now contradiction Hinfo].
Qed.

Lemma total_MkdirAll (path : string) (perm : N) : total (OS.MkdirAll path perm).
Proof. apply total_MkdirAllRec. lia. Qed.

Lemma returns_creat (path : string) (perm : N) : returns fileWhenNil (OS.creat path perm).
Proof.
  intros w. unfold OS.creat, bind, getFs, fileWhenNil.
  destruct (Fs.resolve (fs w) true path) as [p [fperm d | dperm es | t] | parent name | e]; cbn.
  - destruct (Fs.canWrite (fs w) fperm); cbn; eexists _, _; (split; [reflexivity | cbn; congruence]).
  - eexists _, _; (split; [reflexivity | cbn; congruence]).
  - eexists _, _; (split; [reflexivity | cbn; congruence]).
  - destruct (Fs.lookup (Fs.root (fs w)) parent) as [[? ? | pperm ? | ?] |]; cbn;
      try (eexists _, _; (split; [reflexivity | cbn; congruence])).
    destruct (Fs.canWrite (fs w) pperm); cbn; eexists _, _; (split; [reflexivity | cbn; congruence]).
  - eexists _, _; (split; [reflexivity | cbn; congruence]).
Qed.

Lemma total_writeData (f : file) (data : string) : total (OS.writeData f data).
Proof. unfold OS.writeData. totality. Qed.

#[local] Hint Resolve total_MkdirAll total_writeData : totality.

Lemma total_os_WriteFile (path data : string) (perm : N) : total (OS.WriteFile path data perm).
Proof.
  unfold OS.WriteFile. apply total_bind; [apply total_log | intros _].
  apply (total_bind_returns _ _ _ (returns_creat path perm)).
  intros [f err] H. unfold fileWhenNil in H; cbn in H.
  destruct err; [totality|]. destruct f; [totality | now contradiction H].
Qed.

Lemma total_Abs (path : string) : total (OS.Abs path).
Proof. unfold OS.Abs. totality. Qed.

#[local] Hint Resolve total_os_WriteFile total_Abs : totality.

Lemma total_Exists (path : string) (emptyPathIsValid : bool) :
  total (filesystem.Exists path emptyPathIsValid).
Proof. unfold filesystem.Exists. totality. Qed.

Lemma total_WriteFile (destination content : string) (overwrite : bool) :
  total (filesystem.WriteFile destination content overwrite).
Proof. unfold filesystem.WriteFile. totality. Qed.

Lemma total_CreatePath (path : string) (errIfExists : bool) :
  total (filesystem.CreatePath path errIfExists).
Proof.
  unfold filesystem.CreatePath.
  apply (total_bind_returns _ _ _ (returns_Stat path)).
  intros [info err] H. unfold infoWhenNil in H; cbn in H.
  destruct err; [totality|]. destruct info; [totality | now contradiction H].
Qed.

#[local] Hint Resolve total_Exists total_WriteFile total_CreatePath : totality.

(* ================================================================= *)
(** ** [formatRenderName] *)

(** C5: for every raw template name, [formatRenderName] replaces the first
    occurrence of ["/templates/"] by ["/"] (a name without an occurrence
    is kept) and returns the result without its trailing bytes from the
    set of [.], [t], [p] and [l]: the part cut off consists of such bytes
    only, and what is returned does not end in one.  That is a greedy
    trim of a character class and not of the suffix [.tpl]:
    ["x/templates/tall.tpl"] gives ["x/ta"].  In particular
    ["mypack/templates/job.nomad.tpl"] gives ["mypack/job.nomad"]. *)
Theorem formatRenderName_spec :
  forall name : string,
    (exists replaced suffix : string,
        ((GoStrings.NoOcc "/templates/" name /\ replaced = name) \/
         (exists pre post : string,
             GoStrings.FirstOcc "/templates/" name pre post /\
             replaced = pre ++ "/" ++ post)) /\
        replaced = formatRenderName name ++ suffix /\
        GoStrings.allBytes (fun c => GoStrings.inCutset c ".tpl") suffix = true /\
        match GoStrings.lastByte (formatRenderName name) with
        | Some c => GoStrings.inCutset c ".tpl" = false
        | None => True
        end) /\
    formatRenderName "mypack/templates/job.nomad.tpl" = "mypack/job.nomad" /\
    formatRenderName "x/templates/tall.tpl" = "x/ta".
Proof.
  intros name. split; [|split; reflexivity].
  exists (GoStrings.Replace1 name "/templates/" "/").
  destruct (GoStringsFacts.TrimRight_split ".tpl" (GoStrings.Replace1 name "/templates/" "/"))
    as (suffix & Hsplit & Hall).
  exists suffix. repeat split.
  - destruct (GoStringsFacts.Replace1_spec "/templates/" "/" name) as [[Hno Heq] | (pre & post & Hfirst & Heq)].
    + left. now split.
    + right. now exists pre, post.
  - exact Hsplit.
  - exact Hall.
  - unfold formatRenderName.
    destruct (GoStrings.lastByte _) as [c|] eqn:E; [|exact I].
    exact (GoStringsFacts.TrimRight_last _ _ _ E).
Qed.

(* ================================================================= *)
(** ** Terminal output *)

Lemma appendTrace_nil (w : World) : appendTrace [] w = w.
Proof. destruct w. unfold appendTrace. cbn. now rewrite app_nil_r. Qed.

Lemma appendTrace_app (a b : list event) (w : World) :
  appendTrace b (appendTrace a w) = appendTrace (a ++ b) w.
Proof. unfold appendTrace. cbn. now rewrite app_assoc. Qed.

Lemma toTerminal_eq (r : Render) (w : World) :
  toTerminal r w = (Ok tt, appendTrace (terminalEvents r) w).
Proof.
  unfold toTerminal, UI.Output, bind, log, addTrace, appendTrace, terminalEvents. cbn.
  now rewrite <- !app_assoc.
Qed.

Lemma terminalEvents_shown (renders : list Render) :
  forallb isUiOutput (flat_map terminalEvents renders) = true.
Proof. induction renders as [|r rs IH]; [reflexivity | exact IH]. Qed.

Lemma Output_terminal_only (c : RenderCommand) (r : Render) (w : World) :
  renderToDir c = "" -> Output c r w = (Ok None, appendTrace (terminalEvents r) w).
Proof.
  intros H. unfold Output. rewrite H. cbn [String.eqb negb].
  unfold bind at 1. cbn [ret]. unfold bind. now rewrite toTerminal_eq.
Qed.

Lemma outputRenders_terminal_only (c : RenderCommand) (renders : list Render) (w : World) :
  renderToDir c = "" ->
  outputRenders c renders w = (Ok tt, appendTrace (flat_map terminalEvents renders) w).
Proof.
  intros H. revert w. induction renders as [|r rs IH]; intros w.
  - cbn. now rewrite appendTrace_nil.
  - cbn [outputRenders flat_map].
    rewrite (bind_Ok _ _ _ _ _ (Output_terminal_only c r w H)).
    unfold bind at 1. cbn [ret]. rewrite IH. now rewrite appendTrace_app.
Qed.

(** C9: a batch dispatched with the destination directory unset
    ([renderToDir] empty) leaves the filesystem as it was and makes no
    operating-system call at all: the dispatch ends normally, and all it
    adds to the trace is the terminal output of every render of the batch,
    in batch order. *)
Theorem terminal_only_batch :
  forall (c : RenderCommand) (renders : list Render) (w : World),
    renderToDir c = "" ->
    exists w' : World,
      outputRenders c renders w = (Ok tt, w') /\
      fs w' = fs w /\
      trace w' = (trace w ++ flat_map terminalEvents renders)%list /\
      forallb isUiOutput (flat_map terminalEvents renders) = true.
Proof.
  intros c renders w H.
  exists (appendTrace (flat_map terminalEvents renders) w).
  split; [now apply outputRenders_terminal_only|].
  split; [reflexivity|]. split; [reflexivity|]. apply terminalEvents_shown.
Qed.

Lemma terminal_only_batch_witness :
  exists w' : World,
    outputRenders Examples.terminalOnly [Examples.job; Examples.other] (Examples.world true [])
      = (Ok tt, w') /\
    fs w' = fs (Examples.world true []) /\
    trace w' = (trace (Examples.world true [])
                  ++ flat_map terminalEvents [Examples.job; Examples.other])%list /\
    forallb isUiOutput (flat_map terminalEvents [Examples.job; Examples.other]) = true.
Proof.
  apply (terminal_only_batch Examples.terminalOnly [Examples.job; Examples.other]
           (Examples.world true [])).
  reflexivity.
Defined.

(* ================================================================= *)
(** ** [WriteFile] on a directory *)

(** C10, as the code has it: when the object at the destination is a
    directory, [WriteFile] returns a [PathError] of operation [writefile]
    for that path and writes nothing, whatever [overwrite] is: its only
    operating-system call is the [os.Stat], and the filesystem is
    unchanged.  The error inside is "destination is a directory" when
    [overwrite] is set, and [fs.ErrExist] when it is not, because the
    existence check comes first. *)
Theorem WriteFile_directory :
  forall (destination content : string) (overwrite : bool) (w : World)
         (p : list string) (perm : N) (es : list (string * node)),
    Fs.resolve (fs w) true destination = Fs.Found p (Dir perm es) ->
    exists w' : World,
      filesystem.WriteFile destination content overwrite w =
        (Ok (Some (PathError "writefile" destination
                     (if overwrite then ErrorString "destination is a directory"
                      else ErrExist))), w') /\
      fs w' = fs w /\
      trace w' = (trace w ++ [Sys (SysStat destination)])%list.
Proof.
  intros destination content overwrite w p perm es H.
  exists (addTrace (Sys (SysStat destination)) w).
  split; [|split; reflexivity].
  unfold filesystem.WriteFile.
  rewrite (bind_Ok _ _ _ _ _ (Stat_eq destination w)).
  unfold OS.statOf. rewrite H. cbn [OS.infoOf OS.IsDir].
  now destruct overwrite.
Qed.

Lemma WriteFile_directory_witness :
  exists w' : World,
    filesystem.WriteFile "/out" "new" true (Examples.world false []) =
      (Ok (Some (PathError "writefile" "/out"
                   (if true then ErrorString "destination is a directory" else ErrExist))), w') /\
    fs w' = fs (Examples.world false []) /\
    trace w' = (trace (Examples.world false []) ++ [Sys (SysStat "/out")])%list.
Proof.
  apply (WriteFile_directory "/out" "new" true (Examples.world false []) ["out"] Fs.p0755
           [("job.nomad", File Fs.p0644 "old")]).
  reflexivity.
Defined.

(** C10 as stated fails when [overwrite] is false: [/out] is a directory,
    and the error [WriteFile] returns for it is [fs.ErrExist], not
    "destination is a directory". *)
Lemma WriteFile_directory_counterexample :
  Fs.resolve (fs (Examples.world false [])) true "/out"
    = Fs.Found ["out"] (Dir Fs.p0755 [("job.nomad", File Fs.p0644 "old")]) /\
  fst (filesystem.WriteFile "/out" "new" false (Examples.world false []))
    = Ok (Some (PathError "writefile" "/out" ErrExist)) /\
  ~ (exists op path : string,
        fst (filesystem.WriteFile "/out" "new" false (Examples.world false []))
        = Ok (Some (PathError op path (ErrorString "destination is a directory")))).
Proof.
  split; [reflexivity|]. split; [reflexivity|].
  intros (op & path & H). vm_compute in H. discriminate H.
Qed.

(* ================================================================= *)
(** ** The confirmation gate *)

Lemma preserves_weaken {A : Type} (R R' : World -> World -> Prop) (m : M A) :
  (forall w w', R w w' -> R' w w') -> preserves R m -> preserves R' m.
Proof. intros HR Hm w r w' E. apply HR. exact (Hm w r w' E). Qed.

(** [Exists] answers and leaves everything but the trace alone. *)
Lemma Exists_eq (path : string) (emptyPathIsValid : bool) (w : World) :
  exists (b : bool) (evs : list event),
    filesystem.Exists path emptyPathIsValid w = (Ok b, appendTrace evs w) /\
    forallb isSys evs = true.
Proof.
  unfold filesystem.Exists. destruct (path =? "").
  - exists emptyPathIsValid, []. now rewrite appendTrace_nil.
  - unfold OS.Abs. destruct (GoPath.IsAbs path).
    + unfold bind at 1. cbn [ret]. rewrite (bind_Ok _ _ _ _ _ (Stat_eq _ w)).
      destruct (OS.statOf _ _ _ _) as [info err].
      destruct (GoErrors.Is err ErrNotExist); eexists _, [_]; split; reflexivity.
    + unfold bind at 1. unfold bind at 1. cbn [getFs ret].
      rewrite (bind_Ok _ _ _ _ _ (Stat_eq _ w)).
      destruct (OS.statOf _ _ _ _) as [info err].
      destruct (GoErrors.Is err ErrNotExist); eexists _, [_]; split; reflexivity.
Qed.

(** The loop of the prompt ends: one more turn than there are inputs. *)
Lemma confirmLoop_returns (fuel : nat) (w : World) :
  length (inputs w) < fuel -> exists a w', confirmLoop fuel w = (Ok a, w').
Proof.
  revert w; induction fuel as [|fuel IH]; intros w Hlen; [lia|].
  cbn [confirmLoop]. unfold bind at 1. unfold UI.Input.
  cbn [inputs addTrace].
  destruct (inputs w) as [|[line | err] rest] eqn:Ein; cbn [ret].
  - now eexists _, _.
  - set (l := GoStrings.ToLower line).
    destruct ((l =? "y") || (l =? "n") || (l =? "a")).
    + destruct (l =? "a"); now eexists _, _.
    + apply IH. cbn in *. lia.
  - now eexists _, _.
Qed.

Lemma total_getAutoApproved : total getAutoApproved.
Proof. intros w. now eexists _, _. Qed.

Lemma total_Interactive : total UI.Interactive.
Proof. intros w. now eexists _, _. Qed.

#[local] Hint Resolve total_getAutoApproved total_Interactive : totality.

Lemma total_maybeConfirmOverwrite (path : string) : total (maybeConfirmOverwrite path).
Proof.
  unfold maybeConfirmOverwrite.
  apply total_bind; [totality|]. intros []; [totality|].
  apply total_bind; [totality|]. intros []; cbn [negb]; [|totality].
  apply total_bind; [totality|]. intros []; cbn [negb]; [|totality].
  intros w. unfold bind, pendingInputs. apply confirmLoop_returns. lia.
Qed.

#[local] Hint Resolve total_maybeConfirmOverwrite : totality.

Lemma total_Add (label value : string) : total (UIErrorContext.Add label value).
Proof. intros w. now eexists _, _. Qed.

Lemma total_GetAll : total UIErrorContext.GetAll.
Proof. intros w. now eexists _, _. Qed.

Lemma total_toTerminal (r : Render) : total (toTerminal r).
Proof. intros w. rewrite toTerminal_eq. now eexists _, _. Qed.

#[local] Hint Resolve total_Add total_GetAll total_toTerminal : totality.

Lemma total_toFile (c : RenderCommand) (r : Render) : total (toFile c r).
Proof. unfold toFile. destruct (GoPath.Split (Name r)). totality. Qed.

#[local] Hint Resolve total_toFile : totality.

Lemma total_Output (c : RenderCommand) (r : Render) : total (Output c r).
Proof. unfold Output. totality. Qed.

Lemma total_ErrorWithContext (e : error) (sub : string) (ctx : list (string * string)) :
  total (UI.ErrorWithContext e sub ctx).
Proof. apply total_log. Qed.

#[local] Hint Resolve total_Output total_ErrorWithContext : totality.

(** The dispatch of a batch always ends normally. *)
Lemma total_outputRenders (c : RenderCommand) (renders : list Render) :
  total (outputRenders c renders).
Proof. induction renders as [|r rs IH]; cbn [outputRenders]; totality. Qed.

(** *** Nothing prompts once the flag is set *)

Lemma noPrompt_refl (w : World) : noPrompt w w.
Proof. intros H. repeat split; [exact H|]. exists []. now rewrite app_nil_r. Qed.

Lemma noPrompt_trans (a b c : World) : noPrompt a b -> noPrompt b c -> noPrompt a c.
Proof.
  intros Hab Hbc Ha. destruct (Hab Ha) as (Hb & Hin1 & evs1 & Ht1 & Hf1).
  destruct (Hbc Hb) as (Hc & Hin2 & evs2 & Ht2 & Hf2).
  repeat split; [exact Hc | congruence |].
  exists (evs1 ++ evs2)%list. split.
  - now rewrite Ht2, Ht1, app_assoc.
  - now rewrite forallb_app, Hf1, Hf2.
Qed.

Lemma systemOnly_noPrompt (w w' : World) : systemOnly w w' -> noPrompt w w'.
Proof.
  intros (Ha & _ & Hin & _ & evs & Ht & Hf) H.
  repeat split; [congruence | exact Hin |].
  exists evs. split; [exact Ht|].
  rewrite forallb_forall in *. intros e He. specialize (Hf e He). now destruct e.
Qed.

(** With the flag set, the gate approves at once: the world is not touched. *)
Lemma maybeConfirmOverwrite_approved (path : string) (w : World) :
  autoApproved w = true -> maybeConfirmOverwrite path w = (Ok (true, None), w).
Proof. intros H. unfold maybeConfirmOverwrite, bind, getAutoApproved. now rewrite H. Qed.

Lemma noPrompt_maybeConfirmOverwrite (path : string) :
  preserves noPrompt (maybeConfirmOverwrite path).
Proof.
  intros w r w' E H. rewrite (maybeConfirmOverwrite_approved path w H) in E.
  injection E as _ <-. now apply noPrompt_refl.
Qed.

Lemma noPrompt_log (e : event) : isUiInput e = false -> preserves noPrompt (log e).
Proof.
  intros He w r w' E H. injection E as _ <-. repeat split; [exact H|].
  exists [e]. split; [reflexivity|]. cbn. now rewrite He.
Qed.

Lemma noPrompt_Add (label value : string) : preserves noPrompt (UIErrorContext.Add label value).
Proof.
  intros w r w' E H. injection E as _ <-. repeat split; [exact H|].
  exists []. cbn. now rewrite app_nil_r.
Qed.

Lemma noPrompt_readFlag : preserves noPrompt getAutoApproved.
Proof. intros w r w' E. injection E as _ <-. apply noPrompt_refl. Qed.

Lemma noPrompt_system {A : Type} (m : M A) : preserves systemOnly m -> preserves noPrompt m.
Proof. apply preserves_weaken. exact systemOnly_noPrompt. Qed.

Create HintDb quiet.
#[local] Hint Resolve noPrompt_maybeConfirmOverwrite noPrompt_Add noPrompt_readFlag : quiet.
#[local] Hint Extern 1 (preserves noPrompt (log _)) => (apply noPrompt_log; reflexivity) : quiet.
#[local] Hint Extern 5 (preserves noPrompt _) =>
  (apply noPrompt_system; solve [eauto with sysframe]) : quiet.

Ltac quiet := frame noPrompt_refl noPrompt_trans ltac:(eauto with quiet).

Lemma noPrompt_toTerminal (r : Render) : preserves noPrompt (toTerminal r).
Proof. unfold toTerminal, UI.Output. quiet. Qed.

Lemma noPrompt_toFile (c : RenderCommand) (r : Render) : preserves noPrompt (toFile c r).
Proof. unfold toFile. destruct (GoPath.Split (Name r)). quiet.  Qed.

#[local] Hint Resolve noPrompt_toTerminal noPrompt_toFile : quiet.

Lemma noPrompt_Output (c : RenderCommand) (r : Render) : preserves noPrompt (Output c r).
Proof. unfold Output. quiet. Qed.

#[local] Hint Resolve noPrompt_Output : quiet.

Lemma noPrompt_outputRenders (c : RenderCommand) (renders : list Render) :
  preserves noPrompt (outputRenders c renders).
Proof.
  induction renders as [|r rs IH]; cbn [outputRenders]; unfold UI.ErrorWithContext; quiet.
Qed.

(** C1, what the code does: in the prompt loop of [maybeConfirmOverwrite]
    (flag not set, an object at the destination, interactive session), an
    input line that lower-cases to [a] sets the session flag, and the
    gate returns [(false, nil)], since its result is [overwrite == "y"]:
    the file being confirmed is not approved. *)
Theorem confirm_all_declines_current_file :
  forall (path line : string) (rest : list (string + error)) (w w1 : World),
    autoApproved w = false ->
    filesystem.Exists path false w = (Ok true, w1) ->
    interactive w = true ->
    inputs w = inl line :: rest ->
    GoStrings.ToLower line = "a" ->
    maybeConfirmOverwrite path w =
      (Ok (false, None),
       setAutoApproved true (setInputs rest (addTrace (UiInput confirmPrompt WarningBoldStyle) w1))).
Proof.
  intros path line rest w w1 Hflag Hex Hint Hin Hlow.
  destruct (systemOnly_Exists path false w _ _ Hex) as (_ & Hi1 & Hin1 & _).
  unfold maybeConfirmOverwrite. unfold bind at 1. cbn [getAutoApproved]. rewrite Hflag.
  rewrite (bind_Ok _ _ _ _ _ Hex). cbn [negb].
  unfold bind at 1. cbn [UI.Interactive]. rewrite Hi1, Hint. cbn [negb].
  unfold bind at 1. cbn [pendingInputs]. rewrite Hin1, Hin. cbn [length confirmLoop].
  unfold bind at 1. unfold UI.Input. cbn [inputs addTrace]. rewrite Hin1, Hin.
  rewrite Hlow. reflexivity.
Qed.

Lemma confirm_all_declines_current_file_witness :
  maybeConfirmOverwrite "/out/job.nomad" (Examples.world true [inl "A"; inl "y"]) =
    (Ok (false, None),
     setAutoApproved true
       (setInputs [inl "y"]
          (addTrace (UiInput confirmPrompt WarningBoldStyle)
             (addTrace (Sys (SysStat "/out/job.nomad")) (Examples.world true [inl "A"; inl "y"]))))).
Proof.
  apply (confirm_all_declines_current_file "/out/job.nomad" "A" [inl "y"]
           (Examples.world true [inl "A"; inl "y"])); reflexivity.
Defined.

(** C7: the session flag is monotone.  An invocation starts with the flag
    false; a confirmation never resets it, and neither does the dispatch
    of a whole batch; once it is true, every confirmation returns
    [(true, nil)] at once, in the very world it was called in (no check of
    the destination, no input read, no prompt), and the dispatch of any
    batch ends normally without a single prompt and with the input
    untouched. *)
Theorem autoApproved_monotone :
  (forall (f : Fs.t) (i : bool) (inp : list (string + error)),
      autoApproved (invocationStart f i inp) = false) /\
  (forall (path : string) (w : World) (r : outcome (bool * option error)) (w' : World),
      maybeConfirmOverwrite path w = (r, w') ->
      autoApproved w = true -> autoApproved w' = true) /\
  (forall (path : string) (w : World),
      autoApproved w = true ->
      maybeConfirmOverwrite path w = (Ok (true, None), w)) /\
  (forall (c : RenderCommand) (renders : list Render) (w : World),
      autoApproved w = true ->
      exists w' : World,
        outputRenders c renders w = (Ok tt, w') /\
        autoApproved w' = true /\
        inputs w' = inputs w /\
        exists evs : list event,
          trace w' = (trace w ++ evs)%list /\
          forallb (fun e => negb (isUiInput e)) evs = true).
Proof.
  split; [reflexivity|]. split; [|split].
  - intros path w r w' E H. rewrite (maybeConfirmOverwrite_approved path w H) in E.
    now injection E as _ <-.
  - exact maybeConfirmOverwrite_approved.
  - intros c renders w H.
    destruct (total_outputRenders c renders w) as ([] & w' & E).
    exists w'. split; [exact E|].
    exact (noPrompt_outputRenders c renders w _ _ E H).
Qed.

Lemma autoApproved_monotone_witness :
  exists w' : World,
    outputRenders Examples.toOut [Examples.job; Examples.other]
      (setAutoApproved true (Examples.world true [inl "n"])) = (Ok tt, w') /\
    autoApproved w' = true /\
    inputs w' = inputs (setAutoApproved true (Examples.world true [inl "n"])) /\
    exists evs : list event,
      trace w' = (trace (setAutoApproved true (Examples.world true [inl "n"])) ++ evs)%list /\
      forallb (fun e => negb (isUiInput e)) evs = true.
Proof.
  apply (proj2 (proj2 (proj2 autoApproved_monotone)) Examples.toOut
           [Examples.job; Examples.other] (setAutoApproved true (Examples.world true [inl "n"]))).
  reflexivity.
Defined.

(* ================================================================= *)
(** ** [Render.Output]: the file first, the terminal after *)

Lemma bind_inv {A B : Type} (m : M A) (k : A -> M B) (w w' : World) (b : B) :
  bind m k w = (Ok b, w') -> exists a w1, m w = (Ok a, w1) /\ k a w1 = (Ok b, w').
Proof.
  unfold bind. destruct (m w) as [[a | msg |] w1]; intros H; try discriminate.
  now exists a, w1.
Qed.

Lemma nothingShown_refl (w : World) : nothingShown w w.
Proof. exists []. now rewrite app_nil_r. Qed.

Lemma nothingShown_trans (a b c : World) : nothingShown a b -> nothingShown b c -> nothingShown a c.
Proof.
  intros (evs1 & Ht1 & Hf1) (evs2 & Ht2 & Hf2).
  exists (evs1 ++ evs2)%list. split.
  - now rewrite Ht2, Ht1, app_assoc.
  - now rewrite forallb_app, Hf1, Hf2.
Qed.

Lemma systemOnly_nothingShown (w w' : World) : systemOnly w w' -> nothingShown w w'.
Proof.
  intros (_ & _ & _ & _ & evs & Ht & Hf).
  exists evs. split; [exact Ht|].
  rewrite forallb_forall in *. intros e He. specialize (Hf e He). now destruct e.
Qed.

Lemma nothingShown_system {A : Type} (m : M A) : preserves systemOnly m -> preserves nothingShown m.
Proof. apply preserves_weaken. exact systemOnly_nothingShown. Qed.

Lemma nothingShown_Input (prompt : string) (st : style) : preserves nothingShown (UI.Input prompt st).
Proof.
  intros w r w' E. unfold UI.Input in E. cbn [inputs addTrace] in E.
  exists [UiInput prompt st]. split; [|reflexivity].
  destruct (inputs w) as [|[line | err] rest]; now injection E as _ <-.
Qed.

Lemma nothingShown_setFlag (b : bool) : preserves nothingShown (putAutoApproved b).
Proof. intros w r w' E. injection E as _ <-. exists []. cbn. now rewrite app_nil_r. Qed.

Lemma nothingShown_readFlag : preserves nothingShown getAutoApproved.
Proof. intros w r w' E. injection E as _ <-. apply nothingShown_refl. Qed.

Lemma nothingShown_pendingInputs : preserves nothingShown pendingInputs.
Proof. intros w r w' E. injection E as _ <-. apply nothingShown_refl. Qed.

Lemma nothingShown_Add (label value : string) : preserves nothingShown (UIErrorContext.Add label value).
Proof. intros w r w' E. injection E as _ <-. exists []. cbn. now rewrite app_nil_r. Qed.

Create HintDb unseen.
#[local] Hint Resolve nothingShown_Input nothingShown_setFlag nothingShown_readFlag
  nothingShown_pendingInputs nothingShown_Add : unseen.
#[local] Hint Extern 5 (preserves nothingShown _) =>
  (apply nothingShown_system; solve [eauto with sysframe]) : unseen.

Ltac unseen := frame nothingShown_refl nothingShown_trans ltac:(eauto with unseen).

Lemma nothingShown_confirmLoop (fuel : nat) : preserves nothingShown (confirmLoop fuel).
Proof. induction fuel as [|fuel IH]; cbn [confirmLoop]; unseen. Qed.

#[local] Hint Resolve nothingShown_confirmLoop : unseen.

Lemma nothingShown_maybeConfirmOverwrite (path : string) :
  preserves nothingShown (maybeConfirmOverwrite path).
Proof. unfold maybeConfirmOverwrite. unseen. Qed.

#[local] Hint Resolve nothingShown_maybeConfirmOverwrite : unseen.

Lemma nothingShown_toFile (c : RenderCommand) (r : Render) : preserves nothingShown (toFile c r).
Proof. unfold toFile. destruct (GoPath.Split (Name r)). unseen. Qed.

(** A [WriteFile] that succeeded has called [os.WriteFile]. *)
Lemma WriteFile_written (destination content : string) (overwrite : bool) (w w' : World) :
  filesystem.WriteFile destination content overwrite w = (Ok None, w') ->
  exists evs, trace w' = (trace w ++ evs)%list /\ existsb isFileWrite evs = true.
Proof.
  unfold filesystem.WriteFile. rewrite (bind_Ok _ _ _ _ _ (Stat_eq destination w)).
  destruct (OS.statOf _ _ _ _) as [info err].
  assert (Hw : forall w0,
             bind (OS.WriteFile destination content Fs.p0644)
               (fun err0 => match err0 with Some e => ret (Some e) | None => ret None end) w0
             = (Ok None, w') ->
             exists evs, trace w' = (trace w0 ++ evs)%list /\ existsb isFileWrite evs = true).
  { intros w0 H. apply bind_inv in H. destruct H as (err0 & w1 & Hw & Hret).
    destruct err0; [discriminate Hret | injection Hret as <-].
    unfold OS.WriteFile in Hw. apply bind_inv in Hw. destruct Hw as ([] & w2 & Hlog & Hrest).
    injection Hlog as <-.
    revert Hrest.
    match goal with
    | |- ?m _ = _ -> _ => assert (Hp : preserves systemOnly m) by sysframe
    end.
    intros Hrest. destruct (systemOnly_nothingShown _ _ (Hp _ _ _ Hrest)) as (evs & Ht & _).
    exists (Sys (SysWriteFile destination content Fs.p0644) :: evs). split; [|reflexivity].
    rewrite Ht. cbn. now rewrite <- app_assoc. }
  assert (Ht : trace (addTrace (Sys (SysStat destination)) w)
               = (trace w ++ [Sys (SysStat destination)])%list) by reflexivity.
  assert (Hgo : bind (OS.WriteFile destination content Fs.p0644)
               (fun err0 => match err0 with Some e => ret (Some e) | None => ret None end)
               (addTrace (Sys (SysStat destination)) w) = (Ok None, w') ->
             exists evs, trace w' = (trace w ++ evs)%list /\ existsb isFileWrite evs = true).
  { intros H. destruct (Hw _ H) as (evs & Hevs & Hex).
    exists (Sys (SysStat destination) :: evs). split; [|exact Hex].
    rewrite Hevs, Ht. now rewrite <- app_assoc. }
  destruct err as [e|], overwrite; try discriminate;
    destruct info as [info|]; try destruct (OS.IsDir info); try discriminate; exact Hgo.
Qed.

(** A [toFile] that succeeded has called [os.WriteFile]. *)
Lemma toFile_written (c : RenderCommand) (r : Render) (w w1 : World) :
  toFile c r w = (Ok None, w1) ->
  exists evs, trace w1 = (trace w ++ evs)%list /\ existsb isFileWrite evs = true.
Proof.
  unfold toFile. destruct (GoPath.Split (Name r)) as [filePath fileName].
  intros H. apply bind_inv in H. destruct H as (a & wa & E1 & H).
  apply bind_inv in H. destruct H as ([overwrite err] & wb & E2 & H).
  destruct err as [e|]; [discriminate H|].
  destruct overwrite; [|discriminate H]. cbn [negb] in H.
  apply bind_inv in H. destruct H as (flag & wb' & E3 & H). injection E3 as _ <-.
  apply bind_inv in H. destruct H as (err' & wc & E4 & H).
  destruct err' as [e|].
  - apply bind_inv in H. destruct H as (? & ? & _ & H). discriminate H.
  - injection H as <-.
    destruct (nothingShown_system _ (systemOnly_CreatePath _ _) _ _ _ E1) as (ea & Ha & _).
    destruct (nothingShown_maybeConfirmOverwrite _ _ _ _ E2) as (eb & Hb & _).
    destruct (WriteFile_written _ _ _ _ _ E4) as (ec & Hc & Hex).
    exists (ea ++ eb ++ ec)%list. split.
    + rewrite Hc, Hb, Ha. now rewrite <- !app_assoc.
    + rewrite !existsb_app, Hex. now rewrite !orb_true_r.
Qed.

(** C3, as the code has it: for a render dispatched with a destination
    directory set, [toFile] runs first and always ends; whatever it adds to
    the trace (the file events, among them the [os.WriteFile] call when
    the file was written) shows nothing on the display.  After a file
    written, and after a failed stat, open or write (a [*fs.PathError]
    that is not an already-exists error), [Output] goes on to the terminal
    output of the render, which therefore comes after every file event, and
    returns nil.  After an already-exists error, which is what a declined
    overwrite gives, [Output] returns that error at once and nothing is
    displayed for the render. *)
Theorem Output_file_then_terminal :
  forall (c : RenderCommand) (r : Render) (w : World),
    renderToDir c <> "" ->
    exists (res : option error) (w1 : World) (fileEvs : list event),
      toFile c r w = (Ok res, w1) /\
      trace w1 = (trace w ++ fileEvs)%list /\
      forallb (fun e => negb (isUiOutput e)) fileEvs = true /\
      match res with
      | None =>
          existsb isFileWrite fileEvs = true /\
          Output c r w = (Ok None, appendTrace (terminalEvents r) w1)
      | Some e =>
          if GoErrors.Is (Some e) ErrExist then Output c r w = (Ok (Some e), w1)
          else if isPathError e then Output c r w = (Ok None, appendTrace (terminalEvents r) w1)
          else True
      end.
Proof.
  intros c r w Hdir.
  destruct (total_toFile c r w) as (res & w1 & E).
  destruct (nothingShown_toFile c r w _ _ E) as (fileEvs & Ht & Hquiet).
  exists res, w1, fileEvs. repeat split; [exact E | exact Ht | exact Hquiet |].
  assert (Hne : negb (renderToDir c =? "") = true).
  { destruct (String.eqb_spec (renderToDir c) ""); [contradiction | reflexivity]. }
  assert (Hshow :
             Output c r w =
               bind (match res with
                     | Some e => if GoErrors.Is (Some e) ErrExist then ret (Some e) else ret None
                     | None => ret None
                     end)
                    (fun returned => match returned with
                                     | Some e => ret (Some e)
                                     | None => toTerminal r ;; ret None
                                     end) w1).
  { unfold Output. rewrite Hne. unfold bind at 1. unfold bind at 1. now rewrite E. }
  destruct res as [e|].
  - destruct (GoErrors.Is (Some e) ErrExist) eqn:Eis.
    + rewrite Hshow. reflexivity.
    + destruct (isPathError e); [|exact I].
      rewrite Hshow. unfold bind, ret. now rewrite toTerminal_eq.
  - split.
    + destruct (toFile_written c r w w1 E) as (evs & Hevs & Hex).
      rewrite Ht in Hevs. apply app_inv_head in Hevs. now subst evs.
    + rewrite Hshow. unfold bind, ret. now rewrite toTerminal_eq.
Qed.

Lemma Output_file_then_terminal_witness :
  exists (res : option error) (w1 : World) (fileEvs : list event),
    toFile Examples.toOut Examples.other (Examples.world false []) = (Ok res, w1) /\
    trace w1 = (trace (Examples.world false []) ++ fileEvs)%list /\
    forallb (fun e => negb (isUiOutput e)) fileEvs = true /\
    match res with
    | None =>
        existsb isFileWrite fileEvs = true /\
        Output Examples.toOut Examples.other (Examples.world false [])
          = (Ok None, appendTrace (terminalEvents Examples.other) w1)
    | Some e =>
        if GoErrors.Is (Some e) ErrExist
        then Output Examples.toOut Examples.other (Examples.world false []) = (Ok (Some e), w1)
        else if isPathError e
             then Output Examples.toOut Examples.other (Examples.world false [])
                  = (Ok None, appendTrace (terminalEvents Examples.other) w1)
             else True
    end.
Proof.
  apply (Output_file_then_terminal Examples.toOut Examples.other (Examples.world false [])).
  discriminate.
Defined.

(** C3 as stated fails on a declined overwrite: in a session that is not
    interactive, with [/out/job.nomad] on disk, [Output] returns the
    already-exists error and the trace it leaves holds no terminal output
    at all. *)
Lemma Output_declined_counterexample :
  renderToDir Examples.toOut <> "" /\
  fst (Output Examples.toOut Examples.job (Examples.world false [])) = Ok (Some ErrExist) /\
  existsb isUiOutput (trace (snd (Output Examples.toOut Examples.job (Examples.world false []))))
    = false.
Proof. split; [discriminate|]. split; reflexivity. Qed.

(* ================================================================= *)
(** ** The batch that [Run] assembles *)

(** C6, as the code has it: the batch is all dependent renders, then all
    parent renders, each group in the order in which the [range] over its
    map yields it (nothing sorts them) and with the names formatted by
    [formatRenderName], then, when the output template was requested and
    rendered without error, the render [outputs.tpl] last.  Assembling
    touches neither the filesystem nor the session. *)
Theorem assembleRenders_order :
  forall (c : RenderCommand) (x : Collaborators) (w : World),
    exists w' : World,
      assembleRenders c x w =
        (Ok (map (fun '(name, renderedFile) => mkRender (formatRenderName name) renderedFile)
                 (DependentRenders x)
             ++ map (fun '(name, renderedFile) => mkRender (formatRenderName name) renderedFile)
                    (ParentRenders x)
             ++ (if renderOutputTemplate c then
                   match ProcessOutputTemplate x with
                   | (_, Some _) => []
                   | (outputRender, None) => [mkRender "outputs.tpl" outputRender]
                   end
                 else []))%list, w') /\
      fs w' = fs w /\ autoApproved w' = autoApproved w /\ inputs w' = inputs w.
Proof.
  intros c x w. unfold assembleRenders. cbn [app].
  destruct (renderOutputTemplate c).
  - destruct (ProcessOutputTemplate x) as [outputRender [err|]].
    + eexists. split; [|split; [|split]].
      * unfold bind, UIErrorContext.GetAll, UI.ErrorWithContext, log, ret.
        now rewrite app_nil_r.
      * reflexivity.
      * reflexivity.
      * reflexivity.
    + exists w. split; [|repeat split]. unfold ret. now rewrite app_assoc.
  - exists w. split; [|repeat split]. unfold ret. now rewrite app_nil_r.
Qed.

(** C6 as stated fails: when the [range] over the dependent renders yields
    [b] before [a], the batch has them in that order, which is not the
    lexicographic one. *)
Lemma assembleRenders_counterexample :
  fst (assembleRenders Examples.toOut Examples.unsorted (Examples.world false []))
    = Ok [mkRender "dep/b.nomad" "B"; mkRender "dep/a.nomad" "A"; mkRender "example/job.nomad" "J"] /\
  sortedByName [mkRender "dep/b.nomad" "B"; mkRender "dep/a.nomad" "A"] = false.
Proof. split; reflexivity. Qed.

(* ================================================================= *)
(** ** A failed read of the confirmation *)

(** A failed read ends the prompt: the gate returns [(false, err)] with the
    error of the read. *)
Lemma maybeConfirmOverwrite_failed_read
      (path : string) (err : error) (rest : list (string + error)) (w w1 : World) :
  autoApproved w = false ->
  filesystem.Exists path false w = (Ok true, w1) ->
  interactive w = true ->
  inputs w = inr err :: rest ->
  maybeConfirmOverwrite path w =
    (Ok (false, Some err), setInputs rest (addTrace (UiInput confirmPrompt WarningBoldStyle) w1)).
Proof.
  intros Hflag Hex Hint Hin.
  destruct (systemOnly_Exists path false w _ _ Hex) as (_ & Hi1 & Hin1 & _).
  unfold maybeConfirmOverwrite. unfold bind at 1. cbn [getAutoApproved]. rewrite Hflag.
  rewrite (bind_Ok _ _ _ _ _ Hex). cbn [negb].
  unfold bind at 1. cbn [UI.Interactive]. rewrite Hi1, Hint. cbn [negb].
  unfold bind at 1. cbn [pendingInputs]. rewrite Hin1, Hin. cbn [length confirmLoop].
  unfold bind at 1. unfold UI.Input. cbn [inputs addTrace]. rewrite Hin1, Hin.
  reflexivity.
Qed.

Lemma Output_swallows (c : RenderCommand) (r : Render) (w w1 : World) (err : error) :
  renderToDir c <> "" ->
  toFile c r w = (Ok (Some err), w1) ->
  GoErrors.Is (Some err) ErrExist = false ->
  Output c r w = (Ok None, appendTrace (terminalEvents r) w1).
Proof.
  intros Hdir E His. unfold Output.
  destruct (String.eqb_spec (renderToDir c) ""); [contradiction|]. cbn [negb].
  unfold bind at 1. unfold bind at 1. rewrite E, His.
  unfold bind, ret. now rewrite toTerminal_eq.
Qed.

(** C2, what the code does: when the file step of a render returns the
    error of a failed read (any error that is not an already-exists error,
    [context.Canceled] for one), [Output] goes on to the terminal output
    and returns nil, so the dispatcher neither reports nor aborts: it
    carries on with the rest of the batch. *)
Theorem failed_read_does_not_abort :
  forall (c : RenderCommand) (r : Render) (rest : list Render) (w w1 : World) (err : error),
    renderToDir c <> "" ->
    toFile c r w = (Ok (Some err), w1) ->
    GoErrors.Is (Some err) ErrExist = false ->
    Output c r w = (Ok None, appendTrace (terminalEvents r) w1) /\
    outputRenders c (r :: rest) w = outputRenders c rest (appendTrace (terminalEvents r) w1).
Proof.
  intros c r rest w w1 err Hdir E His.
  pose proof (Output_swallows c r w w1 err Hdir E His) as Hout.
  split; [exact Hout|].
  cbn [outputRenders]. rewrite (bind_Ok _ _ _ _ _ Hout). reflexivity.
Qed.

(** The failing run: [/out/job.nomad] exists, the session is interactive
    and the read of the answer is cancelled.  The file step returns
    [context.Canceled]; all the same the second render is written and
    shown, and [Run] exits with 0. *)
Lemma failed_read_does_not_abort_witness :
  (toFile Examples.toOut Examples.job (Examples.world true [inr Canceled])
     = (Ok (Some Canceled), snd (toFile Examples.toOut Examples.job (Examples.world true [inr Canceled]))) /\
   Output Examples.toOut Examples.job (Examples.world true [inr Canceled])
     = (Ok None,
        appendTrace (terminalEvents Examples.job)
          (snd (toFile Examples.toOut Examples.job (Examples.world true [inr Canceled])))) /\
   outputRenders Examples.toOut [Examples.job; Examples.other] (Examples.world true [inr Canceled])
     = outputRenders Examples.toOut [Examples.other]
         (appendTrace (terminalEvents Examples.job)
            (snd (toFile Examples.toOut Examples.job (Examples.world true [inr Canceled]))))) /\
  fst (Run Examples.toOut Examples.two (Examples.world true [inr Canceled])) = Ok 0%Z /\
  Fs.lookup (Fs.root (fs (snd (Run Examples.toOut Examples.two (Examples.world true [inr Canceled])))))
            ["out"; "sub"; "other.nomad"] = Some (File Fs.p0644 "more").
Proof.
  split; [|split; reflexivity].
  assert (E : toFile Examples.toOut Examples.job (Examples.world true [inr Canceled])
              = (Ok (Some Canceled),
                 snd (toFile Examples.toOut Examples.job (Examples.world true [inr Canceled]))))
    by reflexivity.
  split; [exact E|].
  apply (failed_read_does_not_abort Examples.toOut Examples.job [Examples.other]
           (Examples.world true [inr Canceled]) _ Canceled);
    [discriminate | exact E | reflexivity].
Defined.

(* ================================================================= *)
(** ** The destination check at the start of [Run] *)

(** C4, what the code does: the check at the start of [Run] looks at
    [c.packConfig.Path], not at the destination of [--to-dir].  With the
    destination [/f] a regular file and the pack path a directory, [Run]
    does not fail during setup: it goes on to render and to dispatch (the
    trace shows the file steps of both renders), never reports "failed to
    create output directory", and exits with 0. *)
Theorem Run_destination_is_a_file :
  Fs.resolve Examples.disk true (renderToDir Examples.toFileF)
    = Fs.Found ["f"] (File Fs.p0644 "x") /\
  fst (Run Examples.toFileF Examples.two (Examples.world false [])) = Ok 0%Z /\
  trace (snd (Run Examples.toFileF Examples.two (Examples.world false []))) =
    [Sys (SysStat "/packs/example"); Sys (SysStat "/packs/example");
     Sys (SysStat "/f"); Sys (SysStat "/f"); Sys (SysStat "/f/job.nomad");
     UiErrorWithContext ErrExist "error rendering to file" [];
     Sys (SysStat "/f/sub"); Sys (SysStat "/f/sub"); Sys (SysStat "/f");
     Sys (SysStat "/f/sub/other.nomad");
     UiErrorWithContext ErrExist "error rendering to file" []].
Proof. repeat split. Qed.

(* ================================================================= *)
(** ** [CopyDir] *)

(** X14: a source that [os.Stat] does not find, or finds not to be a
    directory, is refused by [CopyDir] with an error, and nothing is
    changed. *)
Lemma CopyDir_source_not_directory (fuel : nat) (sourceDir destinationDir : string) (w : World) :
  match OS.statOf "stat" true (GoPath.Clean sourceDir) (fs w) with
  | (Some info, None) => OS.IsDir info = false
  | _ => True
  end ->
  exists (e : error) (w' : World),
    filesystem.CopyDir (S fuel) sourceDir destinationDir w = (Ok (Some e), w') /\
    fs w' = fs w.
Proof.
  intros H. cbn [filesystem.CopyDir].
  rewrite (bind_Ok _ _ _ _ _ (Stat_eq _ w)).
  pose proof (statOf_info "stat" true (GoPath.Clean sourceDir) (fs w)) as Hinfo.
  destruct (OS.statOf _ _ _ _) as [info [e|]].
  - now eexists _, _.
  - destruct info as [info|]; [|now contradiction Hinfo].
    rewrite H. now eexists _, _.
Qed.

(** X15: a destination that [os.Stat] finds is refused by [CopyDir] with
    "destination already exists": there is no merge into an existing
    tree, and nothing is changed. *)
Lemma CopyDir_destination_exists (fuel : nat) (sourceDir destinationDir : string) (w : World)
      (info : OS.FileInfo) :
  OS.statOf "stat" true (GoPath.Clean sourceDir) (fs w) = (Some info, None) ->
  OS.IsDir info = true ->
  snd (OS.statOf "stat" true (GoPath.Clean destinationDir) (fs w)) = None ->
  exists w' : World,
    filesystem.CopyDir (S fuel) sourceDir destinationDir w
      = (Ok (Some (ErrorString "destination already exists")), w') /\
    fs w' = fs w.
Proof.
  intros Hsrc Hdir Hdst. cbn [filesystem.CopyDir].
  rewrite (bind_Ok _ _ _ _ _ (Stat_eq _ w)). rewrite Hsrc, Hdir. cbn [negb].
  rewrite (bind_Ok _ _ _ _ _ (Stat_eq _ _)). cbn [fs addTrace].
  destruct (OS.statOf "stat" true (GoPath.Clean destinationDir) (fs w)) as [i err].
  cbn in Hdst. subst err. now eexists.
Qed.

Lemma returns_Create (path : string) : returns fileWhenNil (OS.Create path).
Proof.
  intros w. unfold OS.Create, bind, log.
  destruct (returns_creat path Fs.p0666 (addTrace (Sys (SysCreate path)) w)) as (a & w' & E & H).
  rewrite E. now exists a, w'.
Qed.

Lemma total_Copy (dst src : file) : total (OS.Copy dst src).
Proof. unfold OS.Copy. totality. Qed.

Lemma total_Sync (f : file) : total (OS.Sync f).
Proof. unfold OS.Sync. totality. Qed.

Lemma total_Chmod (path : string) (perm : N) : total (OS.Chmod path perm).
Proof. unfold OS.Chmod. totality. Qed.

Lemma total_Debug (format : string) (e : error) : total (Logger.Debug format e).
Proof. apply total_log. Qed.

#[local] Hint Resolve total_Copy total_Sync total_Chmod total_Debug : totality.

(** What the deferred close handlers do to [CopyFile]: once [os.Open] of
    the source has succeeded, [CopyFile] returns nil, whatever happened to
    the destination. *)
Lemma CopyFile_nil_after_Open (sourcePath destinationPath : string) (w w0 : World) (f : file) :
  OS.Open sourcePath w = (Ok (Some f, None), w0) ->
  exists w' : World, filesystem.CopyFile sourcePath destinationPath w = (Ok None, w').
Proof.
  intros Hopen. unfold filesystem.CopyFile.
  rewrite (bind_Ok _ _ _ _ _ Hopen).
  match goal with
  | |- exists w', bind ?body _ _ = _ => assert (Hbody : total body)
  end.
  { apply (total_bind_returns _ _ _ (returns_Create destinationPath)).
    intros [dst err] Hdst. unfold fileWhenNil in Hdst; cbn in Hdst.
    destruct err as [e|]; [totality|].
    destruct dst as [dst|]; [|now contradiction Hdst].
    apply total_bind; [|intros ?; unfold OS.Close; totality].
    apply total_bind; [totality|]. intros [e|]; [totality|].
    apply total_bind; [totality|]. intros [e|]; [totality|].
    apply (total_bind_returns _ _ _ (returns_Stat sourcePath)).
    intros [info err] Hinfo. unfold infoWhenNil in Hinfo; cbn in Hinfo.
    destruct err as [e|]; [totality|].
    destruct info as [info|]; [totality | now contradiction Hinfo]. }
  destruct (Hbody w0) as (a & w1 & E).
  rewrite (bind_Ok _ _ _ _ _ E). now eexists.
Qed.

(** For a privileged process the copy of [/ro] is complete but for the
    symbolic link: the file [a] is copied, the link [l] is left out. *)
Example CopyDir_skips_symlink :
  let w := setFs (Fs.mk Examples.tree [] 18 true) (Examples.world false []) in
  fst (filesystem.CopyDir 2 "/ro" "/copy" w) = Ok None /\
  Fs.lookup (Fs.root (fs (snd (filesystem.CopyDir 2 "/ro" "/copy" w)))) ["copy"]
    = Some (Dir 365 [("a", File Fs.p0644 "A")]).
Proof. split; reflexivity. Qed.

(** C8, what the code does: [/ro] is a directory without write permission
    for its owner ([0555]) that holds the regular file [a].  For an
    unprivileged process [CopyDir] makes [/copy] with the same bits, so
    [os.Create] of [/copy/a] fails with [EACCES]; [CopyFile] logs the
    error, and its deferred close handler then overwrites the result with
    nil.  [CopyDir] returns nil, and the regular file was not copied:
    [/copy] is empty. *)
Theorem CopyDir_success_without_copy :
  Fs.lookup Examples.tree ["ro"] = Some (Dir 365 [("a", File Fs.p0644 "A"); ("l", Symlink "/f")]) /\
  fst (filesystem.CopyDir 2 "/ro" "/copy" (Examples.world false [])) = Ok None /\
  Fs.lookup (Fs.root (fs (snd (filesystem.CopyDir 2 "/ro" "/copy" (Examples.world false [])))))
            ["copy"] = Some (Dir 365 []) /\
  trace (snd (filesystem.CopyDir 2 "/ro" "/copy" (Examples.world false []))) =
    [Sys (SysStat "/ro"); Sys (SysStat "/copy"); Sys (SysStat "/copy");
     Sys (SysMkdir "/copy" 365); Sys (SysReadDir "/ro"); Sys (SysOpen "/ro/a");
     Sys (SysCreate "/copy/a");
     LogDebug "error opening source file: %s" (PathError "open" "/copy/a" (Errno EACCES));
     Sys (SysClose (mkFile "/ro/a" ["ro"; "a"]))].
Proof. repeat split. Qed.

(* ================================================================= *)
(** * Further properties of the code *)

(** ** [Exists] and [IsDir] *)

Lemma Abs_eq (path : string) (w : World) :
  OS.Abs path w = (Ok (absOf (fs w) path, None), w).
Proof. unfold OS.Abs, absOf. now destruct (GoPath.IsAbs path). Qed.

Lemma Exists_eval :
  forall (path : string) (emptyPathIsValid : bool) (w : World),
    filesystem.Exists path emptyPathIsValid w =
      if path =? "" then (Ok emptyPathIsValid, w)
      else (Ok (existsAnswer (Fs.resolve (fs w) true (absOf (fs w) path))),
            addTrace (Sys (SysStat (absOf (fs w) path))) w).
Proof.
  intros path b w. unfold filesystem.Exists. destruct (path =? ""); [reflexivity|].
  rewrite (bind_Ok _ _ _ _ _ (Abs_eq path w)).
  rewrite (bind_Ok _ _ _ _ _ (Stat_eq _ w)). unfold OS.statOf.
  destruct (Fs.resolve (fs w) true (absOf (fs w) path)) as [p n | parent name | e];
    [reflexivity | reflexivity | now destruct e].
Qed.

(** X1: [Exists] answers [emptyPathIsValid] for the empty path without
    looking at the filesystem.  For any other path it makes one [os.Stat]
    call, on the absolute path, changes nothing, and answers false only
    when that stat reports a missing object: a path that cannot be
    examined (below a regular file, behind a directory without search
    permission, through a loop of links) counts as existing. *)
Theorem Exists_answer :
  forall (path : string) (emptyPathIsValid : bool) (w : World),
    filesystem.Exists path emptyPathIsValid w =
      if path =? "" then (Ok emptyPathIsValid, w)
      else (Ok (existsAnswer (Fs.resolve (fs w) true (absOf (fs w) path))),
            addTrace (Sys (SysStat (absOf (fs w) path))) w).
Proof. exact Exists_eval. Qed.

Lemma IsDir_eval :
  forall (path : string) (emptyPathIsValid : bool) (w : World),
    filesystem.IsDir path emptyPathIsValid w =
      if path =? "" then (Ok emptyPathIsValid, w)
      else (isDirAnswer (Fs.resolve (fs w) true (absOf (fs w) path)),
            addTrace (Sys (SysStat (absOf (fs w) path))) w).
Proof.
  intros path b w. unfold filesystem.IsDir. destruct (path =? ""); [reflexivity|].
  rewrite (bind_Ok _ _ _ _ _ (Abs_eq path w)).
  rewrite (bind_Ok _ _ _ _ _ (Stat_eq _ w)). unfold OS.statOf.
  destruct (Fs.resolve (fs w) true (absOf (fs w) path)) as [p [perm d | perm es | t] | parent name | e];
    try reflexivity.
  now destruct e.
Qed.

(** X2: [IsDir] answers [emptyPathIsValid] for the empty path.  For any
    other path it makes one [os.Stat] call on the absolute path and
    answers true exactly for a directory, false for another object and for
    a missing one; when the stat fails for any other reason (a path below
    a regular file, a directory without search permission) it panics on
    the nil [FileInfo]. *)
Theorem IsDir_answer :
  forall (path : string) (emptyPathIsValid : bool) (w : World),
    filesystem.IsDir path emptyPathIsValid w =
      if path =? "" then (Ok emptyPathIsValid, w)
      else (isDirAnswer (Fs.resolve (fs w) true (absOf (fs w) path)),
            addTrace (Sys (SysStat (absOf (fs w) path))) w).
Proof. exact IsDir_eval. Qed.

(** ** The prompt of [maybeConfirmOverwrite] *)

(** With the flag not set, an object at the destination and an
    interactive session, the gate is its prompt loop. *)
Lemma gate_enters_loop (path : string) (w w1 : World) :
  autoApproved w = false ->
  filesystem.Exists path false w = (Ok true, w1) ->
  interactive w = true ->
  maybeConfirmOverwrite path w = confirmLoop (S (length (inputs w))) w1 /\
  autoApproved w1 = false /\ inputs w1 = inputs w.
Proof.
  intros Hflag Hex Hint.
  destruct (systemOnly_Exists path false w _ _ Hex) as (Ha1 & Hi1 & Hin1 & _).
  split; [|split; congruence].
  unfold maybeConfirmOverwrite. unfold bind at 1. cbn [getAutoApproved]. rewrite Hflag.
  rewrite (bind_Ok _ _ _ _ _ Hex). cbn [negb].
  unfold bind at 1. cbn [UI.Interactive]. rewrite Hi1, Hint. cbn [negb].
  unfold bind at 1. cbn [pendingInputs]. now rewrite Hin1.
Qed.

Lemma prompts_S (n : nat) :
  prompts (S n) = (prompts n ++ [UiInput confirmPrompt WarningBoldStyle])%list.
Proof.
  unfold prompts. induction n as [|n IH]; [reflexivity|].
  cbn [repeat app] in *. now rewrite <- IH.
Qed.

(** Lines that are not an answer are consumed one by one, each after a
    prompt of its own. *)
Lemma confirmLoop_skips (bad : list string) :
  forall (fuel : nat) (tail : list (string + error)) (w : World),
    forallb (fun l => negb (validAnswer l)) bad = true ->
    inputs w = (map inl bad ++ tail)%list ->
    exists w2 : World,
      confirmLoop (length bad + fuel) w = confirmLoop fuel w2 /\
      inputs w2 = tail /\ autoApproved w2 = autoApproved w /\ fs w2 = fs w /\
      interactive w2 = interactive w /\ errorContext w2 = errorContext w /\
      trace w2 = (trace w ++ prompts (length bad))%list.
Proof.
  induction bad as [|line bad IH]; intros fuel tail w Hbad Hin.
  - exists w. cbn. repeat split; try assumption. now rewrite app_nil_r.
  - cbn [forallb] in Hbad. apply andb_true_iff in Hbad. destruct Hbad as [Hline Hbad].
    cbn [map app] in Hin.
    destruct (IH fuel tail (setInputs (map inl bad ++ tail)%list
                              (addTrace (UiInput confirmPrompt WarningBoldStyle) w)) Hbad eq_refl)
      as (w2 & Hloop & Hin2 & Ha2 & Hfs2 & Hi2 & He2 & Ht2).
    exists w2. repeat split; try assumption.
    + cbn [length Nat.add confirmLoop]. unfold bind at 1. unfold UI.Input.
      cbn [inputs addTrace]. rewrite Hin.
      unfold validAnswer in Hline. apply negb_true_iff in Hline.
      cbv zeta in Hline. rewrite Hline. exact Hloop.
    + rewrite Ht2. cbn [trace setInputs addTrace length].
      change (prompts (S (length bad)))
        with (UiInput confirmPrompt WarningBoldStyle :: prompts (length bad)).
      now rewrite <- app_assoc.
Qed.

(** X3: invalid answers re-prompt, the first valid one decides.  With the
    flag not set, an object at the destination and an interactive session,
    every input line that is not [y], [n] or [a] (in either case) is
    consumed with a prompt of its own; the first line that is one of them
    ends the loop: the gate returns true exactly for [y], sets the session
    flag exactly for [a], leaves the rest of the input and the filesystem
    alone, and has prompted once per line read. *)
Theorem gate_first_valid_answer :
  forall (path : string) (bad : list string) (ans : string) (rest : list (string + error))
         (w w1 : World),
    autoApproved w = false ->
    filesystem.Exists path false w = (Ok true, w1) ->
    interactive w = true ->
    inputs w = (map inl bad ++ inl ans :: rest)%list ->
    forallb (fun l => negb (validAnswer l)) bad = true ->
    validAnswer ans = true ->
    exists w' : World,
      maybeConfirmOverwrite path w = (Ok (GoStrings.ToLower ans =? "y", None), w') /\
      inputs w' = rest /\
      autoApproved w' = (GoStrings.ToLower ans =? "a") /\
      fs w' = fs w1 /\
      trace w' = (trace w1 ++ prompts (S (length bad)))%list.
Proof.
  intros path bad ans rest w w1 Hflag Hex Hint Hin Hbad Hans.
  destruct (gate_enters_loop path w w1 Hflag Hex Hint) as (Hgate & Ha1 & Hin1).
  rewrite Hgate, Hin, length_app, length_map. cbn [length].
  replace (S (length bad + S (length rest))) with (length bad + S (S (length rest))) by lia.
  rewrite Hin in Hin1.
  destruct (confirmLoop_skips bad (S (S (length rest))) _ w1 Hbad Hin1)
    as (w2 & Hloop & Hin2 & Ha2 & Hfs2 & _ & _ & Ht2).
  rewrite Hloop. cbn [confirmLoop]. unfold bind at 1. unfold UI.Input.
  cbn [inputs addTrace]. rewrite Hin2.
  unfold validAnswer in Hans. cbv zeta in Hans. rewrite Hans.
  destruct (GoStrings.ToLower ans =? "a") eqn:Ea;
    unfold bind, putAutoApproved, ret;
    (eexists; split; [reflexivity|]);
    cbn [inputs autoApproved fs trace setInputs setAutoApproved addTrace];
    (repeat split; try congruence);
    rewrite Ht2, prompts_S; now rewrite <- app_assoc.
Qed.

Lemma gate_first_valid_answer_witness :
  exists w' : World,
    maybeConfirmOverwrite "/out/job.nomad" (Examples.world true [inl "maybe"; inl ""; inl "Y"; inl "n"])
      = (Ok (GoStrings.ToLower "Y" =? "y", None), w') /\
    inputs w' = [inl "n"] /\
    autoApproved w' = (GoStrings.ToLower "Y" =? "a") /\
    fs w' = fs (addTrace (Sys (SysStat "/out/job.nomad"))
                  (Examples.world true [inl "maybe"; inl ""; inl "Y"; inl "n"])) /\
    trace w' = (trace (addTrace (Sys (SysStat "/out/job.nomad"))
                         (Examples.world true [inl "maybe"; inl ""; inl "Y"; inl "n"]))
                  ++ prompts (S (length ["maybe"; ""])))%list.
Proof.
  apply (gate_first_valid_answer "/out/job.nomad" ["maybe"; ""] "Y" [inl "n"]
           (Examples.world true [inl "maybe"; inl ""; inl "Y"; inl "n"])); reflexivity.
Defined.

(** X4: a read that fails, or the end of the input, ends the prompt loop
    after any number of invalid lines: the gate returns false together with
    the error of the read ([io.EOF] at the end of the input), and does not
    set the session flag. *)
Theorem gate_failed_read :
  forall (path : string) (bad : list string) (tail : list (string + error)) (w w1 : World),
    autoApproved w = false ->
    filesystem.Exists path false w = (Ok true, w1) ->
    interactive w = true ->
    inputs w = (map inl bad ++ tail)%list ->
    forallb (fun l => negb (validAnswer l)) bad = true ->
    match tail with inl _ :: _ => False | _ => True end ->
    exists w' : World,
      maybeConfirmOverwrite path w =
        (Ok (false, Some match tail with inr err :: _ => err | _ => EOF end), w') /\
      inputs w' = List.tl tail /\
      autoApproved w' = false /\
      fs w' = fs w1 /\
      trace w' = (trace w1 ++ prompts (S (length bad)))%list.
Proof.
  intros path bad tail w w1 Hflag Hex Hint Hin Hbad Htail.
  destruct (gate_enters_loop path w w1 Hflag Hex Hint) as (Hgate & Ha1 & Hin1).
  rewrite Hgate, Hin, length_app, length_map.
  replace (S (length bad + length tail)) with (length bad + S (length tail)) by lia.
  rewrite Hin in Hin1.
  destruct (confirmLoop_skips bad (S (length tail)) _ w1 Hbad Hin1)
    as (w2 & Hloop & Hin2 & Ha2 & Hfs2 & _ & _ & Ht2).
  rewrite Hloop. cbn [confirmLoop]. unfold bind at 1. unfold UI.Input.
  cbn [inputs addTrace]. rewrite Hin2.
  destruct tail as [|[line | err] rest]; [| contradiction |];
    unfold ret;
    (eexists; split; [reflexivity|]);
    cbn [inputs autoApproved fs trace setInputs setAutoApproved addTrace List.tl];
    (repeat split; try congruence);
    rewrite Ht2, prompts_S; now rewrite <- app_assoc.
Qed.

Lemma gate_failed_read_witness :
  exists w' : World,
    maybeConfirmOverwrite "/out/job.nomad" (Examples.world true [inl "what"])
      = (Ok (false, Some match @nil (string + error) with inr err :: _ => err | _ => EOF end), w') /\
    inputs w' = List.tl [] /\
    autoApproved w' = false /\
    fs w' = fs (addTrace (Sys (SysStat "/out/job.nomad")) (Examples.world true [inl "what"])) /\
    trace w' = (trace (addTrace (Sys (SysStat "/out/job.nomad")) (Examples.world true [inl "what"]))
                  ++ prompts (S (length ["what"])))%list.
Proof.
  apply (gate_failed_read "/out/job.nomad" ["what"] [] (Examples.world true [inl "what"]));
    first [reflexivity | exact I].
Defined.

Lemma gate_decides_at_once :
  forall (path : string) (found : bool) (w w1 : World),
    autoApproved w = false ->
    filesystem.Exists path false w = (Ok found, w1) ->
    found = false \/ interactive w = false ->
    maybeConfirmOverwrite path w = (Ok (negb found, None), w1) /\
    inputs w1 = inputs w /\ fs w1 = fs w.
Proof.
  intros path found w w1 Hflag Hex Hcase.
  destruct (systemOnly_Exists path false w _ _ Hex) as (_ & Hi1 & Hin1 & _).
  destruct (Exists_eq path false w) as (b & evs & E & _).
  rewrite E in Hex. injection Hex as -> <-.
  repeat split.
  unfold maybeConfirmOverwrite. unfold bind at 1. cbn [getAutoApproved]. rewrite Hflag.
  rewrite (bind_Ok _ _ _ _ _ E).
  destruct found; [|reflexivity]. cbn [negb].
  destruct Hcase as [Hf | Hni]; [discriminate|].
  unfold bind at 1. cbn [UI.Interactive]. cbn [interactive appendTrace]. now rewrite Hni.
Qed.

(** X5: the decisions that need no prompt.  With the flag not set, the
    gate approves a destination at which [Exists] finds nothing, whether
    the session is interactive or not, and declines an existing one when
    the session is not interactive; in both cases it returns a nil error
    right after the [Exists] check, without a prompt and without consuming
    input. *)
Theorem gate_without_prompt :
  forall (path : string) (found : bool) (w w1 : World),
    autoApproved w = false ->
    filesystem.Exists path false w = (Ok found, w1) ->
    found = false \/ interactive w = false ->
    maybeConfirmOverwrite path w = (Ok (negb found, None), w1) /\
    inputs w1 = inputs w /\ fs w1 = fs w.
Proof. exact gate_decides_at_once. Qed.

Lemma gate_without_prompt_witness :
  maybeConfirmOverwrite "/out/job.nomad" (Examples.world false [inl "y"])
    = (Ok (negb true, None),
       addTrace (Sys (SysStat "/out/job.nomad")) (Examples.world false [inl "y"])) /\
  inputs (addTrace (Sys (SysStat "/out/job.nomad")) (Examples.world false [inl "y"]))
    = inputs (Examples.world false [inl "y"]) /\
  fs (addTrace (Sys (SysStat "/out/job.nomad")) (Examples.world false [inl "y"]))
    = fs (Examples.world false [inl "y"]).
Proof.
  apply (gate_without_prompt "/out/job.nomad" true (Examples.world false [inl "y"]));
    [reflexivity | reflexivity | right; reflexivity].
Defined.

(** The prompt loop returns true only after reading a [y]. *)
Lemma confirmLoop_true (fuel : nat) :
  forall (w w' : World) (err : option error),
    confirmLoop fuel w = (Ok (true, err), w') ->
    err = None /\
    autoApproved w' = autoApproved w /\
    exists (k : nat) (line : string),
      nth_error (inputs w) k = Some (inl line) /\
      GoStrings.ToLower line = "y" /\
      inputs w' = skipn (S k) (inputs w).
Proof.
  induction fuel as [|fuel IH]; intros w w' err H; [discriminate H|].
  cbn [confirmLoop] in H. unfold bind at 1 in H. unfold UI.Input in H.
  cbn [inputs addTrace] in H.
  destruct (inputs w) as [|[line | e] rest] eqn:Ein; try discriminate H.
  set (l := GoStrings.ToLower line) in *.
  destruct ((l =? "y") || (l =? "n") || (l =? "a")) eqn:Ev.
  - destruct (l =? "y") eqn:Ey.
    + apply String.eqb_eq in Ey. rewrite Ey in H. cbn in H.
      injection H as <- <-. repeat split.
      exists 0, line. now repeat split.
    + destruct (l =? "a"); cbn in H; discriminate H.
  - apply IH in H. destruct H as (Herr & Ha & k & line' & Hnth & Hy & Hin).
    cbn [inputs autoApproved setInputs addTrace] in *.
    repeat split; [exact Herr | exact Ha |].
    exists (S k), line'. now repeat split.
Qed.

(** X6: no overwrite without consent.  With the flag not set and an object
    at the destination, the gate returns true only in an interactive
    session and only after it has read a line that is [y] (in either
    case); everything up to that line is consumed, and the session flag
    is still not set. *)
Theorem gate_approves_existing_only_on_yes :
  forall (path : string) (w w1 w' : World) (err : option error),
    autoApproved w = false ->
    filesystem.Exists path false w = (Ok true, w1) ->
    maybeConfirmOverwrite path w = (Ok (true, err), w') ->
    interactive w = true /\
    err = None /\
    autoApproved w' = false /\
    exists (k : nat) (line : string),
      nth_error (inputs w) k = Some (inl line) /\
      GoStrings.ToLower line = "y" /\
      inputs w' = skipn (S k) (inputs w).
Proof.
  intros path w w1 w' err Hflag Hex H.
  destruct (interactive w) eqn:Hint.
  - destruct (gate_enters_loop path w w1 Hflag Hex Hint) as (Hgate & Ha1 & Hin1).
    rewrite Hgate in H. apply confirmLoop_true in H.
    destruct H as (Herr & Ha & k & line & Hnth & Hy & Hin).
    rewrite Hin1 in *. repeat split; [exact Herr | congruence |].
    now exists k, line.
  - destruct (gate_decides_at_once path true w w1 Hflag Hex (or_intror Hint)) as (Hgate & _).
    rewrite Hgate in H. discriminate H.
Qed.

Lemma gate_approves_existing_only_on_yes_witness :
  interactive (Examples.world true [inl "?"; inl "y"; inl "n"]) = true /\
  @None error = None /\
  autoApproved (snd (maybeConfirmOverwrite "/out/job.nomad"
                       (Examples.world true [inl "?"; inl "y"; inl "n"]))) = false /\
  exists (k : nat) (line : string),
    nth_error (inputs (Examples.world true [inl "?"; inl "y"; inl "n"])) k = Some (inl line) /\
    GoStrings.ToLower line = "y" /\
    inputs (snd (maybeConfirmOverwrite "/out/job.nomad"
                   (Examples.world true [inl "?"; inl "y"; inl "n"])))
      = skipn (S k) (inputs (Examples.world true [inl "?"; inl "y"; inl "n"])).
Proof.
  apply (gate_approves_existing_only_on_yes "/out/job.nomad"
           (Examples.world true [inl "?"; inl "y"; inl "n"])
           (addTrace (Sys (SysStat "/out/job.nomad")) (Examples.world true [inl "?"; inl "y"; inl "n"])));
    reflexivity.
Defined.

(** ** A session that is not interactive *)

Lemma unattended_refl (w : World) : unattended w w.
Proof. intros H. repeat split; [exact H|]. exists []. now rewrite app_nil_r. Qed.

Lemma unattended_trans (a b c : World) : unattended a b -> unattended b c -> unattended a c.
Proof.
  intros Hab Hbc Ha. destruct (Hab Ha) as (Hb & Hf1 & Hin1 & evs1 & Ht1 & Hq1).
  destruct (Hbc Hb) as (Hc & Hf2 & Hin2 & evs2 & Ht2 & Hq2).
  repeat split; [exact Hc | congruence | congruence |].
  exists (evs1 ++ evs2)%list. split.
  - now rewrite Ht2, Ht1, app_assoc.
  - now rewrite forallb_app, Hq1, Hq2.
Qed.

Lemma systemOnly_unattended (w w' : World) : systemOnly w w' -> unattended w w'.
Proof.
  intros (Ha & Hi & Hin & _ & evs & Ht & Hf) H.
  repeat split; [congruence | exact Ha | exact Hin |].
  exists evs. split; [exact Ht|].
  rewrite forallb_forall in *. intros e He. specialize (Hf e He). now destruct e.
Qed.

Lemma unattended_system {A : Type} (m : M A) : preserves systemOnly m -> preserves unattended m.
Proof. apply preserves_weaken. exact systemOnly_unattended. Qed.

Lemma unattended_maybeConfirmOverwrite (path : string) :
  preserves unattended (maybeConfirmOverwrite path).
Proof.
  intros w r w' E Hni.
  assert (Hcases : autoApproved w = true \/ autoApproved w = false)
    by (destruct (autoApproved w); auto).
  destruct Hcases as [Hflag | Hflag].
  - rewrite (maybeConfirmOverwrite_approved path w Hflag) in E. injection E as _ <-.
    now apply unattended_refl.
  - destruct (Exists_eq path false w) as (found & evs & Hex & _).
    destruct (gate_decides_at_once path found w _ Hflag Hex (or_intror Hni)) as (Hgate & _).
    rewrite Hgate in E. injection E as _ <-.
    exact (systemOnly_unattended _ _ (systemOnly_Exists path false w _ _ Hex) Hni).
Qed.

Lemma unattended_log (e : event) : isUiInput e = false -> preserves unattended (log e).
Proof.
  intros He w r w' E H. injection E as _ <-. repeat split; [exact H|].
  exists [e]. split; [reflexivity|]. cbn. now rewrite He.
Qed.

Lemma unattended_Add (label value : string) : preserves unattended (UIErrorContext.Add label value).
Proof.
  intros w r w' E H. injection E as _ <-. repeat split; [exact H|].
  exists []. cbn. now rewrite app_nil_r.
Qed.

Lemma unattended_readFlag : preserves unattended getAutoApproved.
Proof. intros w r w' E. injection E as _ <-. apply unattended_refl. Qed.

Create HintDb batch.
#[local] Hint Resolve unattended_maybeConfirmOverwrite unattended_Add unattended_readFlag : batch.
#[local] Hint Extern 1 (preserves unattended (log _)) => (apply unattended_log; reflexivity) : batch.
#[local] Hint Extern 5 (preserves unattended _) =>
  (apply unattended_system; solve [eauto with sysframe]) : batch.

Ltac batch := frame unattended_refl unattended_trans ltac:(eauto with batch).

Lemma unattended_toFile (c : RenderCommand) (r : Render) : preserves unattended (toFile c r).
Proof. unfold toFile. destruct (GoPath.Split (Name r)). batch. Qed.

#[local] Hint Resolve unattended_toFile : batch.

Lemma unattended_Output (c : RenderCommand) (r : Render) : preserves unattended (Output c r).
Proof. unfold Output, toTerminal, UI.Output. batch. Qed.

#[local] Hint Resolve unattended_Output : batch.

Lemma unattended_outputRenders (c : RenderCommand) (renders : list Render) :
  preserves unattended (outputRenders c renders).
Proof.
  induction renders as [|r rs IH]; cbn [outputRenders]; unfold UI.ErrorWithContext; batch.
Qed.

(** X7: a session that is not interactive is never asked.  Whatever the
    batch, the destination and the state of the disk, the dispatch of the
    renders ends normally without a single prompt; the input is not
    touched and the session flag is as before. *)
Theorem unattended_batch_never_prompts :
  forall (c : RenderCommand) (renders : list Render) (w : World),
    interactive w = false ->
    exists w' : World,
      outputRenders c renders w = (Ok tt, w') /\
      inputs w' = inputs w /\
      autoApproved w' = autoApproved w /\
      exists evs : list event,
        trace w' = (trace w ++ evs)%list /\
        forallb (fun e => negb (isUiInput e)) evs = true.
Proof.
  intros c renders w H.
  destruct (total_outputRenders c renders w) as ([] & w' & E).
  exists w'. split; [exact E|].
  destruct (unattended_outputRenders c renders w _ _ E H) as (_ & Ha & Hin & Hevs).
  now repeat split.
Qed.

Lemma unattended_batch_never_prompts_witness :
  exists w' : World,
    outputRenders Examples.toOut [Examples.job; Examples.other] (Examples.world false [inl "y"])
      = (Ok tt, w') /\
    inputs w' = inputs (Examples.world false [inl "y"]) /\
    autoApproved w' = autoApproved (Examples.world false [inl "y"]) /\
    exists evs : list event,
      trace w' = (trace (Examples.world false [inl "y"]) ++ evs)%list /\
      forallb (fun e => negb (isUiInput e)) evs = true.
Proof.
  apply (unattended_batch_never_prompts Examples.toOut [Examples.job; Examples.other]
           (Examples.world false [inl "y"])).
  reflexivity.
Defined.

(** ** The exit code of [Run] *)

Lemma withoutEffect_refl (w : World) : withoutEffect w w.
Proof. repeat split. exists []. now rewrite app_nil_r. Qed.

Lemma withoutEffect_trans (a b c : World) :
  withoutEffect a b -> withoutEffect b c -> withoutEffect a c.
Proof.
  intros (Hf1 & Ha1 & Hin1 & evs1 & Ht1 & Hq1) (Hf2 & Ha2 & Hin2 & evs2 & Ht2 & Hq2).
  repeat split; try congruence.
  exists (evs1 ++ evs2)%list. split.
  - now rewrite Ht2, Ht1, app_assoc.
  - now rewrite forallb_app, Hq1, Hq2.
Qed.

Lemma withoutEffect_log (e : event) :
  negb (isUiOutput e) && negb (isUiInput e) && negb (isFileWrite e) = true ->
  preserves withoutEffect (log e).
Proof.
  intros He w r w' E. injection E as _ <-. repeat split.
  exists [e]. split; [reflexivity|]. cbn. now rewrite He.
Qed.

Lemma withoutEffect_Exists (path : string) (b : bool) :
  preserves withoutEffect (filesystem.Exists path b).
Proof.
  intros w r w' E. rewrite Exists_eval in E.
  destruct (path =? ""); injection E as _ <-; [apply withoutEffect_refl|].
  repeat split. now eexists [_].
Qed.

Lemma withoutEffect_IsDir (path : string) (b : bool) :
  preserves withoutEffect (filesystem.IsDir path b).
Proof.
  intros w r w' E. rewrite IsDir_eval in E.
  destruct (path =? ""); injection E as _ <-; [apply withoutEffect_refl|].
  repeat split. now eexists [_].
Qed.

Create HintDb setup.
#[local] Hint Resolve withoutEffect_Exists withoutEffect_IsDir : setup.
#[local] Hint Extern 1 (preserves withoutEffect (log _)) =>
  (apply withoutEffect_log; reflexivity) : setup.

Ltac setup := frame withoutEffect_refl withoutEffect_trans ltac:(eauto with setup).

Lemma total_assembleRenders (c : RenderCommand) (x : Collaborators) : total (assembleRenders c x).
Proof. unfold assembleRenders. totality. Qed.

(** Once [Run] gets to the dispatch it exits with 0. *)
Lemma dispatch_exits_zero (c : RenderCommand) (x : Collaborators) :
  returns (fun z => z = 0%Z)
          (renders <- assembleRenders c x ;; outputRenders c renders ;; ret 0%Z).
Proof.
  apply (returns_bind _ _ _ _ (total_returns _ (total_assembleRenders c x))).
  intros renders _.
  apply (returns_bind _ _ _ _ (total_returns _ (total_outputRenders c renders))).
  intros _ _. now apply returns_ret.
Qed.

(** X8: a run that fails has no effect.  When [Run] does not exit with 0
    (it then exits with 1, or panics in the check of the pack path), the
    filesystem, the session flag and the input are as before, no render
    was displayed, nothing was prompted and no file was written. *)
Theorem Run_failure_without_effect :
  forall (c : RenderCommand) (x : Collaborators) (w w' : World) (r : outcome Z),
    Run c x w = (r, w') ->
    r <> Ok 0%Z ->
    (r = Ok 1%Z \/ exists msg : string, r = Panic msg) /\ withoutEffect w w'.
Proof.
  intros c x w w' r H Hr.
  assert (Hgoal : (r = Ok 0%Z \/ r = Ok 1%Z \/ exists msg : string, r = Panic msg) /\
                  (r <> Ok 0%Z -> withoutEffect w w')).
  2:{ destruct Hgoal as [[H0 | H1] Heff]; [contradiction | split; [exact H1 | now apply Heff]]. }
  clear Hr. revert H. unfold Run.
  destruct (initResult x) as [e|].
  { intros H. split; [injection H as <- _; auto|]. intros _. revert H.
    refine ((_ : preserves withoutEffect _) w _ w'). unfold UI.ErrorWithContext, UI.Info. setup. }
  destruct (verifyPackExists x) as [e|].
  { intros H. injection H as <- <-. split; [auto|]. intros _. apply withoutEffect_refl. }
  destruct (newClient x) as [e|].
  { intros H. injection H as <- <-. split; [auto|]. intros _.
    repeat split. now eexists [_]. }
  intros H. unfold bind at 1 in H.
  destruct (filesystem.Exists (packConfigPath c) true w) as [[found | msg |] w1] eqn:Ex;
    pose proof (withoutEffect_Exists _ _ _ _ _ Ex) as Heff1.
  2:{ injection H as <- <-. split; [eauto|]. intros _. exact Heff1. }
  2:{ rewrite Exists_eval in Ex. destruct (packConfigPath c =? ""); discriminate Ex. }
  unfold bind at 1 in H.
  destruct ((if found
             then isDir <- filesystem.IsDir (packConfigPath c) true ;; ret (negb isDir)
             else ret false) w1) as [[notDir | msg |] w2] eqn:Ed.
  - assert (Heff2 : withoutEffect w1 w2).
    { revert Ed. refine ((_ : preserves withoutEffect _) w1 _ w2). setup. }
    pose proof (withoutEffect_trans _ _ _ Heff1 Heff2) as Heff.
    destruct notDir.
    + injection H as <- <-. split; [auto|]. intros _.
      eapply withoutEffect_trans; [exact Heff|]. repeat split. now eexists [_].
    + destruct (renderPack x) as [e|].
      { injection H as <- <-. split; [auto|]. intros _. exact Heff. }
      destruct ((Z.of_nat (length (ParentRenders x)) <? 1)%Z
                && (Z.of_nat (length (DependentRenders x)) <? 1)%Z).
      * injection H as <- <-. split; [auto|]. intros _.
        eapply withoutEffect_trans; [exact Heff|]. repeat split. now eexists [_].
      * destruct (dispatch_exits_zero c x w2) as (z & w3 & E & ->).
        rewrite E in H. injection H as <- _. split; [auto|]. intros Hne. now contradiction Hne.
  - injection H as <- <-. split; [eauto|]. intros _.
    eapply withoutEffect_trans; [exact Heff1|].
    revert Ed. refine ((_ : preserves withoutEffect _) w1 _ w2). setup.
  - exfalso. destruct found; [|discriminate Ed].
    unfold bind in Ed. rewrite IsDir_eval in Ed.
    destruct (packConfigPath c =? ""); [discriminate Ed|].
    unfold isDirAnswer in Ed.
    destruct (Fs.resolve _ _ _) as [p [| |] | | []]; discriminate Ed.
Qed.

Lemma Run_failure_without_effect_witness :
  (fst (Run Examples.toOut (Examples.rendering [] []) (Examples.world true [inl "y"])) = Ok 1%Z \/
   exists msg : string,
     fst (Run Examples.toOut (Examples.rendering [] []) (Examples.world true [inl "y"])) = Panic msg) /\
  withoutEffect (Examples.world true [inl "y"])
                (snd (Run Examples.toOut (Examples.rendering [] []) (Examples.world true [inl "y"]))).
Proof.
  apply (Run_failure_without_effect Examples.toOut (Examples.rendering [] [])
           (Examples.world true [inl "y"])); [reflexivity | discriminate].
Defined.

(** With collaborators that succeed and a pack path that passes the check,
    [Run] gets to the count of the renders, after at most two stats. *)
Lemma Run_after_setup (c : RenderCommand) (x : Collaborators) (w : World) :
  collaboratorsSucceed x ->
  packPathPasses c (fs w) = true ->
  exists evs : list event,
    forallb isSys evs = true /\
    Run c x w =
      (if ((Z.of_nat (length (ParentRenders x)) <? 1) && (Z.of_nat (length (DependentRenders x)) <? 1))%Z
       then ctx <- UIErrorContext.GetAll ;;
            UI.ErrorWithContext ErrNoTemplatesRendered "no templates rendered" ctx ;;
            ret 1%Z
       else renders <- assembleRenders c x ;; outputRenders c renders ;; ret 0%Z)
      (appendTrace evs w).
Proof.
  intros (Hinit & Hverify & Hclient & Hrender) Hpass.
  unfold Run. rewrite Hinit, Hverify, Hclient, Hrender.
  unfold bind at 1. rewrite Exists_eval.
  unfold packPathPasses in Hpass.
  destruct (packConfigPath c =? "") eqn:Epath.
  - exists []. split; [reflexivity|]. rewrite appendTrace_nil.
    unfold bind at 1. unfold bind at 1. rewrite IsDir_eval, Epath. reflexivity.
  - cbn [orb] in Hpass.
    destruct (Fs.resolve (fs w) true (absOf (fs w) (packConfigPath c)))
      as [p [perm d | perm es | t] | parent name | e] eqn:Eres; try discriminate Hpass.
    + exists [Sys (SysStat (absOf (fs w) (packConfigPath c)));
              Sys (SysStat (absOf (fs w) (packConfigPath c)))].
      split; [reflexivity|]. cbn [existsAnswer].
      unfold bind at 1. unfold bind at 1. rewrite IsDir_eval, Epath.
      cbn [fs addTrace]. rewrite Eres. cbn [isDirAnswer ret negb].
      unfold addTrace, appendTrace. cbn. now rewrite <- app_assoc.
    + exists [Sys (SysStat (absOf (fs w) (packConfigPath c)))]. split; reflexivity.
    + destruct e; try discriminate Hpass.
      exists [Sys (SysStat (absOf (fs w) (packConfigPath c)))]. split; reflexivity.
Qed.

(** X9: nothing rendered is an error.  With collaborators that succeed
    and a pack path that passes the check, a pack without a parent and
    without a dependent render makes [Run] report
    [ErrNoTemplatesRendered] and exit with 1, whether or not the output
    template was requested and whatever it would render: the template is
    not processed, nothing is displayed and the filesystem is as before. *)
Theorem Run_no_templates_rendered :
  forall (c : RenderCommand) (x : Collaborators) (w : World),
    collaboratorsSucceed x ->
    packPathPasses c (fs w) = true ->
    ParentRenders x = [] ->
    DependentRenders x = [] ->
    exists (w' : World) (evs : list event),
      Run c x w = (Ok 1%Z, w') /\
      fs w' = fs w /\
      forallb isSys evs = true /\
      trace w' =
        (trace w ++ evs
           ++ [UiErrorWithContext ErrNoTemplatesRendered "no templates rendered" (errorContext w)])%list.
Proof.
  intros c x w Hx Hpass Hparent Hdep.
  destruct (Run_after_setup c x w Hx Hpass) as (evs & Hsys & Hrun).
  rewrite Hparent, Hdep in Hrun. cbn [length Z.of_nat Z.ltb Z.compare andb] in Hrun.
  eexists. exists evs. split; [exact Hrun|].
  cbn. repeat split; [exact Hsys|]. now rewrite <- app_assoc.
Qed.

Lemma Run_no_templates_rendered_witness :
  exists (w' : World) (evs : list event),
    Run (mkCommand "/packs/example" true "/out")
        (mkCollaborators None "" "" None None None [] [] ("outputs", None))
        (Examples.world true []) = (Ok 1%Z, w') /\
    fs w' = fs (Examples.world true []) /\
    forallb isSys evs = true /\
    trace w' =
      (trace (Examples.world true []) ++ evs
         ++ [UiErrorWithContext ErrNoTemplatesRendered "no templates rendered"
               (errorContext (Examples.world true []))])%list.
Proof.
  apply (Run_no_templates_rendered (mkCommand "/packs/example" true "/out")
           (mkCollaborators None "" "" None None None [] [] ("outputs", None))
           (Examples.world true []));
    first [reflexivity | now repeat split].
Defined.

(** X10: the dispatch cannot fail the run.  With collaborators that
    succeed, a pack path that passes the check and at least one parent or
    dependent render, [Run] exits with 0, whatever happens while the
    renders are output: declined overwrites, failed writes and failed
    reads of the confirmation change neither the exit code nor the fact
    that [Run] returns. *)
Theorem Run_exits_zero :
  forall (c : RenderCommand) (x : Collaborators) (w : World),
    collaboratorsSucceed x ->
    packPathPasses c (fs w) = true ->
    ParentRenders x <> [] \/ DependentRenders x <> [] ->
    exists w' : World, Run c x w = (Ok 0%Z, w').
Proof.
  intros c x w Hx Hpass Hsome.
  destruct (Run_after_setup c x w Hx Hpass) as (evs & _ & Hrun).
  rewrite Hrun.
  assert (Hcount : ((Z.of_nat (length (ParentRenders x)) <? 1)
                    && (Z.of_nat (length (DependentRenders x)) <? 1))%Z = false).
  { apply andb_false_iff.
    destruct Hsome as [Hp | Hd]; [left | right]; apply Z.ltb_ge.
    - destruct (ParentRenders x); [contradiction | cbn [length]; lia].
    - destruct (DependentRenders x); [contradiction | cbn [length]; lia]. }
  rewrite Hcount.
  destruct (dispatch_exits_zero c x (appendTrace evs w)) as (z & w' & E & ->).
  now exists w'.
Qed.

Lemma Run_exits_zero_witness :
  exists w' : World,
    Run Examples.toOut Examples.two (Examples.world true [inr Canceled]) = (Ok 0%Z, w').
Proof.
  apply (Run_exits_zero Examples.toOut Examples.two (Examples.world true [inr Canceled]));
    [now repeat split | reflexivity | left; discriminate].
Defined.

(** ** [CreatePath], [WriteFile], [CopyFile], [CopyDir] on what is there *)

Lemma statOf_Found (op : string) (follow : bool) (path : string) (f : Fs.t)
      (p : list string) (n : node) :
  Fs.resolve f follow path = Fs.Found p n ->
  OS.statOf op follow path f = (Some (OS.infoOf n), None).
Proof. intros H. unfold OS.statOf. now rewrite H. Qed.

(** X11: [CreatePath] on a path that [os.Stat] finds changes nothing.  On
    an existing directory it returns nil, or, when asked to fail on an
    existing directory, an [ErrDirExists] error, which [errors.Is] takes
    for [fs.ErrExist]; on any other existing object it returns a
    [*fs.PathError] of [mkdir] with [ENOTDIR], whatever [errIfExists] is. *)
Theorem CreatePath_existing :
  forall (path : string) (errIfExists : bool) (w : World) (p : list string) (n : node),
    Fs.resolve (fs w) true path = Fs.Found p n ->
    exists w' : World,
      filesystem.CreatePath path errIfExists w =
        (Ok match n with
            | Dir _ _ =>
                if errIfExists
                then Some (ErrDirExists "mkdir" path (ErrorString "directory already exists"))
                else None
            | _ => Some (PathError "mkdir" path (Errno ENOTDIR))
            end, w') /\
      fs w' = fs w /\
      GoErrors.Is (Some (ErrDirExists "mkdir" path (ErrorString "directory already exists")))
                  ErrExist = true.
Proof.
  intros path errIfExists w p n Hres.
  pose proof (statOf_Found "stat" true path (fs w) p n Hres) as Hstat.
  unfold filesystem.CreatePath.
  rewrite (bind_Ok _ _ _ _ _ (Stat_eq path w)), Hstat.
  assert (Hmk : OS.MkdirAll path Fs.p0755 (addTrace (Sys (SysStat path)) w) =
                (Ok (if OS.IsDir (OS.infoOf n) then None
                     else Some (PathError "mkdir" path (Errno ENOTDIR))),
                 addTrace (Sys (SysStat path)) (addTrace (Sys (SysStat path)) w))).
  { unfold OS.MkdirAll. cbn [OS.MkdirAllRec].
    rewrite (bind_Ok _ _ _ _ _ (Stat_eq path _)). cbn [fs addTrace]. rewrite Hstat.
    now destruct (OS.IsDir (OS.infoOf n)). }
  destruct n as [perm d | perm es | t]; cbn [OS.infoOf OS.IsDir andb] in *.
  - eexists. split; [exact Hmk | split; reflexivity].
  - destruct errIfExists.
    + eexists. split; [reflexivity | split; reflexivity].
    + eexists. split; [exact Hmk | split; reflexivity].
  - eexists. split; [exact Hmk | split; reflexivity].
Qed.

Lemma CreatePath_existing_witness :
  exists w' : World,
    filesystem.CreatePath "/out" true (Examples.world false []) =
      (Ok match Dir Fs.p0755 [("job.nomad", File Fs.p0644 "old")] with
          | Dir _ _ =>
              if true
              then Some (ErrDirExists "mkdir" "/out" (ErrorString "directory already exists"))
              else None
          | _ => Some (PathError "mkdir" "/out" (Errno ENOTDIR))
          end, w') /\
    fs w' = fs (Examples.world false []) /\
    GoErrors.Is (Some (ErrDirExists "mkdir" "/out" (ErrorString "directory already exists")))
                ErrExist = true.
Proof.
  apply (CreatePath_existing "/out" true (Examples.world false []) ["out"]).
  reflexivity.
Defined.

(** X12: without [overwrite], [WriteFile] never touches what exists.  When
    [os.Stat] finds any object at the destination (a file, a directory, the
    target of a link), [WriteFile] with [overwrite] false returns a
    [*fs.PathError] that [errors.Is] takes for [fs.ErrExist]; its only
    operating-system call is the stat, and the filesystem is unchanged. *)
Theorem WriteFile_keeps_existing :
  forall (destination content : string) (w : World) (p : list string) (n : node),
    Fs.resolve (fs w) true destination = Fs.Found p n ->
    filesystem.WriteFile destination content false w =
      (Ok (Some (PathError "writefile" destination ErrExist)),
       addTrace (Sys (SysStat destination)) w) /\
    GoErrors.Is (Some (PathError "writefile" destination ErrExist)) ErrExist = true.
Proof.
  intros destination content w p n Hres. split; [|reflexivity].
  unfold filesystem.WriteFile.
  rewrite (bind_Ok _ _ _ _ _ (Stat_eq destination w)).
  now rewrite (statOf_Found _ _ _ _ _ _ Hres).
Qed.

Lemma WriteFile_keeps_existing_witness :
  filesystem.WriteFile "/out/job.nomad" "new" false (Examples.world false []) =
    (Ok (Some (PathError "writefile" "/out/job.nomad" ErrExist)),
     addTrace (Sys (SysStat "/out/job.nomad")) (Examples.world false [])) /\
  GoErrors.Is (Some (PathError "writefile" "/out/job.nomad" ErrExist)) ErrExist = true.
Proof.
  apply (WriteFile_keeps_existing "/out/job.nomad" "new" (Examples.world false [])
           ["out"; "job.nomad"] (File Fs.p0644 "old")).
  reflexivity.
Defined.

Lemma returns_Open (path : string) : returns fileWhenNil (OS.Open path).
Proof.
  intros w. unfold OS.Open, bind, log, getFs, fileWhenNil. cbn [fs addTrace].
  destruct (Fs.resolve (fs w) true path) as [p [perm d | perm es | t] | parent name | e];
    try destruct (Fs.canRead (fs w) perm);
    eexists _, _; (split; [reflexivity | cbn; congruence]).
Qed.

Lemma systemOnly_Open (path : string) : preserves systemOnly (OS.Open path).
Proof. unfold OS.Open. sysframe. Qed.

Lemma Open_keeps_fs (path : string) (w w0 : World) (r : outcome (option file * option error)) :
  OS.Open path w = (r, w0) -> fs w0 = fs w.
Proof.
  unfold OS.Open, bind, log, getFs. cbn [fs addTrace].
  destruct (Fs.resolve (fs w) true path) as [p [perm d | perm es | t] | parent name | e];
    try destruct (Fs.canRead (fs w) perm);
    intros H; now injection H as _ <-.
Qed.

(** X13: [CopyFile] reports a failure only when the source cannot be
    opened.  Its result is the error of [os.Open] of the source: when that
    fails, the error is returned and the filesystem is unchanged; once the
    source is open, [CopyFile] returns nil whatever happens to the
    destination, because the deferred close handlers assign the named
    result last. *)
Theorem CopyFile_result_is_Open_error :
  forall (sourcePath destinationPath : string) (w w0 : World)
         (f : option file) (err : option error),
    OS.Open sourcePath w = (Ok (f, err), w0) ->
    exists w' : World,
      filesystem.CopyFile sourcePath destinationPath w = (Ok err, w') /\
      (err <> None -> fs w' = fs w).
Proof.
  intros sourcePath destinationPath w w0 f err Hopen.
  destruct err as [e|].
  - eexists. split.
    + unfold filesystem.CopyFile. rewrite (bind_Ok _ _ _ _ _ Hopen). reflexivity.
    + intros _. cbn. exact (Open_keeps_fs _ _ _ _ Hopen).
  - destruct (returns_Open sourcePath w) as ([f' err'] & w1 & E & Hf).
    rewrite Hopen in E. injection E as <- <- <-.
    unfold fileWhenNil in Hf. cbn in Hf.
    destruct f as [f|]; [|now contradiction Hf].
    destruct (CopyFile_nil_after_Open sourcePath destinationPath w w0 f Hopen) as (w' & E).
    exists w'. split; [exact E | intros H; now contradiction H].
Qed.

Lemma CopyFile_result_is_Open_error_witness :
  exists w' : World,
    filesystem.CopyFile "/ro/a" "/ro/b" (Examples.world false []) = (Ok None, w') /\
    (@None error <> None -> fs w' = fs (Examples.world false [])).
Proof.
  apply (CopyFile_result_is_Open_error "/ro/a" "/ro/b" (Examples.world false [])
           (addTrace (Sys (SysOpen "/ro/a")) (Examples.world false []))
           (Some (mkFile "/ro/a" ["ro"; "a"]))).
  reflexivity.
Defined.

(** [/f] is a regular file. *)
Lemma CopyDir_source_not_directory_witness :
  exists (e : error) (w' : World),
    filesystem.CopyDir 1 "/f" "/copy" (Examples.world false []) = (Ok (Some e), w') /\
    fs w' = fs (Examples.world false []).
Proof.
  apply (CopyDir_source_not_directory 0 "/f" "/copy" (Examples.world false [])).
  reflexivity.
Defined.

(** [/out] exists. *)
Lemma CopyDir_destination_exists_witness :
  exists w' : World,
    filesystem.CopyDir 1 "/packs" "/out" (Examples.world false [])
      = (Ok (Some (ErrorString "destination already exists")), w') /\
    fs w' = fs (Examples.world false []).
Proof.
  apply (CopyDir_destination_exists 0 "/packs" "/out" (Examples.world false [])
           (OS.mkInfo true Fs.p0755)); reflexivity.
Defined.

(** ** The filesystem tree: resolution, lookup and update *)

Module FsFacts.
Import Fs.

Lemma walk_nil (f : t) (follow : bool) (hops : nat) (cur : list string) :
  walk f follow hops cur [] =
    match lookup (root f) cur with
    | Some n => Found cur n
    | None => Failed ENOENT
    end.
Proof. now destruct hops. Qed.

Lemma walk_cons (f : t) (follow : bool) (hops : nat) (cur : list string)
      (e : string) (rest : list string) :
  walk f follow hops cur (e :: rest) =
    match lookup (root f) cur with
    | Some (Dir perm es) =>
        if negb (canSearch f perm) then Failed EACCES
        else if GoPath.isDot e then walk f follow hops cur rest
        else if e =? ".." then walk f follow hops (removelast cur) rest
        else match child e es with
             | None => if isNil rest then Missing cur e else Failed ENOENT
             | Some (Symlink target) =>
                 if follow || negb (isNil rest) then
                   match hops with
                   | O => Failed ELOOP
                   | S hops' =>
                       if target =? "" then Failed ENOENT
                       else walk f follow hops'
                              (if GoPath.IsAbs target then [] else cur)
                              (GoPath.elements target ++ rest)%list
                   end
                 else Found (cur ++ [e])%list (Symlink target)
             | Some _ => walk f follow hops (cur ++ [e])%list rest
             end
    | Some _ => Failed ENOTDIR
    | None => Failed ENOENT
    end.
Proof. now destruct hops. Qed.

Lemma lookup_app (r : node) (p q : list string) :
  lookup r (p ++ q)%list =
    match lookup r p with
    | Some n => lookup n q
    | None => None
    end.
Proof.
  revert r; induction p as [|c p IH]; intros r; cbn; [reflexivity|].
  destruct r as [| perm es |]; try reflexivity.
  destruct (child c es); [apply IH | reflexivity].
Qed.

Lemma lookup_snoc (r : node) (p : list string) (perm : N) (es : list (string * node)) (e : string) :
  lookup r p = Some (Dir perm es) -> lookup r (p ++ [e])%list = child e es.
Proof. intros H. rewrite lookup_app, H. cbn. now destruct (child e es). Qed.

(** Resolution is sound: an object it finds is the one at the canonical
    path it returns; when only the last element is missing, the parent is
    a directory without an entry of that name. *)
Lemma walk_sound (f : t) (follow : bool) (hops : nat) :
  forall (elems cur : list string),
    match walk f follow hops cur elems with
    | Found p n => lookup (root f) p = Some n
    | Missing parent name =>
        exists perm es, lookup (root f) parent = Some (Dir perm es) /\ child name es = None
    | Failed _ => True
    end.
Proof.
  induction hops as [|hops IHh].
  - induction elems as [|e rest IH]; intros cur.
    + rewrite walk_nil. destruct (lookup (root f) cur) eqn:El; [exact El | exact I].
    + rewrite walk_cons.
      destruct (lookup (root f) cur) as [[| perm es |]|] eqn:El; try exact I.
      destruct (negb (canSearch f perm)); [exact I|].
      destruct (GoPath.isDot e); [apply IH|].
      destruct (e =? ".."); [apply IH|].
      destruct (child e es) as [[| |target]|] eqn:Ec; try apply IH.
      * destruct (follow || negb (isNil rest)); [exact I|].
        now rewrite (lookup_snoc _ _ _ _ e El).
      * destruct (isNil rest); [now exists perm, es | exact I].
  - induction elems as [|e rest IH]; intros cur.
    + rewrite walk_nil. destruct (lookup (root f) cur) eqn:El; [exact El | exact I].
    + rewrite walk_cons.
      destruct (lookup (root f) cur) as [[| perm es |]|] eqn:El; try exact I.
      destruct (negb (canSearch f perm)); [exact I|].
      destruct (GoPath.isDot e); [apply IH|].
      destruct (e =? ".."); [apply IH|].
      destruct (child e es) as [[| |target]|] eqn:Ec; try apply IH.
      * destruct (follow || negb (isNil rest)).
        -- destruct (target =? ""); [exact I | apply IHh].
        -- now rewrite (lookup_snoc _ _ _ _ e El).
      * destruct (isNil rest); [now exists perm, es | exact I].
Qed.

Lemma resolve_Found (f : t) (follow : bool) (path : string) (p : list string) (n : node) :
  resolve f follow path = Found p n -> lookup (root f) p = Some n.
Proof.
  unfold resolve. destruct (path =? ""); [discriminate|]. intros H.
  pose proof (walk_sound f follow maxSymlinks (GoPath.elements path)
                (if GoPath.IsAbs path then [] else cwd f)) as Hs.
  now rewrite H in Hs.
Qed.

Lemma resolve_Missing (f : t) (follow : bool) (path : string) (parent : list string) (name : string) :
  resolve f follow path = Missing parent name ->
  exists perm es, lookup (root f) parent = Some (Dir perm es) /\ child name es = None.
Proof.
  unfold resolve. destruct (path =? ""); [discriminate|]. intros H.
  pose proof (walk_sound f follow maxSymlinks (GoPath.elements path)
                (if GoPath.IsAbs path then [] else cwd f)) as Hs.
  now rewrite H in Hs.
Qed.

Lemma child_setChild_same (c : string) (x : node) (es : list (string * node)) :
  child c (setChild c x es) = Some x.
Proof.
  induction es as [|[n y] es IH]; cbn.
  - now rewrite String.eqb_refl.
  - destruct (n =? c) eqn:E; cbn; now rewrite E.
Qed.

Lemma child_setChild_other (c c' : string) (x : node) (es : list (string * node)) :
  c <> c' -> child c (setChild c' x es) = child c es.
Proof.
  intros Hne. induction es as [|[n y] es IH]; cbn.
  - destruct (String.eqb_spec c' c); [congruence | reflexivity].
  - destruct (n =? c') eqn:E; cbn.
    + apply String.eqb_eq in E. subst n.
      destruct (String.eqb_spec c' c); [congruence | reflexivity].
    + destruct (n =? c); [reflexivity | exact IH].
Qed.

(** Reading back what was put: at the place of an existing object. *)
Lemma lookup_put_same (x : node) (p : list string) :
  forall (r n0 : node), lookup r p = Some n0 -> lookup (put r p x) p = Some x.
Proof.
  induction p as [|c p IH]; intros r n0 H; [reflexivity|].
  cbn in H. destruct r as [| perm es |]; try discriminate H.
  destruct (child c es) as [y|] eqn:Ec; [|discriminate H].
  cbn [put]. rewrite Ec. cbn [lookup]. rewrite child_setChild_same. exact (IH y n0 H).
Qed.

(** Reading back what was put: as a new entry of an existing directory. *)
Lemma lookup_put_new (x : node) (name : string) (parent : list string) :
  forall (r : node) (perm : N) (es : list (string * node)),
    lookup r parent = Some (Dir perm es) ->
    child name es = None ->
    lookup (put r (parent ++ [name])%list x) (parent ++ [name])%list = Some x.
Proof.
  induction parent as [|c parent IH]; intros r perm es H Hc.
  - cbn in H. injection H as ->. cbn. rewrite Hc. cbn. now rewrite child_setChild_same.
  - cbn in H. destruct r as [| perm' es' |]; try discriminate H.
    destruct (child c es') as [y|] eqn:Ec; [|discriminate H].
    cbn [app put]. rewrite Ec. cbn [lookup]. rewrite child_setChild_same.
    exact (IH y perm es H Hc).
Qed.

(** Putting an object where no directory is leaves every other file and
    link as it was. *)
Lemma lookup_put_other (x : node) (q : list string) :
  forall (r : node) (p : list string) (n : node),
    ~ isDirNode (lookup r p) ->
    q <> p ->
    lookup r q = Some n ->
    ~ isDirNode (Some n) ->
    lookup (put r p x) q = Some n.
Proof.
  induction q as [|c q IH]; intros r p n Hp Hne Hq Hn.
  - cbn in Hq. injection Hq as ->.
    destruct p as [|c' p]; [congruence|].
    destruct n as [| perm es |]; try reflexivity.
    exfalso. apply Hn. now exists perm, es.
  - cbn in Hq. destruct r as [| perm es |]; try discriminate Hq.
    destruct (child c es) as [y|] eqn:Ec; [|discriminate Hq].
    destruct p as [|c' p].
    + exfalso. apply Hp. now exists perm, es.
    + cbn [put]. destruct (String.eqb_spec c c') as [<- | Hcc].
      * rewrite Ec. cbn [lookup]. rewrite child_setChild_same.
        apply IH; [| congruence | exact Hq | exact Hn].
        cbn in Hp. now rewrite Ec in Hp.
      * destruct (child c' es) as [y'|] eqn:Ec'.
        -- cbn [lookup]. rewrite (child_setChild_other _ _ _ _ Hcc), Ec. exact Hq.
        -- destruct p; cbn [lookup].
           ++ rewrite (child_setChild_other _ _ _ _ Hcc), Ec. exact Hq.
           ++ rewrite Ec. exact Hq.
Qed.

End FsFacts.

(** ** [WriteFile]: what is written can be read back *)

(** X16: [WriteFile] creates a missing file.  When only the last element
    of the destination is missing and its directory is writable,
    [WriteFile] returns nil whatever [overwrite] is; afterwards the
    destination holds a regular file with the given content and the bits
    [0644] without those of the mask, every other file and link is
    unchanged, and the calls made are one stat and one [os.WriteFile]. *)
Theorem WriteFile_creates :
  forall (destination content : string) (overwrite : bool) (w : World)
         (parent : list string) (name : string) (pperm : N) (es : list (string * node)),
    Fs.resolve (fs w) true destination = Fs.Missing parent name ->
    Fs.lookup (Fs.root (fs w)) parent = Some (Dir pperm es) ->
    Fs.canWrite (fs w) pperm = true ->
    exists w' : World,
      filesystem.WriteFile destination content overwrite w = (Ok None, w') /\
      Fs.lookup (Fs.root (fs w')) (parent ++ [name])%list
        = Some (File (Fs.created (fs w) Fs.p0644) content) /\
      keepsLeaves (Fs.root (fs w)) (Fs.root (fs w')) /\
      trace w' = (trace w ++ [Sys (SysStat destination);
                              Sys (SysWriteFile destination content Fs.p0644)])%list.
Proof.
  intros destination content overwrite w parent name pperm es Hres Hparent Hwr.
  destruct (FsFacts.resolve_Missing _ _ _ _ _ Hres) as (perm' & es' & Hparent' & Hchild).
  rewrite Hparent in Hparent'. injection Hparent' as <- <-.
  pose proof (FsFacts.lookup_put_new (File (Fs.created (fs w) Fs.p0644) "") _ _ _ _ _
                Hparent Hchild) as H1.
  pose proof (FsFacts.lookup_put_same (File (Fs.created (fs w) Fs.p0644) content) _ _ _ H1) as H2.
  assert (Hnew : Fs.lookup (Fs.root (fs w)) (parent ++ [name])%list = None)
    by now rewrite (FsFacts.lookup_snoc _ _ _ _ name Hparent).
  eexists. split.
  - unfold filesystem.WriteFile.
    rewrite (bind_Ok _ _ _ _ _ (Stat_eq destination w)).
    unfold OS.statOf. rewrite Hres.
    assert (Hos : forall k : option error -> M (option error),
               bind (OS.WriteFile destination content Fs.p0644) k
                    (addTrace (Sys (SysStat destination)) w)
               = k None
                   (mkWorld
                      (Fs.setRoot
                         (Fs.put (Fs.put (Fs.root (fs w)) (parent ++ [name])%list
                                    (File (Fs.created (fs w) Fs.p0644) ""))
                                 (parent ++ [name])%list
                                 (File (Fs.created (fs w) Fs.p0644) content))
                         (fs w))
                      (autoApproved w) (interactive w) (inputs w) (errorContext w)
                      (trace w ++ [Sys (SysStat destination);
                                   Sys (SysWriteFile destination content Fs.p0644)])%list)).
    { intros k.
      unfold OS.WriteFile, OS.creat, OS.writeData, bind, log, getFs, putRoot, ret.
      cbn [fs addTrace].
      rewrite Hres, Hparent, Hwr.
      cbn [fs setFs addTrace Fs.root Fs.setRoot filePath]. rewrite H1.
      f_equal. unfold setFs, addTrace, Fs.setRoot. cbn. now rewrite <- app_assoc. }
    destruct overwrite; cbn [OS.IsDir]; rewrite Hos; reflexivity.
  - cbn [fs trace Fs.root Fs.setRoot].
    split; [exact H2 | split; [|reflexivity]].
    intros q n Hq Hn.
    assert (Hqp : q <> (parent ++ [name])%list) by (intros ->; congruence).
    apply FsFacts.lookup_put_other; [| exact Hqp | | exact Hn].
    + rewrite H1. intros (? & ? & ?). discriminate.
    + apply FsFacts.lookup_put_other; [| exact Hqp | exact Hq | exact Hn].
      rewrite Hnew. intros (? & ? & ?). discriminate.
Qed.

Lemma WriteFile_creates_witness :
  exists w' : World,
    filesystem.WriteFile "/out/new.nomad" "job" false (Examples.world false []) = (Ok None, w') /\
    Fs.lookup (Fs.root (fs w')) (["out"] ++ ["new.nomad"])%list
      = Some (File (Fs.created (fs (Examples.world false [])) Fs.p0644) "job") /\
    keepsLeaves (Fs.root (fs (Examples.world false []))) (Fs.root (fs w')) /\
    trace w' = (trace (Examples.world false [])
                  ++ [Sys (SysStat "/out/new.nomad");
                      Sys (SysWriteFile "/out/new.nomad" "job" Fs.p0644)])%list.
Proof.
  apply (WriteFile_creates "/out/new.nomad" "job" false (Examples.world false [])
           ["out"] "new.nomad" Fs.p0755 [("job.nomad", File Fs.p0644 "old")]); reflexivity.
Defined.

(** X17: [WriteFile] with [overwrite] replaces the content of an existing
    writable file.  It returns nil; afterwards the file holds the given
    content and still has its own permission bits, every other file and
    link is unchanged, and the calls made are one stat and one
    [os.WriteFile]. *)
Theorem WriteFile_overwrites :
  forall (destination content : string) (w : World)
         (p : list string) (fperm : N) (old : string),
    Fs.resolve (fs w) true destination = Fs.Found p (File fperm old) ->
    Fs.canWrite (fs w) fperm = true ->
    exists w' : World,
      filesystem.WriteFile destination content true w = (Ok None, w') /\
      Fs.lookup (Fs.root (fs w')) p = Some (File fperm content) /\
      keepsLeavesBut p (Fs.root (fs w)) (Fs.root (fs w')) /\
      trace w' = (trace w ++ [Sys (SysStat destination);
                              Sys (SysWriteFile destination content Fs.p0644)])%list.
Proof.
  intros destination content w p fperm old Hres Hwr.
  pose proof (FsFacts.resolve_Found _ _ _ _ _ Hres) as H0.
  pose proof (FsFacts.lookup_put_same (File fperm "") _ _ _ H0) as H1.
  pose proof (FsFacts.lookup_put_same (File fperm content) _ _ _ H1) as H2.
  eexists. split.
  - unfold filesystem.WriteFile.
    rewrite (bind_Ok _ _ _ _ _ (Stat_eq destination w)).
    unfold OS.statOf. rewrite Hres. cbn [OS.infoOf OS.IsDir].
    assert (Hos : forall k : option error -> M (option error),
               bind (OS.WriteFile destination content Fs.p0644) k
                    (addTrace (Sys (SysStat destination)) w)
               = k None
                   (mkWorld
                      (Fs.setRoot
                         (Fs.put (Fs.put (Fs.root (fs w)) p (File fperm "")) p
                                 (File fperm content))
                         (fs w))
                      (autoApproved w) (interactive w) (inputs w) (errorContext w)
                      (trace w ++ [Sys (SysStat destination);
                                   Sys (SysWriteFile destination content Fs.p0644)])%list)).
    { intros k.
      unfold OS.WriteFile, OS.creat, OS.writeData, bind, log, getFs, putRoot, ret.
      cbn [fs addTrace].
      rewrite Hres, Hwr.
      cbn [fs setFs addTrace Fs.root Fs.setRoot filePath]. rewrite H1.
      f_equal. unfold setFs, addTrace, Fs.setRoot. cbn. now rewrite <- app_assoc. }
    rewrite Hos. reflexivity.
  - cbn [fs trace Fs.root Fs.setRoot].
    split; [exact H2 | split; [|reflexivity]].
    intros q n Hqp Hq Hn.
    apply FsFacts.lookup_put_other; [| exact Hqp | | exact Hn].
    + rewrite H1. intros (? & ? & ?). discriminate.
    + apply FsFacts.lookup_put_other; [| exact Hqp | exact Hq | exact Hn].
      rewrite H0. intros (? & ? & ?). discriminate.
Qed.

Lemma WriteFile_overwrites_witness :
  exists w' : World,
    filesystem.WriteFile "/out/job.nomad" "new" true (Examples.world false []) = (Ok None, w') /\
    Fs.lookup (Fs.root (fs w')) ["out"; "job.nomad"] = Some (File Fs.p0644 "new") /\
    keepsLeavesBut ["out"; "job.nomad"] (Fs.root (fs (Examples.world false []))) (Fs.root (fs w')) /\
    trace w' = (trace (Examples.world false [])
                  ++ [Sys (SysStat "/out/job.nomad");
                      Sys (SysWriteFile "/out/job.nomad" "new" Fs.p0644)])%list.
Proof.
  apply (WriteFile_overwrites "/out/job.nomad" "new" (Examples.world false [])
           ["out"; "job.nomad"] Fs.p0644 "old"); reflexivity.
Defined.

(** ** Resolution in a tree that grows *)

Module FsGrowth.
Import Fs FsFacts.

Lemma lookup_put_dir (x : node) (q : list string) :
  forall (r : node) (p : list string) (perm : N) (es : list (string * node)),
    ~ isDirNode (lookup r p) ->
    lookup r q = Some (Dir perm es) ->
    exists es', lookup (put r p x) q = Some (Dir perm es').
Proof.
  induction q as [|c q IH]; intros r p perm es Hp Hq.
  - cbn in Hq. injection Hq as ->.
    destruct p as [|c' p]; [exfalso; apply Hp; now exists perm, es|].
    cbn. destruct (child c' es); [now eexists|]. destruct p; now eexists.
  - cbn in Hq. destruct r as [| perm0 es0 |]; try discriminate Hq.
    destruct (child c es0) as [y|] eqn:Ec; [|discriminate Hq].
    destruct p as [|c' p]; [exfalso; apply Hp; now exists perm0, es0|].
    cbn [put]. destruct (String.eqb_spec c c') as [<- | Hcc].
    + rewrite Ec. cbn [lookup]. rewrite FsFacts.child_setChild_same.
      apply (IH y p perm es); [|exact Hq]. cbn in Hp. now rewrite Ec in Hp.
    + destruct (child c' es0) as [y'|] eqn:Ec'.
      * cbn [lookup]. rewrite (FsFacts.child_setChild_other _ _ _ _ Hcc), Ec. now exists es.
      * destruct p; cbn [lookup].
        -- rewrite (FsFacts.child_setChild_other _ _ _ _ Hcc), Ec. now exists es.
        -- rewrite Ec. now exists es.
Qed.

Lemma extends_refl (r : node) : extends r r.
Proof. intros q [perm d | perm es | t] H; eauto. Qed.

Lemma extends_trans (a b c : node) : extends a b -> extends b c -> extends a c.
Proof.
  intros Hab Hbc q n H. specialize (Hab q n H).
  destruct n as [perm d | perm es | t].
  - destruct Hab as (perm' & d' & Hb). exact (Hbc q _ Hb).
  - destruct Hab as (es' & Hb). exact (Hbc q _ Hb).
  - exact (Hbc q _ Hab).
Qed.

(** A new entry extends the tree. *)
Lemma extends_put_new (r : node) (p : list string) (x : node) :
  lookup r p = None -> extends r (put r p x).
Proof.
  intros Hnew q n H.
  assert (Hp : ~ isDirNode (lookup r p)) by (rewrite Hnew; intros (? & ? & ?); discriminate).
  assert (Hqp : q <> p) by (intros ->; congruence).
  destruct n as [perm d | perm es | t].
  - exists perm, d. apply FsFacts.lookup_put_other; try assumption. intros (? & ? & ?); discriminate.
  - exact (lookup_put_dir x q r p perm es Hp H).
  - apply FsFacts.lookup_put_other; try assumption. intros (? & ? & ?); discriminate.
Qed.

(** A file written in place of a file extends the tree. *)
Lemma extends_put_file (r : node) (p : list string) (perm perm' : N) (d d' : string) :
  lookup r p = Some (File perm d) -> extends r (put r p (File perm' d')).
Proof.
  intros Hfile q n H.
  assert (Hp : ~ isDirNode (lookup r p)) by (rewrite Hfile; intros (? & ? & ?); discriminate).
  destruct (list_eq_dec string_dec q p) as [-> | Hqp].
  - rewrite Hfile in H. injection H as <-. exists perm', d'.
    exact (FsFacts.lookup_put_same _ _ _ _ Hfile).
  - destruct n as [nperm nd | nperm es | t].
    + exists nperm, nd. apply FsFacts.lookup_put_other; try assumption.
      intros (? & ? & ?); discriminate.
    + exact (lookup_put_dir _ q r p nperm es Hp H).
    + apply FsFacts.lookup_put_other; try assumption. intros (? & ? & ?); discriminate.
Qed.

Lemma walk_stable_step (f : t) (r' : node) (follow : bool) (hops : nat) :
  extends (root f) r' ->
  (forall hops', hops = S hops' ->
     forall elems cur,
       stableResult r' (walk f follow hops' cur elems) (walk (setRoot r' f) follow hops' cur elems)) ->
  forall elems cur,
    stableResult r' (walk f follow hops cur elems) (walk (setRoot r' f) follow hops cur elems).
Proof.
  intros Hext IHh. induction elems as [|e rest IH]; intros cur.
  - rewrite !walk_nil. cbn [root setRoot].
    destruct (lookup (root f) cur) as [n|] eqn:El; [|exact I].
    pose proof (Hext cur n El) as Hn. cbn [stableResult].
    destruct n as [perm d | perm es | t].
    + destruct Hn as (perm' & d' & Hn). rewrite Hn. now eexists.
    + destruct Hn as (es' & Hn). rewrite Hn. now eexists.
    + rewrite Hn. now eexists.
  - rewrite !walk_cons. cbn [root setRoot].
    destruct (lookup (root f) cur) as [[| perm es |]|] eqn:El; try exact I.
    destruct (Hext cur _ El) as (es' & El'). rewrite El'.
    change (canSearch (setRoot r' f) perm) with (canSearch f perm).
    destruct (negb (canSearch f perm)); [exact I|].
    destruct (GoPath.isDot e); [apply IH|].
    destruct (e =? ".."); [apply IH|].
    pose proof (FsFacts.lookup_snoc _ _ _ _ e El) as Hc.
    pose proof (FsFacts.lookup_snoc _ _ _ _ e El') as Hc'.
    destruct (child e es) as [[cperm d | cperm ces | target]|] eqn:Ec.
    + destruct (Hext _ _ Hc) as (perm' & d' & Hx). rewrite Hx in Hc'. rewrite <- Hc'. apply IH.
    + destruct (Hext _ _ Hc) as (ces' & Hx). rewrite Hx in Hc'. rewrite <- Hc'. apply IH.
    + pose proof (Hext _ _ Hc) as Hx. cbn in Hx. rewrite Hx in Hc'. rewrite <- Hc'.
      destruct (follow || negb (isNil rest)).
      * destruct hops as [|hops']; [exact I|].
        destruct (target =? ""); [exact I|]. now apply IHh.
      * cbn [stableResult]. now eexists.
    + destruct rest as [|e' rest']; cbn [isNil]; [|exact I].
      cbn [stableResult]. rewrite Hc'.
      destruct (child e es') as [[cperm d | cperm ces | target]|] eqn:Ec'; try exact I.
      * cbn [isNil]. rewrite walk_nil. cbn [root setRoot]. now rewrite Hc'.
      * cbn [isNil]. rewrite walk_nil. cbn [root setRoot]. now rewrite Hc'.
      * reflexivity.
Qed.

Lemma walk_stable (f : t) (r' : node) (follow : bool) (hops : nat) :
  extends (root f) r' ->
  forall elems cur,
    stableResult r' (walk f follow hops cur elems) (walk (setRoot r' f) follow hops cur elems).
Proof.
  intros Hext. induction hops as [|hops IHh]; apply walk_stable_step; try assumption.
  - intros hops' H. discriminate H.
  - intros hops' H. injection H as <-. exact IHh.
Qed.

Lemma resolve_stable (f : t) (r' : node) (follow : bool) (path : string) :
  extends (root f) r' ->
  stableResult r' (resolve f follow path) (resolve (setRoot r' f) follow path).
Proof.
  intros Hext. unfold resolve. destruct (path =? ""); [exact I|].
  apply walk_stable. exact Hext.
Qed.

Lemma walk_follow (f : t) (hops : nat) :
  forall elems cur, followResult (walk f false hops cur elems) (walk f true hops cur elems).
Proof.
  assert (Hrefl : forall r, followResult r r) by (intros [p [| |]| |]; reflexivity).
  induction hops as [|hops IHh]; induction elems as [|e rest IH]; intros cur;
    rewrite ?walk_nil, ?walk_cons;
    try (destruct (lookup (root f) cur) as [n|]; [destruct n|]; reflexivity).
  - destruct (lookup (root f) cur) as [[| perm es |]|]; try reflexivity.
    destruct (negb (canSearch f perm)); [reflexivity|].
    destruct (GoPath.isDot e); [apply IH|].
    destruct (e =? ".."); [apply IH|].
    destruct (child e es) as [[| |target]|]; try apply IH.
    + destruct rest; cbn; [exact I | reflexivity].
    + destruct (isNil rest); reflexivity.
  - destruct (lookup (root f) cur) as [[| perm es |]|]; try reflexivity.
    destruct (negb (canSearch f perm)); [reflexivity|].
    destruct (GoPath.isDot e); [apply IH|].
    destruct (e =? ".."); [apply IH|].
    destruct (child e es) as [[| |target]|]; try apply IH.
    + destruct rest; cbn; [exact I|].
      destruct (target =? ""); [reflexivity | apply IHh].
    + destruct (isNil rest); reflexivity.
Qed.

Lemma resolve_follow (f : t) (path : string) :
  followResult (resolve f false path) (resolve f true path).
Proof.
  unfold resolve. destruct (path =? ""); [reflexivity | apply walk_follow].
Qed.

End FsGrowth.

(** ** Nothing is ever removed *)

Lemma setRoot_root (f : Fs.t) : Fs.setRoot (Fs.root f) f = f.
Proof. now destruct f. Qed.

Lemma grows_refl (w : World) : grows w w.
Proof. split; [apply FsGrowth.extends_refl | now rewrite setRoot_root]. Qed.

Lemma grows_trans (a b c : World) : grows a b -> grows b c -> grows a c.
Proof.
  intros (Hab & Eb) (Hbc & Ec). split; [exact (FsGrowth.extends_trans _ _ _ Hab Hbc)|].
  rewrite Ec at 1. rewrite Eb. reflexivity.
Qed.

Lemma grows_same_fs (w w' : World) : fs w' = fs w -> grows w w'.
Proof. intros H. unfold grows. rewrite H. split; [apply FsGrowth.extends_refl | now rewrite setRoot_root]. Qed.

Lemma grows_putRoot (w : World) (r' : node) :
  extends (Fs.root (fs w)) r' -> grows w (setFs (Fs.setRoot r' (fs w)) w).
Proof. intros H. split; [exact H | reflexivity]. Qed.

Lemma grows_log (e : event) : preserves grows (log e).
Proof. intros w r w' E. injection E as _ <-. now apply grows_same_fs. Qed.

Lemma grows_Input (prompt : string) (st : style) : preserves grows (UI.Input prompt st).
Proof.
  intros w r w' E. unfold UI.Input in E. cbn [inputs addTrace] in E. apply grows_same_fs.
  destruct (inputs w) as [|[line | err] rest]; now injection E as _ <-.
Qed.

Lemma grows_putAutoApproved (b : bool) : preserves grows (putAutoApproved b).
Proof. intros w r w' E. injection E as _ <-. now apply grows_same_fs. Qed.

Lemma grows_getAutoApproved : preserves grows getAutoApproved.
Proof. intros w r w' E. injection E as _ <-. apply grows_refl. Qed.

Lemma grows_pendingInputs : preserves grows pendingInputs.
Proof. intros w r w' E. injection E as _ <-. apply grows_refl. Qed.

Lemma grows_Add (label value : string) : preserves grows (UIErrorContext.Add label value).
Proof. intros w r w' E. injection E as _ <-. now apply grows_same_fs. Qed.

Lemma grows_Mkdir (path : string) (perm : N) : preserves grows (OS.Mkdir path perm).
Proof.
  intros w r w' E. unfold OS.Mkdir, bind, log, getFs in E. cbn [fs addTrace] in E.
  destruct (Fs.resolve (fs w) false path) as [p n | parent name | e] eqn:Eres;
    try (injection E as _ <-; now apply grows_same_fs).
  destruct (FsFacts.resolve_Missing _ _ _ _ _ Eres) as (pperm & es & Hparent & Hchild).
  rewrite Hparent in E.
  destruct (Fs.canWrite (fs w) pperm); injection E as _ <-; [|now apply grows_same_fs].
  apply (grows_trans _ (addTrace (Sys (SysMkdir path perm)) w)); [now apply grows_same_fs|].
  apply (grows_putRoot (addTrace (Sys (SysMkdir path perm)) w)). cbn [fs addTrace].
  apply FsGrowth.extends_put_new. now rewrite (FsFacts.lookup_snoc _ _ _ _ name Hparent).
Qed.

Lemma grows_creat (path : string) (perm : N) : preserves grows (OS.creat path perm).
Proof.
  intros w r w' E. unfold OS.creat, bind, getFs in E.
  destruct (Fs.resolve (fs w) true path) as [p [fperm d | dperm es | t] | parent name | e] eqn:Eres;
    try (injection E as _ <-; now apply grows_same_fs).
  - destruct (Fs.canWrite (fs w) fperm); injection E as _ <-; [|now apply grows_same_fs].
    apply grows_putRoot.
    exact (FsGrowth.extends_put_file _ _ _ _ _ _ (FsFacts.resolve_Found _ _ _ _ _ Eres)).
  - destruct (FsFacts.resolve_Missing _ _ _ _ _ Eres) as (pperm & es & Hparent & Hchild).
    rewrite Hparent in E.
    destruct (Fs.canWrite (fs w) pperm); injection E as _ <-; [|now apply grows_same_fs].
    apply grows_putRoot.
    apply FsGrowth.extends_put_new. now rewrite (FsFacts.lookup_snoc _ _ _ _ name Hparent).
Qed.

Lemma grows_writeData (f : file) (data : string) : preserves grows (OS.writeData f data).
Proof.
  intros w r w' E. unfold OS.writeData, bind, getFs in E.
  destruct (Fs.lookup (Fs.root (fs w)) (filePath f)) as [[perm d | |]|] eqn:El;
    try (injection E as _ <-; now apply grows_refl).
  injection E as _ <-. apply grows_putRoot.
  exact (FsGrowth.extends_put_file _ _ _ _ _ _ El).
Qed.

Create HintDb growth.
#[local] Hint Resolve grows_log grows_Input grows_putAutoApproved grows_getAutoApproved
  grows_pendingInputs grows_Add grows_Mkdir grows_creat grows_writeData : growth.

Ltac growth := frame grows_refl grows_trans ltac:(eauto with growth).

Lemma grows_Stat (path : string) : preserves grows (OS.Stat path).
Proof. unfold OS.Stat, OS.statWith. growth. Qed.

Lemma grows_Lstat (path : string) : preserves grows (OS.Lstat path).
Proof. unfold OS.Lstat, OS.statWith. growth. Qed.

#[local] Hint Resolve grows_Stat grows_Lstat : growth.

Lemma grows_MkdirAllRec (fuel : nat) (path : string) (perm : N) :
  preserves grows (OS.MkdirAllRec fuel path perm).
Proof.
  revert path; induction fuel as [|fuel IH]; intros path; cbn [OS.MkdirAllRec]; growth.
Qed.

Lemma grows_MkdirAll (path : string) (perm : N) : preserves grows (OS.MkdirAll path perm).
Proof. apply grows_MkdirAllRec. Qed.

Lemma grows_os_WriteFile (path data : string) (perm : N) :
  preserves grows (OS.WriteFile path data perm).
Proof. unfold OS.WriteFile. growth. Qed.

Lemma grows_Abs (path : string) : preserves grows (OS.Abs path).
Proof. unfold OS.Abs. growth. Qed.

#[local] Hint Resolve grows_MkdirAll grows_os_WriteFile grows_Abs : growth.

Lemma grows_Exists (path : string) (b : bool) : preserves grows (filesystem.Exists path b).
Proof. unfold filesystem.Exists. growth. Qed.

Lemma grows_WriteFile (destination content : string) (overwrite : bool) :
  preserves grows (filesystem.WriteFile destination content overwrite).
Proof. unfold filesystem.WriteFile. growth. Qed.

Lemma grows_CreatePath (path : string) (errIfExists : bool) :
  preserves grows (filesystem.CreatePath path errIfExists).
Proof. unfold filesystem.CreatePath. growth. Qed.

#[local] Hint Resolve grows_Exists grows_WriteFile grows_CreatePath : growth.

Lemma grows_confirmLoop (fuel : nat) : preserves grows (confirmLoop fuel).
Proof. induction fuel as [|fuel IH]; cbn [confirmLoop]; growth. Qed.

#[local] Hint Resolve grows_confirmLoop : growth.

Lemma grows_maybeConfirmOverwrite (path : string) : preserves grows (maybeConfirmOverwrite path).
Proof. unfold maybeConfirmOverwrite. growth. Qed.

#[local] Hint Resolve grows_maybeConfirmOverwrite : growth.

Lemma grows_toFile (c : RenderCommand) (r : Render) : preserves grows (toFile c r).
Proof. unfold toFile. destruct (GoPath.Split (Name r)). growth. Qed.

#[local] Hint Resolve grows_toFile : growth.

Lemma grows_Output (c : RenderCommand) (r : Render) : preserves grows (Output c r).
Proof. unfold Output, toTerminal, UI.Output. growth. Qed.

#[local] Hint Resolve grows_Output : growth.

Lemma grows_outputRenders (c : RenderCommand) (renders : list Render) :
  preserves grows (outputRenders c renders).
Proof.
  induction renders as [|r rs IH]; cbn [outputRenders]; unfold UI.ErrorWithContext; growth.
Qed.

(** ** [CreatePath] makes the directory *)

Lemma statOf_dir (op : string) (follow : bool) (path : string) (f : Fs.t) (d : OS.FileInfo) :
  OS.statOf op follow path f = (Some d, None) ->
  OS.IsDir d = true ->
  exists p perm es, Fs.resolve f follow path = Fs.Found p (Dir perm es).
Proof.
  unfold OS.statOf.
  destruct (Fs.resolve f follow path) as [p [perm dd | perm es | t] | parent name | e];
    intros H; try discriminate H; injection H as <-; cbn; intros Hd; try discriminate Hd.
  now exists p, perm, es.
Qed.

(** A directory that [os.Mkdir] has made is found by [os.Stat]. *)
Lemma Mkdir_makes_directory (path : string) (perm : N) (w w' : World) :
  OS.Mkdir path perm w = (Ok None, w') ->
  exists p perm' es, Fs.resolve (fs w') true path = Fs.Found p (Dir perm' es).
Proof.
  intros E. unfold OS.Mkdir, bind, log, getFs in E. cbn [fs addTrace] in E.
  pose proof (FsGrowth.resolve_follow (fs w) path) as Hfollow.
  destruct (Fs.resolve (fs w) false path) as [p n | parent name | e] eqn:Eres;
    try discriminate E.
  cbn [followResult] in Hfollow.
  destruct (FsFacts.resolve_Missing _ _ _ _ _ Eres) as (pperm & es & Hparent & Hchild).
  rewrite Hparent in E.
  destruct (Fs.canWrite (fs w) pperm); [|discriminate E].
  injection E as <-. cbn [fs setFs addTrace].
  set (x := Dir (Fs.created (fs w) perm) []).
  assert (Hnew : Fs.lookup (Fs.root (fs w)) (parent ++ [name])%list = None)
    by now rewrite (FsFacts.lookup_snoc _ _ _ _ name Hparent).
  pose proof (FsGrowth.resolve_stable (fs w) (Fs.put (Fs.root (fs w)) (parent ++ [name])%list x)
                true path (FsGrowth.extends_put_new _ _ x Hnew)) as Hstable.
  rewrite Hfollow in Hstable. cbn [stableResult] in Hstable.
  rewrite (FsFacts.lookup_put_new x _ _ _ _ _ Hparent Hchild) in Hstable.
  unfold x in *. eauto.
Qed.

Lemma Mkdir_failure_keeps_fs (path : string) (perm : N) (w w' : World) (e : error) :
  OS.Mkdir path perm w = (Ok (Some e), w') -> fs w' = fs w.
Proof.
  intros E. unfold OS.Mkdir, bind, log, getFs in E. cbn [fs addTrace] in E.
  destruct (Fs.resolve (fs w) false path) as [p n | parent name | err];
    try (now injection E as _ <-).
  destruct (Fs.lookup (Fs.root (fs w)) parent) as [[| pperm es |]|];
    try (now injection E as _ <-).
  destruct (Fs.canWrite (fs w) pperm); [discriminate E | now injection E as _ <-].
Qed.

Lemma MkdirAllRec_makes_directory (fuel : nat) (path : string) (perm : N) (w w' : World) :
  OS.MkdirAllRec fuel path perm w = (Ok None, w') ->
  exists p perm' es, Fs.resolve (fs w') true path = Fs.Found p (Dir perm' es).
Proof.
  destruct fuel as [|fuel]; [discriminate|]. cbn [OS.MkdirAllRec]. intros H.
  rewrite (bind_Ok _ _ _ _ _ (Stat_eq path w)) in H.
  destruct (OS.statOf "stat" true path (fs w)) as [dir [e|]] eqn:Estat.
  - apply bind_inv in H. destruct H as (err0 & w2 & _ & H).
    destruct err0 as [e0|]; [discriminate H|].
    apply bind_inv in H. destruct H as (err1 & w3 & Emk & H).
    destruct err1 as [e1|].
    + rewrite (bind_Ok _ _ _ _ _ (Lstat_eq path w3)) in H.
      destruct (OS.statOf "lstat" false path (fs w3)) as [dir1 [e2|]] eqn:El;
        [discriminate H|].
      destruct dir1 as [d|]; [|discriminate H].
      destruct (OS.IsDir d) eqn:Ed; [|discriminate H].
      injection H as <-. cbn [fs addTrace].
      destruct (statOf_dir _ _ _ _ _ El Ed) as (p & perm' & es & Hres).
      pose proof (FsGrowth.resolve_follow (fs w3) path) as Hfollow.
      rewrite Hres in Hfollow. cbn [followResult] in Hfollow. eauto.
    + injection H as <-. exact (Mkdir_makes_directory _ _ _ _ Emk).
  - destruct dir as [d|]; [|discriminate H].
    destruct (OS.IsDir d) eqn:Ed; [|discriminate H].
    injection H as <-. cbn [fs addTrace]. exact (statOf_dir _ _ _ _ _ Estat Ed).
Qed.

Lemma onlyAdds_refl (w : World) : onlyAdds w w.
Proof. split; [apply grows_refl | now intros q n H _]. Qed.

Lemma onlyAdds_trans (a b c : World) : onlyAdds a b -> onlyAdds b c -> onlyAdds a c.
Proof.
  intros (Hg1 & Hk1) (Hg2 & Hk2). split; [exact (grows_trans _ _ _ Hg1 Hg2)|].
  intros q n H Hn. exact (Hk2 q n (Hk1 q n H Hn) Hn).
Qed.

Lemma onlyAdds_same_fs (w w' : World) : fs w' = fs w -> onlyAdds w w'.
Proof. intros H. split; [now apply grows_same_fs | rewrite H; now intros q n Hq _]. Qed.

Lemma onlyAdds_log (e : event) : preserves onlyAdds (log e).
Proof. intros w r w' E. injection E as _ <-. now apply onlyAdds_same_fs. Qed.

Lemma onlyAdds_Mkdir (path : string) (perm : N) : preserves onlyAdds (OS.Mkdir path perm).
Proof.
  intros w r w' E. split; [exact (grows_Mkdir _ _ _ _ _ E)|].
  unfold OS.Mkdir, bind, log, getFs in E. cbn [fs addTrace] in E.
  destruct (Fs.resolve (fs w) false path) as [p n | parent name | e] eqn:Eres;
    try (injection E as _ <-; now intros q n' Hq _).
  destruct (FsFacts.resolve_Missing _ _ _ _ _ Eres) as (pperm & es & Hparent & Hchild).
  rewrite Hparent in E.
  destruct (Fs.canWrite (fs w) pperm); injection E as _ <-; [|now intros q n' Hq _].
  intros q n Hq Hn. cbn [fs setFs addTrace Fs.root Fs.setRoot].
  assert (Hnew : Fs.lookup (Fs.root (fs w)) (parent ++ [name])%list = None)
    by now rewrite (FsFacts.lookup_snoc _ _ _ _ name Hparent).
  apply FsFacts.lookup_put_other; [| | exact Hq | exact Hn].
  - rewrite Hnew. intros (? & ? & ?). discriminate.
  - intros ->. congruence.
Qed.

Create HintDb adding.
#[local] Hint Resolve onlyAdds_log onlyAdds_Mkdir : adding.

Ltac adding := frame onlyAdds_refl onlyAdds_trans ltac:(eauto with adding).

Lemma onlyAdds_Stat (path : string) : preserves onlyAdds (OS.Stat path).
Proof. unfold OS.Stat, OS.statWith. adding. Qed.

Lemma onlyAdds_Lstat (path : string) : preserves onlyAdds (OS.Lstat path).
Proof. unfold OS.Lstat, OS.statWith. adding. Qed.

#[local] Hint Resolve onlyAdds_Stat onlyAdds_Lstat : adding.

Lemma onlyAdds_MkdirAllRec (fuel : nat) (path : string) (perm : N) :
  preserves onlyAdds (OS.MkdirAllRec fuel path perm).
Proof.
  revert path; induction fuel as [|fuel IH]; intros path; cbn [OS.MkdirAllRec]; adding.
Qed.

Lemma onlyAdds_CreatePath (path : string) (errIfExists : bool) :
  preserves onlyAdds (filesystem.CreatePath path errIfExists).
Proof.
  pose proof onlyAdds_MkdirAllRec. unfold filesystem.CreatePath, OS.MkdirAll. adding.
Qed.

(** X18: when [CreatePath] returns nil the directory is there: [os.Stat]
    of the path finds a directory afterwards.  It has only added entries
    to the tree to get there: every object that was there is still there,
    directories with their permission bits, files and links unchanged. *)
Theorem CreatePath_makes_directory :
  forall (path : string) (errIfExists : bool) (w w' : World),
    filesystem.CreatePath path errIfExists w = (Ok None, w') ->
    (exists p perm es, Fs.resolve (fs w') true path = Fs.Found p (Dir perm es)) /\
    grows w w' /\
    keepsLeaves (Fs.root (fs w)) (Fs.root (fs w')).
Proof.
  intros path errIfExists w w' H.
  split; [|exact (onlyAdds_CreatePath _ _ _ _ _ H)].
  unfold filesystem.CreatePath in H.
  rewrite (bind_Ok _ _ _ _ _ (Stat_eq path w)) in H.
  destruct (OS.statOf "stat" true path (fs w)) as [[info|] [e|]];
    try exact (MkdirAllRec_makes_directory _ _ _ _ _ H); try discriminate H.
  destruct (OS.IsDir info && errIfExists); [discriminate H|].
  exact (MkdirAllRec_makes_directory _ _ _ _ _ H).
Qed.

Lemma CreatePath_makes_directory_witness :
  (exists p perm es,
      Fs.resolve (fs (snd (filesystem.CreatePath "/out/a/b" false (Examples.world false []))))
                 true "/out/a/b" = Fs.Found p (Dir perm es)) /\
  grows (Examples.world false [])
        (snd (filesystem.CreatePath "/out/a/b" false (Examples.world false []))) /\
  keepsLeaves (Fs.root (fs (Examples.world false [])))
              (Fs.root (fs (snd (filesystem.CreatePath "/out/a/b" false (Examples.world false []))))).
Proof.
  apply (CreatePath_makes_directory "/out/a/b" false (Examples.world false [])).
  reflexivity.
Defined.

(** ** [CopyFile] copies content and permission bits *)

Lemma Open_file (path : string) (w : World) (p : list string) (perm : N) (d : string) :
  Fs.resolve (fs w) true path = Fs.Found p (File perm d) ->
  Fs.canRead (fs w) perm = true ->
  OS.Open path w = (Ok (Some (mkFile path p), None), addTrace (Sys (SysOpen path)) w).
Proof.
  intros Hres Hrd. unfold OS.Open, bind, log, getFs. cbn [fs addTrace]. now rewrite Hres, Hrd.
Qed.

Lemma Create_missing (path : string) (w : World) (parent : list string) (name : string)
      (pperm : N) (es : list (string * node)) :
  Fs.resolve (fs w) true path = Fs.Missing parent name ->
  Fs.lookup (Fs.root (fs w)) parent = Some (Dir pperm es) ->
  Fs.canWrite (fs w) pperm = true ->
  OS.Create path w =
    (Ok (Some (mkFile path (parent ++ [name])%list), None),
     setFs (Fs.setRoot (Fs.put (Fs.root (fs w)) (parent ++ [name])%list
                          (File (Fs.created (fs w) Fs.p0666) ""))
                       (fs w))
           (addTrace (Sys (SysCreate path)) w)).
Proof.
  intros Hres Hparent Hwr.
  unfold OS.Create, OS.creat, bind, log, getFs, putRoot, ret. cbn [fs addTrace].
  now rewrite Hres, Hparent, Hwr.
Qed.

Lemma Copy_file (dst src : file) (w : World) (sperm dperm : N) (data old : string) :
  Fs.lookup (Fs.root (fs w)) (filePath src) = Some (File sperm data) ->
  Fs.lookup (Fs.root (fs w)) (filePath dst) = Some (File dperm old) ->
  OS.Copy dst src w =
    (Ok None,
     setFs (Fs.setRoot (Fs.put (Fs.root (fs w)) (filePath dst) (File dperm data)) (fs w))
           (addTrace (Sys (SysCopy dst src)) w)).
Proof.
  intros Hsrc Hdst.
  unfold OS.Copy, OS.writeData, bind, log, getFs, putRoot, ret. cbn [fs addTrace].
  rewrite Hsrc. cbn [fs addTrace]. now rewrite Hdst.
Qed.

Lemma Chmod_file (path : string) (perm : N) (w : World) (p : list string) (fperm : N) (d : string) :
  Fs.resolve (fs w) true path = Fs.Found p (File fperm d) ->
  OS.Chmod path perm w =
    (Ok None,
     setFs (Fs.setRoot (Fs.put (Fs.root (fs w)) p (File (N.land perm Fs.p0777) d)) (fs w))
           (addTrace (Sys (SysChmod path perm)) w)).
Proof.
  intros Hres. unfold OS.Chmod, bind, log, getFs, putRoot, ret. cbn [fs addTrace].
  now rewrite Hres.
Qed.

(** X19: [CopyFile] to a new destination copies the file.  When the
    source is a readable regular file and only the last element of the
    destination is missing, in a writable directory, [CopyFile] returns
    nil; afterwards the destination is a regular file with the content of
    the source and the permission bits of the source, and the source and
    every other file and link are unchanged. *)
Theorem CopyFile_copies :
  forall (sourcePath destinationPath : string) (w : World)
         (ps : list string) (sperm : N) (data : string)
         (parent : list string) (name : string) (pperm : N) (es : list (string * node)),
    Fs.resolve (fs w) true sourcePath = Fs.Found ps (File sperm data) ->
    Fs.canRead (fs w) sperm = true ->
    Fs.resolve (fs w) true destinationPath = Fs.Missing parent name ->
    Fs.lookup (Fs.root (fs w)) parent = Some (Dir pperm es) ->
    Fs.canWrite (fs w) pperm = true ->
    exists w' : World,
      filesystem.CopyFile sourcePath destinationPath w = (Ok None, w') /\
      Fs.lookup (Fs.root (fs w')) (parent ++ [name])%list
        = Some (File (N.land sperm Fs.p0777) data) /\
      keepsLeaves (Fs.root (fs w)) (Fs.root (fs w')).
Proof.
  intros sourcePath destinationPath w ps sperm data parent name pperm es
         Hsrc Hrd Hdst Hparent Hwr.
  destruct (FsFacts.resolve_Missing _ _ _ _ _ Hdst) as (perm' & es' & Hparent' & Hchild).
  rewrite Hparent in Hparent'. injection Hparent' as <- <-.
  set (f0 := fs w) in *. set (r0 := Fs.root f0) in *.
  set (pd := (parent ++ [name])%list) in *.
  set (c := Fs.created f0 Fs.p0666).
  set (r1 := Fs.put r0 pd (File c "")).
  set (r2 := Fs.put r1 pd (File c data)).
  set (r3 := Fs.put r2 pd (File (N.land sperm Fs.p0777) data)).
  pose proof (FsFacts.resolve_Found _ _ _ _ _ Hsrc) as Hs0. fold r0 in Hs0.
  assert (Hnew : Fs.lookup r0 pd = None)
    by (unfold pd; now rewrite (FsFacts.lookup_snoc _ _ _ _ name Hparent)).
  assert (Hd1 : Fs.lookup r1 pd = Some (File c ""))
    by exact (FsFacts.lookup_put_new _ _ _ _ _ _ Hparent Hchild).
  assert (Hd2 : Fs.lookup r2 pd = Some (File c data))
    by exact (FsFacts.lookup_put_same _ _ _ _ Hd1).
  assert (Hd3 : Fs.lookup r3 pd = Some (File (N.land sperm Fs.p0777) data))
    by exact (FsFacts.lookup_put_same _ _ _ _ Hd2).
  assert (Hnd0 : ~ isDirNode (Fs.lookup r0 pd)) by (rewrite Hnew; intros (? & ? & ?); discriminate).
  assert (Hnd1 : ~ isDirNode (Fs.lookup r1 pd)) by (rewrite Hd1; intros (? & ? & ?); discriminate).
  assert (Hnd2 : ~ isDirNode (Fs.lookup r2 pd)) by (rewrite Hd2; intros (? & ? & ?); discriminate).
  assert (Hkeep : keepsLeaves r0 r3).
  { intros q n Hq Hn.
    assert (Hqp : q <> pd) by (intros ->; congruence).
    repeat (apply FsFacts.lookup_put_other; try assumption). }
  assert (Hs1 : Fs.lookup r1 ps = Some (File sperm data)).
  { apply FsFacts.lookup_put_other; try assumption.
    - intros ->; congruence.
    - intros (? & ? & ?); discriminate. }
  assert (Hext2 : extends r0 r2).
  { eapply FsGrowth.extends_trans;
      [exact (FsGrowth.extends_put_new _ _ (File c "") Hnew)
      | exact (FsGrowth.extends_put_file _ _ _ _ _ _ Hd1)]. }
  (* the source and the destination as [os.Stat] and [os.Chmod] see them after the copy *)
  assert (Hsrc2 : Fs.resolve (Fs.setRoot r2 f0) true sourcePath = Fs.Found ps (File sperm data)).
  { pose proof (FsGrowth.resolve_stable f0 r2 true sourcePath Hext2) as Hst.
    rewrite Hsrc in Hst. cbn [stableResult] in Hst. destruct Hst as (n' & Hres & Hn').
    assert (Hs2 : Fs.lookup r2 ps = Some (File sperm data)).
    { apply FsFacts.lookup_put_other; try assumption.
      - intros ->; congruence.
      - intros (? & ? & ?); discriminate. }
    rewrite Hs2 in Hn'. injection Hn' as <-. exact Hres. }
  assert (Hdst2 : Fs.resolve (Fs.setRoot r2 f0) true destinationPath = Fs.Found pd (File c data)).
  { pose proof (FsGrowth.resolve_stable f0 r2 true destinationPath Hext2) as Hst.
    rewrite Hdst in Hst. cbn [stableResult] in Hst. fold pd in Hst. now rewrite Hd2 in Hst. }
  eexists. split.
  - unfold filesystem.CopyFile.
    rewrite (bind_Ok _ _ _ _ _ (Open_file _ _ _ _ _ Hsrc Hrd)).
    unfold bind at 1. unfold bind at 1.
    rewrite (Create_missing destinationPath (addTrace (Sys (SysOpen sourcePath)) w)
               parent name pperm es Hdst Hparent Hwr).
    cbn [fs addTrace]. fold f0 r0 pd c r1.
    unfold bind at 1. unfold bind at 1.
    erewrite (Copy_file _ _ _ sperm c data "");
      [| cbn [fs setFs Fs.root Fs.setRoot filePath]; exact Hs1
       | cbn [fs setFs Fs.root Fs.setRoot filePath]; exact Hd1].
    cbn [fs setFs addTrace Fs.root Fs.setRoot filePath]. fold r2.
    unfold OS.Sync at 1. unfold bind at 1. unfold bind at 1. cbn [log ret].
    unfold bind at 1. rewrite Stat_eq. cbn [fs setFs addTrace].
    unfold OS.statOf.
    change (Fs.setRoot r2 (Fs.setRoot r1 f0)) with (Fs.setRoot r2 f0).
    rewrite Hsrc2. cbn [OS.infoOf OS.Mode].
    unfold bind at 1.
    erewrite (Chmod_file destinationPath sperm _ pd c data);
      [| cbn [fs setFs addTrace]; exact Hdst2].
    cbn [fs setFs addTrace Fs.root Fs.setRoot ret]. fold r3.
    unfold OS.Close, bind, log, ret. reflexivity.
  - cbn [fs setFs addTrace Fs.root Fs.setRoot]. split; [exact Hd3 | exact Hkeep].
Qed.

Lemma CopyFile_copies_witness :
  exists w' : World,
    filesystem.CopyFile "/f" "/out/copy" (Examples.world false []) = (Ok None, w') /\
    Fs.lookup (Fs.root (fs w')) (["out"] ++ ["copy"])%list
      = Some (File (N.land Fs.p0644 Fs.p0777) "x") /\
    keepsLeaves (Fs.root (fs (Examples.world false []))) (Fs.root (fs w')).
Proof.
  apply (CopyFile_copies "/f" "/out/copy" (Examples.world false [])
           ["f"] Fs.p0644 "x" ["out"] "copy" Fs.p0755
           [("job.nomad", File Fs.p0644 "old")]);
    reflexivity.
Defined.

(** ** What a successful write leaves on disk *)

Lemma os_WriteFile_nil (path data : string) (perm : N) (w w' : World) :
  OS.WriteFile path data perm w = (Ok None, w') -> holdsFile w' path data.
Proof.
  intros E.
  unfold OS.WriteFile, OS.creat, OS.writeData, bind, log, getFs, putRoot, ret in E.
  cbn [fs addTrace] in E.
  destruct (Fs.resolve (fs w) true path) as [p [fperm d | dperm es | t] | parent name | e] eqn:Eres;
    try discriminate E.
  - destruct (Fs.canWrite (fs w) fperm); [|discriminate E].
    pose proof (FsFacts.resolve_Found _ _ _ _ _ Eres) as H0.
    pose proof (FsFacts.lookup_put_same (File fperm "") _ _ _ H0) as H1.
    pose proof (FsFacts.lookup_put_same (File fperm data) _ _ _ H1) as H2.
    cbn [fs setFs addTrace Fs.root Fs.setRoot filePath] in E. rewrite H1 in E.
    injection E as <-. cbn [fs setFs addTrace Fs.root Fs.setRoot].
    pose proof (FsGrowth.resolve_stable (fs w) _ true path
                  (FsGrowth.extends_trans _ _ _
                     (FsGrowth.extends_put_file _ _ _ fperm _ "" H0)
                     (FsGrowth.extends_put_file _ _ _ fperm _ data H1))) as Hst.
    rewrite Eres in Hst. destruct Hst as (n' & Hafter & Hn').
    rewrite H2 in Hn'. injection Hn' as <-.
    exists p, fperm. exact Hafter.
  - destruct (FsFacts.resolve_Missing _ _ _ _ _ Eres) as (pperm & es & Hparent & Hchild).
    rewrite Hparent in E.
    destruct (Fs.canWrite (fs w) pperm); [|discriminate E].
    pose proof (FsFacts.lookup_put_new (File (Fs.created (fs w) perm) "") _ _ _ _ _
                  Hparent Hchild) as H1.
    pose proof (FsFacts.lookup_put_same (File (Fs.created (fs w) perm) data) _ _ _ H1) as H2.
    cbn [fs setFs addTrace Fs.root Fs.setRoot filePath Fs.created Fs.umask] in E.
    rewrite H1 in E.
    injection E as <-. cbn [fs setFs addTrace Fs.root Fs.setRoot].
    assert (Hnew : Fs.lookup (Fs.root (fs w)) (parent ++ [name])%list = None)
      by now rewrite (FsFacts.lookup_snoc _ _ _ _ name Hparent).
    pose proof (FsGrowth.resolve_stable (fs w) _ true path
                  (FsGrowth.extends_trans _ _ _
                     (FsGrowth.extends_put_new _ _ (File (Fs.created (fs w) perm) "") Hnew)
                     (FsGrowth.extends_put_file _ _ _ (Fs.created (fs w) perm) _ data H1))) as Hst.
    rewrite Eres in Hst. cbn [stableResult] in Hst. rewrite H2 in Hst.
    exists (parent ++ [name])%list, (Fs.created (fs w) perm). exact Hst.
Qed.

Lemma WriteFile_nil_written :
  forall (destination content : string) (overwrite : bool) (w w' : World),
    filesystem.WriteFile destination content overwrite w = (Ok None, w') ->
    holdsFile w' destination content.
Proof.
  intros destination content overwrite w w' E.
  unfold filesystem.WriteFile in E. unfold bind at 1 in E.
  destruct (OS.Stat destination w) as [[[info err] | msg |] w1]; try discriminate E.
  assert (Hw : bind (OS.WriteFile destination content Fs.p0644)
                    (fun err => match err with Some e => ret (Some e) | None => ret None end) w1
               = (Ok None, w') -> holdsFile w' destination content).
  { clear E. unfold bind at 1. intros E.
    destruct (OS.WriteFile destination content Fs.p0644 w1) as [[[e|] | msg |] w2] eqn:E2;
      try discriminate E.
    injection E as <-. exact (os_WriteFile_nil _ _ _ _ _ E2). }
  destruct err as [e|], overwrite;
    destruct (match info with Some info => OS.IsDir info | None => false end);
    try discriminate E; exact (Hw E).
Qed.

(** X20: when [WriteFile] returns nil the content is on disk: afterwards
    [os.Stat] of the destination finds a regular file that holds exactly the
    given content, whatever was at the destination before and whether the
    path leads through links. *)
Theorem WriteFile_nil_on_disk :
  forall (destination content : string) (overwrite : bool) (w w' : World),
    filesystem.WriteFile destination content overwrite w = (Ok None, w') ->
    holdsFile w' destination content.
Proof. exact WriteFile_nil_written. Qed.

Lemma WriteFile_nil_on_disk_witness :
  holdsFile (snd (filesystem.WriteFile "/out/job.nomad" "new" true (Examples.world false [])))
            "/out/job.nomad" "new".
Proof.
  apply (WriteFile_nil_on_disk "/out/job.nomad" "new" true (Examples.world false [])).
  reflexivity.
Defined.

(** X21: when [toFile] returns nil the render is on disk: afterwards
    [os.Stat] of the output file, the render's name joined to the
    destination directory, finds a regular file that holds exactly the
    render's content. *)
Theorem toFile_nil_on_disk :
  forall (c : RenderCommand) (r : Render) (w w' : World),
    toFile c r w = (Ok None, w') ->
    holdsFile w' (outFileOf c r) (Content r).
Proof.
  intros c r w w' E. unfold outFileOf. unfold toFile in E.
  destruct (GoPath.Split (Name r)) as [filePath fileName]. cbn [fst snd].
  unfold bind at 1 in E.
  destruct (filesystem.CreatePath (GoPath.Join (renderToDir c) filePath) false w)
    as [[made | msg |] w1]; try discriminate E.
  unfold bind at 1 in E.
  destruct (maybeConfirmOverwrite (GoPath.Join (GoPath.Join (renderToDir c) filePath) fileName) w1)
    as [[[overwrite err] | msg |] w2]; try discriminate E.
  destruct err as [e|]; [discriminate E|].
  destruct overwrite; cbn [negb] in E; [|discriminate E].
  unfold bind at 1, getAutoApproved in E. unfold bind at 1 in E.
  destruct (filesystem.WriteFile (GoPath.Join (GoPath.Join (renderToDir c) filePath) fileName)
              (Content r) (autoApproved w2 || true) w2) as [[[e|] | msg |] w3] eqn:E3;
    try discriminate E.
  injection E as <-. exact (WriteFile_nil_written _ _ _ _ _ E3).
Qed.

Lemma toFile_nil_on_disk_witness :
  holdsFile (snd (toFile Examples.toOut Examples.other (Examples.world true [])))
            "/out/sub/other.nomad" "more".
Proof.
  apply (toFile_nil_on_disk Examples.toOut Examples.other (Examples.world true [])).
  reflexivity.
Defined.

Lemma grows_IsDir (path : string) (b : bool) : preserves grows (filesystem.IsDir path b).
Proof. unfold filesystem.IsDir. growth. Qed.

#[local] Hint Resolve grows_IsDir grows_outputRenders : growth.

Lemma grows_assembleRenders (c : RenderCommand) (x : Collaborators) :
  preserves grows (assembleRenders c x).
Proof. unfold assembleRenders, UI.ErrorWithContext. growth. Qed.

#[local] Hint Resolve grows_assembleRenders : growth.

Lemma grows_Run (c : RenderCommand) (x : Collaborators) : preserves grows (Run c x).
Proof. unfold Run, UI.ErrorWithContext, UI.Info. growth. Qed.

(** X22: [Run] never takes anything away from the disk.  Whatever the
    command, the collaborators and the answers typed, every object that was
    on disk before is there afterwards: a directory is still a directory
    with the same permission bits, a file is still a file, a link is the
    same link; the working directory, the mask and the privilege of the
    process are unchanged. *)
Theorem Run_never_removes :
  forall (c : RenderCommand) (x : Collaborators) (w : World),
    grows w (snd (Run c x w)).
Proof.
  intros c x w. destruct (Run c x w) as [r w'] eqn:E.
  exact (grows_Run c x w r w' E).
Qed.

(** ** Copying never takes anything away *)

Lemma grows_at {A : Type} (m : M A) (w : World) : preserves grows m -> preservesAt grows m w.
Proof. intros H r w' E. exact (H w r w' E). Qed.

Lemma grows_bind_at {A B : Type} (m : M A) (k : A -> M B) (w : World) :
  preservesAt grows m w ->
  (forall a w1, m w = (Ok a, w1) -> grows w w1 -> preservesAt grows (k a) w1) ->
  preservesAt grows (bind m k) w.
Proof.
  intros Hm Hk r w' E. unfold bind in E.
  destruct (m w) as [[a | msg |] w1] eqn:Em.
  - pose proof (Hm _ _ Em) as G.
    exact (grows_trans _ _ _ G (Hk a w1 eq_refl G r w' E)).
  - injection E as _ <-. exact (Hm _ _ Em).
  - injection E as _ <-. exact (Hm _ _ Em).
Qed.

Lemma fileAt_stable (path : string) (w w' : World) :
  grows w w' -> fileAt w path -> fileAt w' path.
Proof.
  intros (Hext & Efs) (p & perm & d & Hres). unfold fileAt. rewrite Efs.
  pose proof (FsGrowth.resolve_stable (fs w) _ true path Hext) as Hst.
  rewrite Hres in Hst. destruct Hst as (n' & Hafter & Hn').
  destruct (Hext p _ (FsFacts.resolve_Found _ _ _ _ _ Hres)) as (perm' & d' & Hl).
  rewrite Hl in Hn'. injection Hn' as <-. now exists p, perm', d'.
Qed.

Lemma dirAt_stable (path : string) (w w' : World) :
  grows w w' -> dirAt w path -> dirAt w' path.
Proof.
  intros (Hext & Efs) (p & perm & es & Hres). unfold dirAt. rewrite Efs.
  pose proof (FsGrowth.resolve_stable (fs w) _ true path Hext) as Hst.
  rewrite Hres in Hst. destruct Hst as (n' & Hafter & Hn').
  destruct (Hext p _ (FsFacts.resolve_Found _ _ _ _ _ Hres)) as (es' & Hl).
  rewrite Hl in Hn'. injection Hn' as <-. now exists p, perm, es'.
Qed.

(** A file that [os.Create] has opened is found by [os.Stat]. *)
Lemma Create_opens_file (path : string) (f : file) (w w' : World) :
  OS.Create path w = (Ok (Some f, None), w') -> fileAt w' path.
Proof.
  intros E. unfold OS.Create, OS.creat, bind, log, getFs, putRoot, ret in E.
  cbn [fs addTrace] in E.
  destruct (Fs.resolve (fs w) true path) as [p [fperm d | dperm es | t] | parent name | e] eqn:Eres;
    try discriminate E.
  - destruct (Fs.canWrite (fs w) fperm); [|discriminate E].
    pose proof (FsFacts.resolve_Found _ _ _ _ _ Eres) as H0.
    pose proof (FsFacts.lookup_put_same (File fperm "") _ _ _ H0) as H1.
    injection E as _ <-. unfold fileAt. cbn [fs setFs addTrace Fs.root Fs.setRoot].
    pose proof (FsGrowth.resolve_stable (fs w) _ true path
                  (FsGrowth.extends_put_file _ _ _ fperm _ "" H0)) as Hst.
    rewrite Eres in Hst. destruct Hst as (n' & Hafter & Hn').
    rewrite H1 in Hn'. injection Hn' as <-. now exists p, fperm, "".
  - destruct (FsFacts.resolve_Missing _ _ _ _ _ Eres) as (pperm & es & Hparent & Hchild).
    rewrite Hparent in E.
    destruct (Fs.canWrite (fs w) pperm); [|discriminate E].
    pose proof (FsFacts.lookup_put_new (File (Fs.created (fs w) Fs.p0666) "") _ _ _ _ _
                  Hparent Hchild) as H1.
    injection E as _ <-. unfold fileAt. cbn [fs setFs addTrace Fs.root Fs.setRoot].
    assert (Hnew : Fs.lookup (Fs.root (fs w)) (parent ++ [name])%list = None)
      by now rewrite (FsFacts.lookup_snoc _ _ _ _ name Hparent).
    pose proof (FsGrowth.resolve_stable (fs w) _ true path
                  (FsGrowth.extends_put_new _ _ (File (Fs.created (fs w) Fs.p0666) "") Hnew))
      as Hst.
    rewrite Eres in Hst. cbn [stableResult] in Hst. rewrite H1 in Hst.
    now exists (parent ++ [name])%list, (Fs.created (fs w) Fs.p0666), "".
Qed.

(** [os.Chmod] of a regular file changes the bits of that file only. *)
Lemma grows_Chmod_file (path : string) (perm : N) (w : World) :
  fileAt w path -> preservesAt grows (OS.Chmod path perm) w.
Proof.
  intros (p & fperm & d & Hres) r w' E. rewrite (Chmod_file _ perm _ _ _ _ Hres) in E.
  injection E as _ <-.
  apply (grows_trans _ (addTrace (Sys (SysChmod path perm)) w)); [now apply grows_same_fs|].
  apply (grows_putRoot (addTrace (Sys (SysChmod path perm)) w)). cbn [fs addTrace].
  exact (FsGrowth.extends_put_file _ _ _ _ _ _ (FsFacts.resolve_Found _ _ _ _ _ Hres)).
Qed.

Lemma grows_Open (path : string) : preserves grows (OS.Open path).
Proof. unfold OS.Open. growth. Qed.

Lemma grows_Create (path : string) : preserves grows (OS.Create path).
Proof. unfold OS.Create. growth. Qed.

Lemma grows_Copy (dst src : file) : preserves grows (OS.Copy dst src).
Proof. unfold OS.Copy. growth. Qed.

Lemma grows_Sync (f : file) : preserves grows (OS.Sync f).
Proof. unfold OS.Sync. growth. Qed.

Lemma grows_Close (f : file) : preserves grows (OS.Close f).
Proof. unfold OS.Close. growth. Qed.

Lemma grows_Debug (format : string) (e : error) : preserves grows (Logger.Debug format e).
Proof. unfold Logger.Debug. growth. Qed.

Lemma grows_ReadDir (path : string) : preserves grows (OS.ReadDir path).
Proof. unfold OS.ReadDir. growth. Qed.

#[local] Hint Resolve grows_Open grows_Create grows_Copy grows_Sync grows_Close grows_Debug
  grows_ReadDir : growth.

Lemma grows_CopyFile (sourcePath destinationPath : string) :
  preserves grows (filesystem.CopyFile sourcePath destinationPath).
Proof.
  intros w. change (preservesAt grows (filesystem.CopyFile sourcePath destinationPath) w).
  unfold filesystem.CopyFile.
  apply grows_bind_at; [apply grows_at; growth|]. intros [sourceFile err] w1 _ _.
  destruct err as [e|]; [apply grows_at; growth|].
  destruct sourceFile as [sourceFile|]; [|apply grows_at; growth].
  apply grows_bind_at; [|intros; apply grows_at; growth].
  apply grows_bind_at; [apply grows_at; growth|]. intros [destinationFile err] w2 E2 _.
  destruct err as [e|]; [apply grows_at; growth|].
  destruct destinationFile as [destinationFile|]; [|apply grows_at; growth].
  pose proof (Create_opens_file _ _ _ _ E2) as Hfile.
  apply grows_bind_at; [|intros; apply grows_at; growth].
  apply grows_bind_at; [apply grows_at; growth|]. intros [e|] w3 _ G3; [apply grows_at; growth|].
  apply grows_bind_at; [apply grows_at; growth|]. intros [e|] w4 _ G4; [apply grows_at; growth|].
  apply grows_bind_at; [apply grows_at; growth|]. intros [info err] w5 _ G5.
  destruct err as [e|]; [apply grows_at; growth|].
  destruct info as [info|]; [|apply grows_at; growth].
  apply grows_bind_at.
  - apply grows_Chmod_file.
    exact (fileAt_stable _ _ _ (grows_trans _ _ _ (grows_trans _ _ _ G3 G4) G5) Hfile).
  - intros [e|] w6 _ _; apply grows_at; growth.
Qed.

#[local] Hint Resolve grows_CopyFile : growth.

Lemma grows_CopyDir (fuel : nat) :
  forall sourceDir destinationDir : string,
    preserves grows (filesystem.CopyDir fuel sourceDir destinationDir).
Proof.
  induction fuel as [|fuel IH]; intros sourceDir destinationDir; cbn [filesystem.CopyDir];
    [growth|].
  cbv zeta. growth.
  match goal with |- preserves grows (_ ?l) => induction l as [|entry entries IHe] end;
    growth.
Qed.

(** X23: [CopyFile] and [CopyDir] never take anything away from the disk.
    Whatever the paths and whatever the outcome, every object that was on
    disk before is there afterwards: a directory is still a directory with
    the same permission bits, a file is still a file, a link is the same
    link.  In particular the [os.Chmod] at the end of [CopyFile] only ever
    reaches the regular file that [os.Create] has just opened. *)
Theorem Copy_never_removes :
  forall (fuel : nat) (source destination : string) (w : World),
    grows w (snd (filesystem.CopyFile source destination w)) /\
    grows w (snd (filesystem.CopyDir fuel source destination w)).
Proof.
  intros fuel source destination w. split.
  - destruct (filesystem.CopyFile source destination w) as [r w'] eqn:E.
    exact (grows_CopyFile _ _ w r w' E).
  - destruct (filesystem.CopyDir fuel source destination w) as [r w'] eqn:E.
    exact (grows_CopyDir fuel _ _ w r w' E).
Qed.

(** X24: when [CopyDir] returns nil the destination is a directory:
    afterwards [os.Stat] of the cleaned destination path finds a
    directory. *)
Theorem CopyDir_nil_makes_destination :
  forall (fuel : nat) (sourceDir destinationDir : string) (w w' : World),
    filesystem.CopyDir fuel sourceDir destinationDir w = (Ok None, w') ->
    dirAt w' (GoPath.Clean destinationDir).
Proof.
  intros fuel sourceDir destinationDir w w' E.
  destruct fuel as [|fuel]; [discriminate E|].
  cbn [filesystem.CopyDir] in E. cbv zeta in E.
  apply bind_inv in E. destruct E as ([info err] & w1 & _ & E).
  destruct err as [e|]; [apply bind_inv in E; destruct E as (? & ? & _ & E); discriminate E|].
  destruct info as [info|]; [|discriminate E].
  destruct (negb (OS.IsDir info));
    [apply bind_inv in E; destruct E as (? & ? & _ & E); discriminate E|].
  apply bind_inv in E. destruct E as ([info2 err] & w2 & _ & E).
  destruct err as [e|];
    [|apply bind_inv in E; destruct E as (? & ? & _ & E); discriminate E].
  destruct (negb (GoErrors.IsNotExist (Some e)));
    [apply bind_inv in E; destruct E as (? & ? & _ & E); discriminate E|].
  apply bind_inv in E. destruct E as (err & w3 & Emk & E).
  destruct err as [e3|];
    [apply bind_inv in E; destruct E as (? & ? & _ & E); discriminate E|].
  pose proof (MkdirAllRec_makes_directory _ _ _ _ _ Emk) as Hdir.
  apply bind_inv in E. destruct E as ([entries err] & w4 & Erd & E).
  destruct err as [e4|];
    [apply bind_inv in E; destruct E as (? & ? & _ & E); discriminate E|].
  apply (dirAt_stable _ w3); [|exact Hdir].
  apply (grows_trans _ w4); [exact (grows_ReadDir _ _ _ _ Erd)|].
  clear Erd. revert E.
  match goal with |- ?m w4 = _ -> _ =>
    assert (Hloop : preserves grows m); [|exact (Hloop w4 _ w')]
  end.
  pose proof (grows_CopyDir fuel) as HCopyDir.
  match goal with |- preserves grows (_ ?l) => induction l as [|entry rest IHe] end;
    growth.
Qed.

Lemma CopyDir_nil_makes_destination_witness :
  dirAt (snd (filesystem.CopyDir 3 "/packs/" "/out/copy/../packs" (Examples.world false [])))
        (GoPath.Clean "/out/copy/../packs").
Proof.
  apply (CopyDir_nil_makes_destination 3 "/packs/" "/out/copy/../packs"
           (Examples.world false [])).
  vm_compute. reflexivity.
Defined.

(** ** Copying a file onto itself *)

Lemma Create_existing (path : string) (w : World) (p : list string) (fperm : N) (d : string) :
  Fs.resolve (fs w) true path = Fs.Found p (File fperm d) ->
  Fs.canWrite (fs w) fperm = true ->
  OS.Create path w =
    (Ok (Some (mkFile path p), None),
     setFs (Fs.setRoot (Fs.put (Fs.root (fs w)) p (File fperm "")) (fs w))
           (addTrace (Sys (SysCreate path)) w)).
Proof.
  intros Hres Hwr.
  unfold OS.Create, OS.creat, bind, log, getFs, putRoot, ret. cbn [fs addTrace].
  now rewrite Hres, Hwr.
Qed.

(** X25: [CopyFile] of a file onto itself empties it.  When the source and
    the destination lead to the same readable and writable regular file,
    [CopyFile] returns nil and afterwards the file is empty: [os.Create]
    truncates it before [io.Copy] reads it.  Every other file and link is
    unchanged. *)
Theorem CopyFile_onto_itself :
  forall (sourcePath destinationPath : string) (w : World)
         (p : list string) (perm : N) (data : string),
    Fs.resolve (fs w) true sourcePath = Fs.Found p (File perm data) ->
    Fs.resolve (fs w) true destinationPath = Fs.Found p (File perm data) ->
    Fs.canRead (fs w) perm = true ->
    Fs.canWrite (fs w) perm = true ->
    exists w' : World,
      filesystem.CopyFile sourcePath destinationPath w = (Ok None, w') /\
      Fs.lookup (Fs.root (fs w')) p = Some (File (N.land perm Fs.p0777) "") /\
      keepsLeavesBut p (Fs.root (fs w)) (Fs.root (fs w')).
Proof.
  intros sourcePath destinationPath w p perm data Hsrc Hdst Hrd Hwr.
  set (f0 := fs w) in *. set (r0 := Fs.root f0) in *.
  set (r1 := Fs.put r0 p (File perm "")).
  set (r2 := Fs.put r1 p (File perm "")).
  set (r3 := Fs.put r2 p (File (N.land perm Fs.p0777) "")).
  pose proof (FsFacts.resolve_Found _ _ _ _ _ Hsrc) as H0. fold r0 in H0.
  assert (H1 : Fs.lookup r1 p = Some (File perm ""))
    by exact (FsFacts.lookup_put_same _ _ _ _ H0).
  assert (H2 : Fs.lookup r2 p = Some (File perm ""))
    by exact (FsFacts.lookup_put_same _ _ _ _ H1).
  assert (H3 : Fs.lookup r3 p = Some (File (N.land perm Fs.p0777) ""))
    by exact (FsFacts.lookup_put_same _ _ _ _ H2).
  assert (Hnd0 : ~ isDirNode (Fs.lookup r0 p)) by (rewrite H0; intros (? & ? & ?); discriminate).
  assert (Hnd1 : ~ isDirNode (Fs.lookup r1 p)) by (rewrite H1; intros (? & ? & ?); discriminate).
  assert (Hnd2 : ~ isDirNode (Fs.lookup r2 p)) by (rewrite H2; intros (? & ? & ?); discriminate).
  assert (Hkeep : keepsLeavesBut p r0 r3).
  { intros q n Hqp Hq Hn. repeat (apply FsFacts.lookup_put_other; try assumption). }
  assert (Hext2 : extends r0 r2).
  { eapply FsGrowth.extends_trans;
      [exact (FsGrowth.extends_put_file _ _ _ perm _ "" H0)
      | exact (FsGrowth.extends_put_file _ _ _ perm _ "" H1)]. }
  assert (Hsrc2 : Fs.resolve (Fs.setRoot r2 f0) true sourcePath = Fs.Found p (File perm "")).
  { pose proof (FsGrowth.resolve_stable f0 r2 true sourcePath Hext2) as Hst.
    rewrite Hsrc in Hst. cbn [stableResult] in Hst. destruct Hst as (n' & Hres & Hn').
    rewrite H2 in Hn'. injection Hn' as <-. exact Hres. }
  assert (Hdst2 : Fs.resolve (Fs.setRoot r2 f0) true destinationPath = Fs.Found p (File perm "")).
  { pose proof (FsGrowth.resolve_stable f0 r2 true destinationPath Hext2) as Hst.
    rewrite Hdst in Hst. cbn [stableResult] in Hst. destruct Hst as (n' & Hres & Hn').
    rewrite H2 in Hn'. injection Hn' as <-. exact Hres. }
  eexists. split.
  - unfold filesystem.CopyFile.
    rewrite (bind_Ok _ _ _ _ _ (Open_file _ _ _ _ _ Hsrc Hrd)).
    unfold bind at 1. unfold bind at 1.
    rewrite (Create_existing destinationPath (addTrace (Sys (SysOpen sourcePath)) w)
               p perm data Hdst Hwr).
    cbn [fs addTrace]. fold f0 r0 r1.
    unfold bind at 1. unfold bind at 1.
    erewrite (Copy_file _ _ _ perm perm "" "");
      [| cbn [fs setFs Fs.root Fs.setRoot filePath]; exact H1
       | cbn [fs setFs Fs.root Fs.setRoot filePath]; exact H1].
    cbn [fs setFs addTrace Fs.root Fs.setRoot filePath]. fold r2.
    unfold OS.Sync at 1. unfold bind at 1. unfold bind at 1. cbn [log ret].
    unfold bind at 1. rewrite Stat_eq. cbn [fs setFs addTrace].
    unfold OS.statOf.
    change (Fs.setRoot r2 (Fs.setRoot r1 f0)) with (Fs.setRoot r2 f0).
    rewrite Hsrc2. cbn [OS.infoOf OS.Mode].
    unfold bind at 1.
    erewrite (Chmod_file destinationPath perm _ p perm "");
      [| cbn [fs setFs addTrace]; exact Hdst2].
    cbn [fs setFs addTrace Fs.root Fs.setRoot ret]. fold r3.
    unfold OS.Close, bind, log, ret. reflexivity.
  - cbn [fs setFs addTrace Fs.root Fs.setRoot]. split; [exact H3 | exact Hkeep].
Qed.

Lemma CopyFile_onto_itself_witness :
  exists w' : World,
    filesystem.CopyFile "/f" "/ro/l" (Examples.world false []) = (Ok None, w') /\
    Fs.lookup (Fs.root (fs w')) ["f"] = Some (File (N.land Fs.p0644 Fs.p0777) "") /\
    keepsLeavesBut ["f"] (Fs.root (fs (Examples.world false []))) (Fs.root (fs w')).
Proof.
  apply (CopyFile_onto_itself "/f" "/ro/l" (Examples.world false []) ["f"] Fs.p0644 "x");
    reflexivity.
Defined.

(** ** Names that [formatRenderName] leaves alone *)

Lemma lastByte_append (a s : string) :
  s <> "" -> GoStrings.lastByte (a ++ s) = GoStrings.lastByte s.
Proof.
  intros Hs. induction a as [|c a IH]; [reflexivity|].
  cbn [append GoStrings.lastByte]. rewrite <- IH.
  destruct (a ++ s) as [|d r] eqn:E; [|reflexivity].
  destruct a; [cbn in E; contradiction | discriminate E].
Qed.

Lemma allBytes_last (f : ascii -> bool) (s : string) (c : ascii) :
  GoStrings.allBytes f s = true -> GoStrings.lastByte s = Some c -> f c = true.
Proof.
  induction s as [|x s IH]; [discriminate|].
  cbn [GoStrings.allBytes]. rewrite andb_true_iff. intros [Hx Hs].
  cbn [GoStrings.lastByte]. destruct s as [|y s'].
  - intros H. injection H as <-. exact Hx.
  - intros H. exact (IH Hs H).
Qed.

Lemma lastByte_some (s : string) : s <> "" -> exists c, GoStrings.lastByte s = Some c.
Proof.
  induction s as [|x s IH]; [contradiction|]. intros _.
  destruct s as [|y s']; [now exists x|].
  destruct IH as [c Hc]; [discriminate|]. exists c. exact Hc.
Qed.

(** X26: the names [formatRenderName] returns unchanged are exactly the
    names that hold no ["/templates/"] and do not end in one of the bytes
    [.], [t], [p] and [l]. *)
Theorem formatRenderName_unchanged_iff :
  forall name : string,
    formatRenderName name = name <->
    (GoStrings.NoOcc "/templates/" name /\
     match GoStrings.lastByte name with
     | Some c => GoStrings.inCutset c ".tpl" = false
     | None => True
     end).
Proof.
  intros name. unfold formatRenderName. split.
  - intros H.
    destruct (GoStringsFacts.Replace1_spec "/templates/" "/" name)
      as [[Hno Heq] | (pre & post & [Hocc Hfirst] & Heq)].
    + split; [exact Hno|]. rewrite Heq in H.
      destruct (GoStrings.lastByte name) as [c|] eqn:E; [|exact I].
      rewrite <- H in E. exact (GoStringsFacts.TrimRight_last _ _ _ E).
    + exfalso.
      destruct (GoStringsFacts.TrimRight_split ".tpl" (GoStrings.Replace1 name "/templates/" "/"))
        as (suffix & Hsplit & _).
      rewrite H, Heq in Hsplit. unfold GoStrings.OccursAt in Hocc. rewrite Hocc in Hsplit.
      apply (f_equal String.length) in Hsplit.
      rewrite !length_append in Hsplit. cbn [String.length] in Hsplit. lia.
  - intros [Hno Hlast].
    destruct (GoStringsFacts.Replace1_spec "/templates/" "/" name)
      as [[_ Heq] | (pre & post & [Hocc _] & _)]; [|now destruct (Hno pre post)].
    rewrite Heq.
    destruct (GoStringsFacts.TrimRight_split ".tpl" name) as (suffix & Hsplit & Hall).
    destruct suffix as [|x suffix]; [now rewrite append_nil_r in Hsplit|].
    exfalso.
    assert (Hne : String x suffix <> "") by discriminate.
    destruct (lastByte_some _ Hne) as [c Hc].
    pose proof (allBytes_last _ _ _ Hall Hc) as Hin.
    rewrite Hsplit, (lastByte_append _ _ Hne), Hc in Hlast. cbv beta in Hin. congruence.
Qed.

(** ** The batch of a concatenation *)

Lemma bind_assoc {A B C : Type} (m : M A) (k : A -> M B) (k' : B -> M C) (w : World) :
  bind (bind m k) k' w = bind m (fun x => bind (k x) k') w.
Proof. unfold bind. now destruct (m w) as [[a | msg |] w1]. Qed.

Lemma bind_ext {A B : Type} (m : M A) (k k' : A -> M B) (w : World) :
  (forall a w1, k a w1 = k' a w1) -> bind m k w = bind m k' w.
Proof. intros H. unfold bind. destruct (m w) as [[a | msg |] w1]; [apply H | |]; reflexivity. Qed.

(** X27: the output of a list of renders composes: the output of [a ++ b]
    is the output of [a] followed, from the world that leaves, by the
    output of [b]; when the output of [a] does not return, neither does
    the whole and nothing of [b] is output. *)
Theorem outputRenders_app :
  forall (c : RenderCommand) (a b : list Render) (w : World),
    outputRenders c (a ++ b)%list w
    = bind (outputRenders c a) (fun _ => outputRenders c b) w.
Proof.
  intros c a b. induction a as [|r a IH]; intros w; [reflexivity|].
  cbn [app outputRenders]. rewrite bind_assoc. apply bind_ext. intros err w1.
  rewrite bind_assoc. apply bind_ext. intros u w2. apply IH.
Qed.
